(** * A verification development for tl-scraper

    Shallow embeddings of the job pool ([src/src/join_pool.rs]), the month
    partitioning and per-month jobs ([src/src/sync.rs]), the history window of
    the GoCardless sync ([src/gocardless/src/sync.rs]), and the token handling
    of both clients ([src/src/client/authentication.rs],
    [src/gocardless/src/auth.rs]). *)

From Stdlib Require Import ZArith Lia List Bool String Ascii.
Import ListNotations.
Open Scope Z_scope.

(** ** Calendar dates: chrono's [NaiveDate]

    A date is a (year, month, day) triple.  chrono (>= 0.4.34, the version
    providing [Duration::try_seconds] used by the client) represents years
    [MIN_YEAR ..= MAX_YEAR] with [MAX_YEAR = (i32::MAX >> 13) - 1] and
    [MIN_YEAR = (i32::MIN >> 13) + 1]; every operation that would leave this
    range yields [None]. *)

Module Date.

Record NaiveDate := mkDate { year : Z; month : Z; day : Z }.

Definition MAX_YEAR : Z := Z.shiftr 2147483647 13 - 1.
Definition MIN_YEAR : Z := Z.shiftr (-2147483648) 13 + 1.

Definition is_leap (y : Z) : bool :=
  ((y mod 4 =? 0) && negb (y mod 100 =? 0)) || (y mod 400 =? 0).

Definition days_in_month (y m : Z) : Z :=
  if (m =? 2) then (if is_leap y then 29 else 28)
  else if (m =? 4) || (m =? 6) || (m =? 9) || (m =? 11) then 30
  else 31.

Definition valid (d : NaiveDate) : Prop :=
  MIN_YEAR <= year d <= MAX_YEAR /\ 1 <= month d <= 12 /\
  1 <= day d <= days_in_month (year d) (month d).

Definition validb (d : NaiveDate) : bool :=
  (MIN_YEAR <=? year d) && (year d <=? MAX_YEAR) &&
  (1 <=? month d) && (month d <=? 12) &&
  (1 <=? day d) && (day d <=? days_in_month (year d) (month d)).

(** [NaiveDate::succ_opt] *)
Definition succ_opt (d : NaiveDate) : option NaiveDate :=
  if day d <? days_in_month (year d) (month d) then
    Some (mkDate (year d) (month d) (day d + 1))
  else if month d <? 12 then Some (mkDate (year d) (month d + 1) 1)
  else if year d <? MAX_YEAR then Some (mkDate (year d + 1) 1 1)
  else None.

(** [NaiveDate::pred_opt] *)
Definition pred_opt (d : NaiveDate) : option NaiveDate :=
  if 1 <? day d then Some (mkDate (year d) (month d) (day d - 1))
  else if 1 <? month d then
    Some (mkDate (year d) (month d - 1) (days_in_month (year d) (month d - 1)))
  else if MIN_YEAR <? year d then Some (mkDate (year d - 1) 12 31)
  else None.

(** [Ord for NaiveDate]: chronological, i.e. lexicographic on the triple. *)
Definition cmp (a b : NaiveDate) : comparison :=
  match Z.compare (year a) (year b) with
  | Eq => match Z.compare (month a) (month b) with
          | Eq => Z.compare (day a) (day b)
          | c => c
          end
  | c => c
  end.

Definition le (a b : NaiveDate) : bool :=
  match cmp a b with Gt => false | _ => true end.

(** [std::cmp::min]: the first argument unless it is greater. *)
Definition min (a b : NaiveDate) : NaiveDate :=
  match cmp a b with Gt => b | _ => a end.

(** [NaiveDate::with_day] *)
Definition with_day (d : NaiveDate) (k : Z) : option NaiveDate :=
  if (1 <=? k) && (k <=? days_in_month (year d) (month d))
  then Some (mkDate (year d) (month d) k) else None.

(** [NaiveDate::checked_sub_days]: [n] steps back; [None] past [MIN]. *)
Fixpoint sub_days (d : NaiveDate) (n : nat) : option NaiveDate :=
  match n with
  | O => Some d
  | S n' => match pred_opt d with
            | Some p => sub_days p n'
            | None => None
            end
  end.

(** [NaiveDate::checked_add_months] (through [diff_months]): the day is
    clamped to the length of the target month. *)
Definition add_months (d : NaiveDate) (k : Z) : option NaiveDate :=
  if k =? 0 then Some d else
  let ms := year d * 12 + month d - 1 + k in
  let y := Z.div ms 12 in
  let m := Z.modulo ms 12 + 1 in
  let dm := days_in_month y m in
  let dd := if dm <? day d then dm else day d in
  if (MIN_YEAR <=? y) && (y <=? MAX_YEAR) then Some (mkDate y m dd) else None.

(** [d.iter_days()] cut to its first [n] items: the iterator yields the
    current date as long as its successor exists. *)
Fixpoint iter_days_take (d : NaiveDate) (n : nat) : list NaiveDate :=
  match n with
  | O => []
  | S n' => match succ_opt d with
            | Some d' => d :: iter_days_take d' n'
            | None => []
            end
  end.

(** Month index [12 * year + month - 1] and the first and last day of the
    month with a given index. *)
Definition idx (d : NaiveDate) : Z := 12 * year d + month d - 1.
Definition first_of (j : Z) : NaiveDate := mkDate (j / 12) (j mod 12 + 1) 1.
Definition last_of (j : Z) : NaiveDate :=
  mkDate (j / 12) (j mod 12 + 1) (days_in_month (j / 12) (j mod 12 + 1)).

(** Index of the first and of the last representable month. *)
Definition FIRST_IDX : Z := 12 * MIN_YEAR.
Definition LAST_IDX : Z := 12 * MAX_YEAR + 11.

(** A numeric key whose order is the order of dates with [1 <= month <= 12]
    and [1 <= day <= 31]. *)
Definition key (d : NaiveDate) : Z := 32 * idx d + day d.

End Date.

(** ** Month partitioning: [months] in [src/src/sync.rs]

<<
fn months(period: RangeInclusive<NaiveDate>) -> impl Iterator<Item = RangeInclusive<NaiveDate>> {
    let month_start_date = period.start().with_day(1).expect("day one");
    let month_starts = month_start_date.iter_days().filter(|d| d.day() == 1);
    let month_ends = month_starts.clone().skip(1).map({
        let period = period.clone();
        move |d| min(d.pred_opt().unwrap(), *period.end())
    });
    month_starts
        .take_while(move |d| d <= period.end())
        .zip(month_ends)
        .map(|(a, b)| a..=b)
}
>>

    The iterators are lazy and [iter_days] is unbounded up to chrono's last
    date; the embedding runs the same pipeline over the first [n] days of
    [iter_days], and [months] takes [n] large enough to reach past the month
    after [end] (one month has at most 31 days).  A panic ([expect],
    [unwrap]) is [None]. *)

Module Months.
Import Date.

(** The closure [|d| d.day() == 1]. *)
Definition is_first (d : NaiveDate) : bool := day d =? 1.

Definition month_starts (m0 : NaiveDate) (n : nat) : list NaiveDate :=
  filter is_first (iter_days_take m0 n).

Fixpoint take_while {A} (p : A -> bool) (l : list A) : list A :=
  match l with
  | [] => []
  | x :: l' => if p x then x :: take_while p l' else []
  end.

(** [a.zip(b.map(|d| min(d.pred_opt().unwrap(), end)))]: [zip] polls [a]
    first and stops as soon as either side is exhausted. *)
Fixpoint zip_ends (a b : list NaiveDate) (e : NaiveDate)
  : option (list (NaiveDate * NaiveDate)) :=
  match a, b with
  | x :: a', y :: b' =>
      match pred_opt y with
      | Some p => option_map (cons (x, min p e)) (zip_ends a' b' e)
      | None => None
      end
  | _, _ => Some []
  end.

Definition months_take (start end_ : NaiveDate) (n : nat)
  : option (list (NaiveDate * NaiveDate)) :=
  match with_day start 1 with
  | None => None
  | Some m0 =>
      let ms := month_starts m0 n in
      zip_ends (take_while (fun d => le d end_) ms) (skipn 1 ms) end_
  end.

Definition fuel (start end_ : NaiveDate) : nat :=
  Z.to_nat (key end_ - key start + 64).

Definition months (start end_ : NaiveDate)
  : option (list (NaiveDate * NaiveDate)) :=
  months_take start end_ (fuel start end_).

(** The first days of the [k] months from index [j] on, and the buckets
    [first_of j ..= min (last_of j) e] of those months. *)
Fixpoint firsts (j : Z) (k : nat) : list NaiveDate :=
  match k with
  | O => []
  | S k' => first_of j :: firsts (j + 1) k'
  end.

Fixpoint buckets (j : Z) (k : nat) (e : NaiveDate) : list (NaiveDate * NaiveDate) :=
  match k with
  | O => []
  | S k' => (first_of j, min (last_of j) e) :: buckets (j + 1) k' e
  end.

(** A date lies in the bucket [a..=b]. *)
Definition in_bucket (x : NaiveDate) (r : NaiveDate * NaiveDate) : bool :=
  le (fst r) x && le x (snd r).

End Months.

(** ** The history window of the GoCardless sync: [Cmd::run] in
    [src/gocardless/src/sync.rs]

<<
        let end_date = Local::now().date_naive();
        let mut start_date = end_date - provider_config.history_days();
        if start_date.day() > 1 {
            start_date = start_date + Months::new(1);
            start_date = start_date - Days::new(start_date.day0().into());
        }
>>

    [today] is [Local::now().date_naive()].  The [-] and [+] operators of
    chrono panic where the checked versions return [None]; a panic is
    [None] here. *)

Module HistoryWindow.
Import Date.

(** [ProviderConfig::history_days]: [Days::new(self.history_days.unwrap_or(90))]. *)
Definition history_days (cfg_history_days : option N) : N :=
  match cfg_history_days with Some n => n | None => 90%N end.

Definition scan_range (today : NaiveDate) (hd : N) : option (NaiveDate * NaiveDate) :=
  let end_date := today in
  match sub_days end_date (N.to_nat hd) with
  | None => None
  | Some start_date =>
      if 1 <? day start_date then
        match add_months start_date 1 with
        | None => None
        | Some s1 =>
            match sub_days s1 (Z.to_nat (day s1 - 1)) with
            | None => None
            | Some s2 => Some (s2, end_date)
            end
        end
      else Some (start_date, end_date)
  end.

End HistoryWindow.

(** ** The job pool: [src/src/join_pool.rs]

    The state of one [JobPool::run] together with everything that can act on
    its channel while it runs.

    - A job is the future handed to [JobHandle::spawn]; the pool only sees
      its completion result, and the number of [JobHandle] clones the future
      owns (a job such as [sync_accounts] captures [handle.clone()]).  A job
      drops its handles when its future completes.
    - The channel is an unbounded mpsc channel: [queue] holds the jobs sent
      and not yet received, and it is closed once no sender is left.  The
      senders are the handles held outside the pool ([ext], the orchestrator's)
      and those owned by queued and by spawned jobs.
    - [tasks] is the [JoinSet]: tasks still running and finished tasks not
      yet reaped by [join_next].
    - [permits] is the semaphore created with [concurrency] permits; a
      spawned task holds one permit until its future completes. *)

Module Pool.
Local Open Scope nat_scope.

Inductive Outcome := JobOk | JobErr (e : nat) | JobPanicked.

Record Task := mkTask { t_handles : nat; t_done : option Outcome }.

Record World := mkWorld {
  ext : nat;
  queue : list nat;
  tasks : list Task;
  has_terminated : bool;
  concurrency : nat;
  permits : nat;
  rx_open : bool
}.

Definition senders (w : World) : nat :=
  ext w + list_sum (queue w) + list_sum (map t_handles (tasks w)).

Definition with_queue (w : World) (q : list nat) : World :=
  mkWorld (ext w) q (tasks w) (has_terminated w) (concurrency w) (permits w) (rx_open w).
Definition with_tasks (w : World) (ts : list Task) : World :=
  mkWorld (ext w) (queue w) ts (has_terminated w) (concurrency w) (permits w) (rx_open w).
Definition with_ext (w : World) (n : nat) : World :=
  mkWorld n (queue w) (tasks w) (has_terminated w) (concurrency w) (permits w) (rx_open w).
Definition with_permits (w : World) (n : nat) : World :=
  mkWorld (ext w) (queue w) (tasks w) (has_terminated w) (concurrency w) n (rx_open w).
Definition terminate (w : World) : World :=
  mkWorld (ext w) (queue w) (tasks w) true (concurrency w) (permits w) (rx_open w).

Fixpoint remove_nth {A} (i : nat) (l : list A) : list A :=
  match l, i with
  | [], _ => []
  | _ :: l', O => l'
  | x :: l', S i' => x :: remove_nth i' l'
  end.

Fixpoint set_nth {A} (i : nat) (v : A) (l : list A) : list A :=
  match l, i with
  | [], _ => []
  | _ :: l', O => v :: l'
  | x :: l', S i' => x :: set_nth i' v l'
  end.

(** A running task holds one permit. *)
Definition running (t : Task) : nat := match t_done t with None => 1 | Some _ => 0 end.

(** [JobPool::new(concurrency)]: the pool and one handle. *)
Definition new (c : nat) : World := mkWorld 1 [] [] false c c true.

(** [JobHandle::spawn]: fails once the pool's receiver is dropped. *)
Definition handle_spawn (w : World) (k : nat) : option World :=
  if rx_open w then Some (with_queue w (queue w ++ [k])) else None.

(** When [run] returns, [self] (the receiver) and the [JoinSet] (aborting
    the tasks still in it) are dropped. *)
Definition drop_pool (w : World) : World :=
  mkWorld (ext w) (queue w) [] (has_terminated w) (concurrency w) (permits w) false.

(** [JobPool::next_job]: acquire a permit, then receive.  [None] when the
    future is not ready (no permit, or an empty channel that is still open);
    on a closed and empty channel the permit is dropped again and
    [has_terminated] is set. *)
Definition next_job (w : World) : option (option nat * World) :=
  if permits w =? 0 then None else
  match queue w with
  | j :: q => Some (Some j, with_permits (with_queue w q) (permits w - 1))
  | [] => if senders w =? 0 then Some (None, terminate w) else None
  end.

Inductive RunError := TaskErr (e : nat) | JoinErr.
Inductive RunResult := RunOk | RunErr (err : RunError).

(** The branch of [tokio::select!] that completes. *)
Inductive Branch := PullJob | Reap (i : nat).

(** The outcome of one iteration of the loop of [JobPool::run]: the loop goes
    on with a new state, [run] returns, [select!] panics because both its
    branches are disabled, or the chosen branch is not ready. *)
Inductive Iter := Continue (w : World) | Return (r : RunResult) | Panic | Pending.

Definition iteration (w : World) (b : Branch) : Iter :=
  if has_terminated w && (List.length (tasks w) =? 0) then Return RunOk else
  let e1 := (List.length (tasks w) <? concurrency w) && negb (has_terminated w) in
  let e2 := negb (List.length (tasks w) =? 0) in
  if negb e1 && negb e2 then Panic else
  match b with
  | PullJob =>
      if e1 then
        match next_job w with
        | Some (Some j, w') => Continue (with_tasks w' (tasks w' ++ [mkTask j None]))
        | Some (None, w') => Continue w'
        | None => Pending
        end
      else Pending
  | Reap i =>
      if e2 then
        match nth_error (tasks w) i with
        | Some (mkTask _ (Some o)) =>
            let w' := with_tasks w (remove_nth i (tasks w)) in
            match o with
            | JobOk => Continue w'
            | JobErr e => Return (RunErr (TaskErr e))
            | JobPanicked => Return (RunErr JoinErr)
            end
        | _ => Pending
        end
      else Pending
  end.

(** What the rest of the program can do while [run] is waiting: a holder of
    a handle spawns a job (capturing [k] fresh clones), clones or drops a
    handle; a running task completes, dropping its handles and its permit. *)
Inductive env_step : World -> World -> Prop :=
  | ext_spawn w k w' : 0 < ext w -> handle_spawn w k = Some w' -> env_step w w'
  | ext_clone w : 0 < ext w -> env_step w (with_ext w (S (ext w)))
  | ext_drop w : 0 < ext w -> env_step w (with_ext w (ext w - 1))
  | task_spawn w i h k w' :
      nth_error (tasks w) i = Some (mkTask h None) -> 0 < h ->
      handle_spawn w k = Some w' -> env_step w w'
  | task_clone w i h :
      nth_error (tasks w) i = Some (mkTask h None) -> 0 < h ->
      env_step w (with_tasks w (set_nth i (mkTask (S h) None) (tasks w)))
  | task_drop w i h :
      nth_error (tasks w) i = Some (mkTask h None) -> 0 < h ->
      env_step w (with_tasks w (set_nth i (mkTask (h - 1) None) (tasks w)))
  | task_finish w i h o :
      nth_error (tasks w) i = Some (mkTask h None) ->
      env_step w (with_permits (with_tasks w (set_nth i (mkTask 0 (Some o)) (tasks w)))
                               (S (permits w))).

(** The states of a run of a pool created by [JobPool::new(c)], while [run]
    has not returned. *)
Inductive reachable : World -> Prop :=
  | reach_new c : reachable (new c)
  | reach_env w w' : reachable w -> env_step w w' -> reachable w'
  | reach_iter w b w' : reachable w -> iteration w b = Continue w' -> reachable w'.

End Pool.

(** ** Paths and files

    A path is the list of its components; an absolute path starts with the
    component ["/"].  Relative paths are resolved against the working
    directory of the process, and a ["."] component names the directory it is
    in.  The file system maps resolved paths to file contents; directories
    are not tracked ([create_dir_all] does not change file contents). *)

Module Fs.

Definition Path := list string.

Definition path_eqb (p q : Path) : bool :=
  if list_eq_dec string_dec p q then true else false.

(** [Path::join] with one component. *)
Definition join (p : Path) (c : string) : Path := p ++ [c].

(** [Path::parent]: [None] for the empty path and the root; the parent of a
    single relative component is the empty path. *)
Definition parent (p : Path) : option Path :=
  match p with
  | [] => None
  | [c] => if String.eqb c "/" then None else Some []
  | _ => Some (removelast p)
  end.

Definition resolve (cwd p : Path) : Path :=
  let p' := filter (fun c => negb (String.eqb c ".")) p in
  match p' with
  | c :: _ => if String.eqb c "/" then p' else cwd ++ p'
  | [] => cwd
  end.

Definition FsState := Path -> option string.

Definition upd (fs : FsState) (p : Path) (v : option string) : FsState :=
  fun q => if path_eqb q p then v else fs q.

(** The system calls the stores issue. *)
Inductive FsOp :=
  | OpCreate (p : Path)          (* open with [O_CREAT | O_TRUNC]: the file is empty *)
  | OpAppend (p : Path) (s : string)   (* one [write] at the end of the file *)
  | OpFlush (p : Path)
  | OpRename (src dst : Path)    (* [rename(2)]: replaces [dst] in one step *)
  | OpRemove (p : Path)
  | OpMkdirAll (d : Path).

Definition apply_op (cwd : Path) (fs : FsState) (op : FsOp) : FsState :=
  match op with
  | OpCreate p => upd fs (resolve cwd p) (Some ""%string)
  | OpAppend p s =>
      let q := resolve cwd p in
      upd fs q (Some (String.append (match fs q with Some c => c | None => ""%string end) s))
  | OpFlush _ => fs
  | OpRename a b =>
      let qa := resolve cwd a in
      let qb := resolve cwd b in
      if path_eqb qa qb then fs else upd (upd fs qa None) qb (fs qa)
  | OpRemove p => upd fs (resolve cwd p) None
  | OpMkdirAll _ => fs
  end.

Fixpoint run_ops (cwd : Path) (fs : FsState) (ops : list FsOp) : FsState :=
  match ops with
  | [] => fs
  | op :: ops' => run_ops cwd (apply_op cwd fs op) ops'
  end.

(** How one system call ends: it succeeds, or it fails; a [write_all]
    that fails has written the first [k] bytes of its buffer. *)
Inductive IoResult := IoOk | IoErr (k : nat).

(** The outcomes of the successive system calls of one store, numbered
    from [0]. *)
Definition Io := nat -> IoResult.

Definition no_faults : Io := fun _ => IoOk.

(** The outcomes where only call [n] fails, before writing anything. *)
Definition fail_at (n : nat) : Io := fun k => if Nat.eqb k n then IoErr 0 else IoOk.

Definition io_ok (r : IoResult) : bool := match r with IoOk => true | IoErr _ => false end.

(** What a reader of [p] can see: its contents before the first operation
    and after each one. *)
Fixpoint observe (cwd : Path) (fs : FsState) (ops : list FsOp) (p : Path)
  : list (option string) :=
  match ops with
  | [] => [fs (resolve cwd p)]
  | op :: ops' => fs (resolve cwd p) :: observe cwd (apply_op cwd fs op) ops' p
  end.

End Fs.

(** ** The stores

    The serialised payload is given as a string; [NamedTempFile::new_in(dir)]
    creates [dir/tmp] for a fresh name [tmp]. *)

Module Store.
Import Fs.

(** GoCardless [store_token]: [tokio::fs::write(path, buf)] opens the token
    file with truncation and writes the buffer into it. *)
Definition store_token (path : Path) (buf : string) : list FsOp :=
  [OpCreate path; OpAppend path buf].

(** TrueLayer [Authenticator::write_auth_data]: [NamedTempFile::new_in(".")],
    [to_writer_pretty], [flush], [persist(&token_path)]. *)
Definition write_auth_data_dir (token_path : Path) : Path := ["."%string].

Definition write_auth_data (tmp : string) (token_path : Path) (buf : string) : list FsOp :=
  let t := join (write_auth_data_dir token_path) tmp in
  [OpCreate t; OpAppend t buf; OpFlush t; OpRename t token_path].

(** GoCardless [ProviderConfig::write_state]: the temp file goes to
    [path.parent().unwrap_or(".")]. *)
Definition write_state_dir (path : Path) : Path :=
  match parent path with Some d => d | None => ["."%string] end.

(** The calls of [write_state]: [NamedTempFile::new_in] (call [0]), the
    writes of [to_writer_pretty] (call [1]; a failed one leaves a prefix of
    the buffer), [flush] (a no-op for a [File]) and [persist] (call [2]).
    On an error before [persist] the dropped [NamedTempFile] removes its
    file; a failed [persist] hands the temp file back inside the error, so
    it still exists when [write_state] returns.  [true] for [Ok]. *)
Definition write_state (io : Io) (tmp : string) (path : Path) (buf : string) : bool * list FsOp :=
  let t := join (write_state_dir path) tmp in
  match io 0%nat with
  | IoErr _ => (false, [])
  | IoOk =>
      match io 1%nat with
      | IoErr k => (false, [OpCreate t; OpAppend t (substring 0 k buf); OpRemove t])
      | IoOk =>
          match io 2%nat with
          | IoErr _ => (false, [OpCreate t; OpAppend t buf; OpFlush t])
          | IoOk => (true, [OpCreate t; OpAppend t buf; OpFlush t; OpRename t path])
          end
      end
  end.

Inductive JobResult := JOk | JErr | JPanic.

Definition newline : ascii := Ascii.ascii_of_nat 10.

Definition has_newline (s : string) : bool :=
  existsb (fun c => Ascii.eqb c newline) (list_ascii_of_string s).

(** [write_all] of [s] to [t]; [false] for an error. *)
Definition write_all (r : IoResult) (t : Path) (s : string) : bool * list FsOp :=
  match r with
  | IoOk => (true, [OpAppend t s])
  | IoErr k => (false, [OpAppend t (substring 0 k s)])
  end.

(** The loop of [write_jsons_atomically] from call [n] on: each item
    (already serialised by [serde_json::to_writer]) is checked by the
    [assert!], then written (call [n]), followed by a newline (call
    [n + 1]).  [JPanic] when the assertion fails, [JErr] on the first
    failed write. *)
Fixpoint write_lines (io : Io) (n : nat) (t : Path) (items : list string) : JobResult * list FsOp :=
  match items with
  | [] => (JOk, [])
  | it :: rest =>
      if has_newline it then (JPanic, []) else
      match write_all (io n) t it with
      | (false, ops1) => (JErr, ops1)
      | (true, ops1) =>
          match write_all (io (S n)) t (String newline EmptyString) with
          | (false, ops2) => (JErr, ops1 ++ ops2)
          | (true, ops2) =>
              let '(r, ops) := write_lines io (S (S n)) t rest in (r, ops1 ++ ops2 ++ ops)
          end
      end
  end.

(** [write_jsons_atomically] ([src/src/sync.rs]): the temp file goes to
    [path.parent().unwrap_or(".")].  Its calls: [create_dir_all] (call
    [0]), [NamedTempFile::new_in] (call [1]), two writes per item (calls
    [2] on), [flush] (a no-op for a [File]), [persist] (the last call).  On
    a panic or an error before [persist] the [NamedTempFile] is dropped and
    removes its file; a failed [persist] hands the temp file back inside
    the error, so it still exists when the function returns. *)
Definition write_jsons_dir (path : Path) : Path :=
  match parent path with Some d => d | None => ["."%string] end.

Definition write_jsons_atomically (io : Io) (tmp : string) (path : Path) (items : list string)
  : JobResult * list FsOp :=
  let dir := write_jsons_dir path in
  let t := join dir tmp in
  match io 0%nat with
  | IoErr _ => (JErr, [])
  | IoOk =>
      match io 1%nat with
      | IoErr _ => (JErr, [OpMkdirAll dir])
      | IoOk =>
          match write_lines io 2 t items with
          | (JOk, ops) =>
              match io (2 + 2 * List.length items)%nat with
              | IoOk => (JOk, [OpMkdirAll dir; OpCreate t] ++ ops ++ [OpFlush t; OpRename t path])
              | IoErr _ => (JErr, [OpMkdirAll dir; OpCreate t] ++ ops ++ [OpFlush t])
              end
          | (r, ops) => (r, [OpMkdirAll dir; OpCreate t] ++ ops ++ [OpRemove t])
          end
      end
  end.

(** The file contents [write_jsons_atomically] produces: one line per item. *)
Definition jsons (items : list string) : string :=
  fold_right (fun it acc => String.append it (String newline acc)) EmptyString items.

End Store.

(** ** The per-account jobs of [src/src/sync.rs] *)

Module SyncJobs.
Import Date Fs Store.

Record AccountsResult := mkAccount {
  account_id : string;
  sort_code : option string;
  number : option string
}.

(** [account_dir_name]: ["{sort_code} {number}"] when both are known,
    otherwise the account id. *)
Definition account_dir_name (a : AccountsResult) : string :=
  match sort_code a, number a with
  | Some sc, Some n => String.append sc (String.append " " n)
  | _, _ => account_id a
  end.

(** Decimal digits of a non-negative integer below [10^20]. *)
Fixpoint dec_aux (fuel : nat) (n : Z) (acc : string) : string :=
  match fuel with
  | O => acc
  | S f =>
      let acc' := String (Ascii.ascii_of_nat (48 + Z.to_nat (n mod 10))) acc in
      if n <? 10 then acc' else dec_aux f (n / 10) acc'
  end.

Definition dec (n : Z) : string := dec_aux 20 n EmptyString.

Fixpoint zeros (k : nat) : string :=
  match k with O => EmptyString | S k' => String "0" (zeros k') end.

(** Rust's zero padding to a width ([{:0w}] of a non-negative number). *)
Definition pad_zero (w : nat) (s : string) : string :=
  String.append (zeros (w - String.length s)) s.

(** chrono's [%Y]: four zero-padded digits for years [0..=9999], otherwise
    [{:+05}]. *)
Definition fmt_Y (y : Z) : string :=
  if (0 <=? y) && (y <? 10000) then pad_zero 4 (dec y)
  else String (if y <? 0 then "-" else "+") (pad_zero 4 (dec (Z.abs y))).

(** chrono's [%m]: two zero-padded digits. *)
Definition fmt_m (m : Z) : string := pad_zero 2 (dec m).

(** [month.start().format("%Y-%m.jsons")]. *)
Definition ym_name (d : NaiveDate) : string :=
  String.append (fmt_Y (year d)) (String.append "-" (String.append (fmt_m (month d)) ".jsons")).

Definition account_file (target : Path) (a : AccountsResult) (name : string) : Path :=
  join (join (join target "accounts") (account_dir_name a)) name.

(** [account_standing_orders]: [resp] is the upstream answer ([None] for an
    error), its results already serialised; [io] the outcomes of the calls
    of [write_jsons_atomically]. *)
Definition account_standing_orders (io : Io) (tmp : string) (target : Path) (a : AccountsResult)
    (resp : option (list string)) : JobResult * list FsOp :=
  match resp with
  | None => (JErr, [])
  | Some rs => write_jsons_atomically io tmp (account_file target a "standing-orders.jsons") rs
  end.

(** [account_direct_debits]. *)
Definition account_direct_debits (io : Io) (tmp : string) (target : Path) (a : AccountsResult)
    (resp : option (list string)) : JobResult * list FsOp :=
  match resp with
  | None => (JErr, [])
  | Some rs => write_jsons_atomically io tmp (account_file target a "standing-orders.jsons") rs
  end.

Definition tx_path (target : Path) (a : AccountsResult) (m : NaiveDate * NaiveDate) : Path :=
  account_file target a (ym_name (fst m)).

(** [account_tx]: fetch the month, return early on an empty result, reverse
    the results and write them. *)
Definition account_tx (io : Io) (tmp : string) (target : Path) (a : AccountsResult)
    (m : NaiveDate * NaiveDate) (resp : option (list string)) : JobResult * list FsOp :=
  match resp with
  | None => (JErr, [])
  | Some [] => (JOk, [])
  | Some txes => write_jsons_atomically io tmp (tx_path target a m) (rev txes)
  end.

End SyncJobs.

(** ** Tokens of the GoCardless client ([src/gocardless/src/auth.rs])

    Instants are seconds since the epoch.  The JSON encoding of a [Token]
    round-trips through [serde_json], so a token file is modelled by the
    token it holds. *)

Module GcAuth.

Record Token := mkToken {
  access : string;
  access_expires : Z;
  refresh : string;
  refresh_expires : Z
}.

Record TokenRefreshResp := mkRefreshResp {
  resp_access : string;
  resp_access_expires : Z
}.

(** chrono's [TimeDelta] holds whole seconds up to [i64::MAX / 1000] in
    magnitude; [try_seconds] is [None] outside, [seconds] panics there. *)
Definition MAX_SECS : Z := 9223372036854775.

Definition try_seconds (s : Z) : option Z :=
  if (- MAX_SECS <=? s) && (s <=? MAX_SECS) then Some s else None.

(** The days from 1970-01-01 to a day of the proleptic Gregorian calendar
    (with [Z.div] rounding down, so for every year). *)
Definition days_from_civil (y m d : Z) : Z :=
  let y' := if m <=? 2 then y - 1 else y in
  let era := y' / 400 in
  let yoe := y' - era * 400 in
  let doy := (153 * (if 2 <? m then m - 3 else m + 9) + 2) / 5 + d - 1 in
  let doe := yoe * 365 + yoe / 4 - yoe / 100 + doy in
  era * 146097 + doe - 719468.

(** A [DateTime<Utc>] lies between the first second of [NaiveDate::MIN]
    and the last second of [NaiveDate::MAX]. *)
Definition MIN_INSTANT : Z := days_from_civil Date.MIN_YEAR 1 1 * 86400.
Definition MAX_INSTANT : Z := days_from_civil Date.MAX_YEAR 12 31 * 86400 + 86399.

(** [DateTime + TimeDelta]; [None] where it panics, when the sum leaves
    that range. *)
Definition add_instant (t d : Z) : option Z :=
  if (MIN_INSTANT <=? t + d) && (t + d <=? MAX_INSTANT) then Some (t + d) else None.

(** [Token::refreshed]; [None] where [Duration::seconds] or the addition
    panics. *)
Definition refreshed (self : Token) (authed_at : Z) (r : TokenRefreshResp) : option Token :=
  match try_seconds (resp_access_expires r) with
  | None => None
  | Some d =>
      match add_instant authed_at d with
      | None => None
      | Some e => Some (mkToken (resp_access r) e (refresh self) (refresh_expires self))
      end
  end.

(** The token file: absent, not a token (e.g. cut short by a failed write),
    or holding a token. *)
Inductive TokenFile := Missing | Garbled | Holds (t : Token).

(** How a [tokio::fs::write] ends: it succeeds, fails before truncating the
    file (e.g. on [open]), or fails after. *)
Inductive WriteOutcome := WOk | WFailUntouched | WFailTruncated.

(** [store_token]; [None] on an error. *)
Definition store_token (file : TokenFile) (tok : Token) (wr : WriteOutcome)
  : option unit * TokenFile :=
  match wr with
  | WOk => (Some tt, Holds tok)
  | WFailUntouched => (None, file)
  | WFailTruncated => (None, Garbled)
  end.

(** [load_token(path)]: [now] is the clock reading of [load_token],
    [authed_at] the one of [refresh_token], [upstream] the answer to the
    refresh request ([None] for an error), [wr] the outcome of the store.
    The result is [None] on an error or a panic. *)
Definition load_token (file : TokenFile) (now authed_at : Z)
    (upstream : option TokenRefreshResp) (wr : WriteOutcome)
  : option (option Token) * TokenFile :=
  match file with
  | Missing => (Some None, file)
  | Garbled => (None, file)
  | Holds tok =>
      if access_expires tok <=? now then
        match upstream with
        | None => (None, file)
        | Some r =>
            match refreshed tok authed_at r with
            | None => (None, file)
            | Some tok' =>
                match store_token file tok' wr with
                | (Some _, file') => (Some (Some tok'), file')
                | (None, file') => (None, file')
                end
            end
        end
      else (Some (Some tok), file)
  end.

End GcAuth.

(** ** The authenticator of the TrueLayer client
    ([src/src/client/authentication.rs])

    The token file is modelled by the [AuthData] it holds ([None]: missing
    or unreadable).  [Authenticator::access_token] holds the [tokio] mutex
    around the cache from its first line to its return, across the awaits on
    reading the file, on the refresh request and on the write; other callers
    wait at [lock().await].  A run is a sequence of actions of two callers,
    each carrying what the world answers: the clock reading taken right after
    the lock, the upstream answer to the refresh request ([None] for an
    error), whether [write_auth_data] succeeds.  A refresh counts one call
    of [refresh_access_token], i.e. one refresh sent upstream. *)

Module TlAuth.
Import GcAuth.

Record AuthData := mkAuthData {
  access_token : string;
  expires_at : Z;
  token_type : string;
  refresh_token : string;
  scope : option string;
  redirect_uri : string;
  authed_at : option Z
}.

Record FetchAccessTokenResponse := mkResponse {
  r_access_token : string;
  expires_in : Z;
  r_token_type : string;
  r_refresh_token : string;
  r_scope : option string
}.

(** [AuthData::update_from_response]; [None] for an invalid [expires_in]
    (an error) and where [fetched_at + expires_in] leaves the range of
    [DateTime<Utc>] (a panic). *)
Definition update_from_response (self : AuthData) (r : FetchAccessTokenResponse)
    (fetched_at : Z) (redirect_uri : string) : option AuthData :=
  match try_seconds (expires_in r) with
  | None => None
  | Some d =>
      match add_instant fetched_at d with
      | None => None
      | Some e =>
          Some (mkAuthData (r_access_token r) e (r_token_type r)
                  (r_refresh_token r) (r_scope r) redirect_uri (authed_at self))
      end
  end.

Definition is_expired (d : AuthData) (now : Z) : bool := expires_at d <=? now.

(** [read_auth_data]: the file parses back to what was written. *)
Definition read_auth_data (file : option AuthData) : option AuthData := file.

Inductive Tid := TA | TB.

Definition tid_eqb (t u : Tid) : bool :=
  match t, u with TA, TA | TB, TB => true | _, _ => false end.

(** Where a call of [access_token] is: waiting for the lock, holding it
    before reading the file, before the refresh request, before the write;
    or returned ([None] for an error). *)
Inductive Pc :=
  | PStart
  | PRead (now : Z)
  | PRefresh (now : Z) (d : AuthData)
  | PWrite (d : AuthData)
  | PDone (r : option string).

Record AState := mkAState {
  cache : option AuthData;
  file : option AuthData;
  lock : option Tid;
  pc_a : Pc;
  pc_b : Pc;
  refreshes : nat
}.

Definition get_pc (s : AState) (t : Tid) : Pc :=
  match t with TA => pc_a s | TB => pc_b s end.

Definition set_pc (s : AState) (t : Tid) (p : Pc) : AState :=
  match t with
  | TA => mkAState (cache s) (file s) (lock s) p (pc_b s) (refreshes s)
  | TB => mkAState (cache s) (file s) (lock s) (pc_a s) p (refreshes s)
  end.

Definition with_lock (s : AState) (l : option Tid) : AState :=
  mkAState (cache s) (file s) l (pc_a s) (pc_b s) (refreshes s).
Definition with_cache (s : AState) (c : option AuthData) : AState :=
  mkAState c (file s) (lock s) (pc_a s) (pc_b s) (refreshes s).
Definition with_file (s : AState) (f : option AuthData) : AState :=
  mkAState (cache s) f (lock s) (pc_a s) (pc_b s) (refreshes s).
Definition bump (s : AState) : AState :=
  mkAState (cache s) (file s) (lock s) (pc_a s) (pc_b s) (S (refreshes s)).

(** Returning drops the guard. *)
Definition finish (s : AState) (t : Tid) (r : option string) : AState :=
  set_pc (with_lock s None) t (PDone r).

Definition holds_lock (s : AState) (t : Tid) : bool :=
  match lock s with Some u => tid_eqb t u | None => false end.

Inductive Action :=
  | Acquire (t : Tid) (now : Z)
  | ReadFile (t : Tid)
  | Refresh (t : Tid) (resp : option FetchAccessTokenResponse)
  | WriteFile (t : Tid) (ok : bool).

(** One step of [access_token]; [None] when the action is not possible
    (the caller is elsewhere, or the lock is taken). *)
Definition step (s : AState) (a : Action) : option AState :=
  match a with
  | Acquire t now =>
      match get_pc s t, lock s with
      | PStart, None =>
          match cache s with
          | Some d =>
              if is_expired d now then Some (set_pc (with_lock s (Some t)) t (PRead now))
              else Some (set_pc s t (PDone (Some (access_token d))))
          | None => Some (set_pc (with_lock s (Some t)) t (PRead now))
          end
      | _, _ => None
      end
  | ReadFile t =>
      if holds_lock s t then
        match get_pc s t with
        | PRead now =>
            match read_auth_data (file s) with
            | None => Some (finish s t None)
            | Some d =>
                if is_expired d now then Some (set_pc s t (PRefresh now d))
                else Some (finish (with_cache s (Some d)) t (Some (access_token d)))
            end
        | _ => None
        end
      else None
  | Refresh t resp =>
      if holds_lock s t then
        match get_pc s t with
        | PRefresh now d =>
            let s1 := bump s in
            match resp with
            | None => Some (finish s1 t None)
            | Some r =>
                match update_from_response d r now (redirect_uri d) with
                | None => Some (finish s1 t None)
                | Some nd => Some (set_pc s1 t (PWrite nd))
                end
            end
        | _ => None
        end
      else None
  | WriteFile t ok =>
      if holds_lock s t then
        match get_pc s t with
        | PWrite nd =>
            if ok then Some (finish (with_cache (with_file s (Some nd)) (Some nd)) t
                               (Some (access_token nd)))
            else Some (finish s t None)
        | _ => None
        end
      else None
  end.

Fixpoint run_trace (s : AState) (l : list Action) : option AState :=
  match l with
  | [] => Some s
  | a :: l' => match step s a with Some s' => run_trace s' l' | None => None end
  end.



(** Two callers that have not started yet. *)
Definition init (c f : option AuthData) : AState := mkAState c f None PStart PStart 0.

End TlAuth.

(** ** The other jobs of [src/src/sync.rs] *)

Module SyncMore.
Import Date Months Fs Store SyncJobs.

(** [account_balance] and [account_pending]: fetch, then write all results
    ([resp] is [None] for an upstream error). *)
Definition account_balance (io : Io) (tmp : string) (target : Path) (a : AccountsResult)
    (resp : option (list string)) : JobResult * list FsOp :=
  match resp with
  | None => (JErr, [])
  | Some rs => write_jsons_atomically io tmp (account_file target a "balance.jsons") rs
  end.

Definition account_pending (io : Io) (tmp : string) (target : Path) (a : AccountsResult)
    (resp : option (list string)) : JobResult * list FsOp :=
  match resp with
  | None => (JErr, [])
  | Some rs => write_jsons_atomically io tmp (account_file target a "pending.jsons") rs
  end.

(** The files of a card live under [cards/<account_id>]. *)
Definition card_file (target : Path) (account_id : string) (name : string) : Path :=
  join (join (join target "cards") account_id) name.

Definition card_balance (io : Io) (tmp : string) (target : Path) (account_id : string)
    (resp : option (list string)) : JobResult * list FsOp :=
  match resp with
  | None => (JErr, [])
  | Some rs => write_jsons_atomically io tmp (card_file target account_id "balance.jsons") rs
  end.

Definition card_pending (io : Io) (tmp : string) (target : Path) (account_id : string)
    (resp : option (list string)) : JobResult * list FsOp :=
  match resp with
  | None => (JErr, [])
  | Some rs => write_jsons_atomically io tmp (card_file target account_id "pending.jsons") rs
  end.

(** [card_tx]: as [account_tx], under the card's directory. *)
Definition card_tx (io : Io) (tmp : string) (target : Path) (account_id : string)
    (m : NaiveDate * NaiveDate) (resp : option (list string)) : JobResult * list FsOp :=
  match resp with
  | None => (JErr, [])
  | Some [] => (JOk, [])
  | Some txes => write_jsons_atomically io tmp (card_file target account_id (ym_name (fst m))) (rev txes)
  end.

(** The jobs [account] and [card] hand to the pool. *)
Inductive SyncJob :=
  | JAccountBalance (a : AccountsResult)
  | JAccountPending (a : AccountsResult)
  | JAccountTx (a : AccountsResult) (m : NaiveDate * NaiveDate)
  | JAccountStandingOrders (a : AccountsResult)
  | JAccountDirectDebits (a : AccountsResult)
  | JCardBalance (id : string)
  | JCardPending (id : string)
  | JCardTx (id : string) (m : NaiveDate * NaiveDate).

(** [account]: spawn the balance and pending jobs, one transaction job per
    month of the period, and (under [if false]) the standing-orders and
    direct-debits jobs.  [None] when [months] panics.  The pool is still
    receiving while the sync runs, so [JobHandle::spawn] succeeds. *)
Definition account (a : AccountsResult) (start end_ : NaiveDate) : option (list SyncJob) :=
  match months start end_ with
  | None => None
  | Some ms =>
      Some ([JAccountBalance a; JAccountPending a] ++ map (JAccountTx a) ms ++
            (if false then [JAccountStandingOrders a; JAccountDirectDebits a] else []))
  end.

(** [card]: the same for a card, keyed by its account id. *)
Definition card (id : string) (start end_ : NaiveDate) : option (list SyncJob) :=
  match months start end_ with
  | None => None
  | Some ms => Some ([JCardBalance id; JCardPending id] ++ map (JCardTx id) ms)
  end.

(** The loop of [sync_accounts] (and of [sync_cards]) over the fetched
    accounts: the jobs of each in turn; [None] on the first panic. *)
Fixpoint spawn_each {A} (f : A -> option (list SyncJob)) (l : list A) : option (list SyncJob) :=
  match l with
  | [] => Some []
  | x :: l' =>
      match f x with
      | None => None
      | Some js => option_map (app js) (spawn_each f l')
      end
  end.

Definition sync_accounts (accounts : list AccountsResult) (start end_ : NaiveDate)
  : option (list SyncJob) :=
  spawn_each (fun a => account a start end_) accounts.

(** The loop of [sync_cards]: the jobs of each card, keyed by its account id. *)
Definition sync_cards (card_ids : list string) (start end_ : NaiveDate) : option (list SyncJob) :=
  spawn_each (fun id => card id start end_) card_ids.

End SyncMore.

(** ** Decimal digits

    Reading back a string of decimal digits, used to show that chrono's
    [%Y] and [%m] are injective. *)

Module Digits.

Definition is_digit (c : ascii) : bool :=
  (48 <=? nat_of_ascii c)%nat && (nat_of_ascii c <=? 57)%nat.

Fixpoint all_digits (s : string) : bool :=
  match s with
  | EmptyString => true
  | String c s' => is_digit c && all_digits s'
  end.

(** The value of a digit string, read from the left after [acc]. *)
Fixpoint dval (acc : Z) (s : string) : Z :=
  match s with
  | EmptyString => acc
  | String c s' => dval (acc * 10 + (Z.of_nat (nat_of_ascii c) - 48)) s'
  end.

End Digits.

(** ** [AuthArgs::load_token] and [Token::from_token_pair] of the
    GoCardless client ([src/gocardless/src/auth.rs]) *)

Module GcAuthArgs.
Import GcAuth.

Record TokenPair := mkPair {
  p_access : string;
  p_access_expires : Z;
  p_refresh : string;
  p_refresh_expires : Z
}.

(** [Token::from_token_pair]; [None] where [Duration::seconds] or one of
    the additions panics. *)
Definition from_token_pair (authed_at : Z) (p : TokenPair) : option Token :=
  match try_seconds (p_access_expires p) with
  | None => None
  | Some a =>
      match add_instant authed_at a with
      | None => None
      | Some ae =>
          match try_seconds (p_refresh_expires p) with
          | None => None
          | Some r =>
              match add_instant authed_at r with
              | None => None
              | Some re => Some (mkToken (p_access p) ae (p_refresh p) re)
              end
          end
      end
  end.

(** [AuthArgs::load_token]: [authed_at] is its own clock reading, [now],
    [refreshed_at], [upstream] and [wr] are those of the call of the free
    [load_token] (see [GcAuth.load_token]), [secrets_ok] whether the secrets
    file reads and parses, [pair] the answer to the request for new tokens
    ([None] for an error), [wr_new] the outcome of storing the new token.
    The result is [None] on an error or a panic. *)
Definition args_load_token (file : TokenFile) (authed_at now refreshed_at : Z)
    (upstream : option TokenRefreshResp) (wr : WriteOutcome)
    (secrets_ok : bool) (pair : option TokenPair) (wr_new : WriteOutcome)
  : option Token * TokenFile :=
  let authenticate (f : TokenFile) : option Token * TokenFile :=
    if secrets_ok then
      match pair with
      | None => (None, f)
      | Some p =>
          match from_token_pair authed_at p with
          | None => (None, f)
          | Some tok =>
              match store_token f tok wr_new with
              | (Some _, f') => (Some tok, f')
              | (None, f') => (None, f')
              end
          end
      end
    else (None, f) in
  match load_token file now refreshed_at upstream wr with
  | (None, f) => (None, f)
  | (Some (Some tok), f) =>
      if authed_at <=? refresh_expires tok then (Some tok, f) else authenticate f
  | (Some None, f) => authenticate f
  end.

End GcAuthArgs.

(** ** [Authenticator::authenticate] and [AuthData::from_response] of the
    TrueLayer client ([src/src/client/authentication.rs]) *)

Module TlAuthMore.
Import GcAuth TlAuth.

(** [AuthData::from_response]; [None] for an invalid [expires_in] (an
    error) and where the addition panics. *)
Definition from_response (r : FetchAccessTokenResponse) (fetched_at : Z) (redirect_uri : string)
  : option AuthData :=
  match try_seconds (expires_in r) with
  | None => None
  | Some d =>
      match add_instant fetched_at d with
      | None => None
      | Some e =>
          Some (mkAuthData (r_access_token r) e (r_token_type r)
                  (r_refresh_token r) (r_scope r) redirect_uri None)
      end
  end.

(** [authenticate]: [resp] is the answer to the token request ([None] for
    an error), [write_ok] whether [write_auth_data] succeeds (when it fails,
    the rename did not happen and the token file is unchanged).  Returns
    the result and the token file. *)
Definition authenticate (file : option AuthData) (fetched_at : Z)
    (resp : option FetchAccessTokenResponse) (redirect : string) (write_ok : bool)
  : option unit * option AuthData :=
  match resp with
  | None => (None, file)
  | Some r =>
      match from_response r fetched_at redirect with
      | None => (None, file)
      | Some st =>
          let state := mkAuthData (access_token st) (expires_at st) (token_type st)
                         (refresh_token st) (scope st) (redirect_uri st) (Some fetched_at) in
          if write_ok then (Some tt, Some state) else (None, file)
      end
  end.

(** Successive refreshes of [refresh_access_token]: each answer with the
    clock reading it was requested at; [None] as soon as one is rejected. *)
Fixpoint refresh_chain (d : AuthData) (l : list (FetchAccessTokenResponse * Z)) : option AuthData :=
  match l with
  | [] => Some d
  | (r, at_) :: l' =>
      match update_from_response d r at_ (redirect_uri d) with
      | None => None
      | Some d' => refresh_chain d' l'
      end
  end.

End TlAuthMore.

(** ** [list_account] of the GoCardless sync ([src/gocardless/src/sync.rs])

    A transaction carries its three optional dates (the booking time as its
    UTC date, [date_naive()]) and its JSON body.  The [HashMap] [by_month]
    is an association list in the order its keys were first inserted; the
    files written do not depend on the iteration order, since their names
    are distinct. *)

Module GcListAccount.
Import Date Fs Store SyncJobs.

Record GcTransaction := mkGcTx {
  booking_date : option NaiveDate;
  booking_date_time : option NaiveDate;
  value_date : option NaiveDate;
  tx_body : string
}.

(** [booking_date.or(booking_date_time.map(|dt| dt.date_naive())).or(value_date)] *)
Definition tx_date (t : GcTransaction) : option NaiveDate :=
  match booking_date t with
  | Some d => Some d
  | None => match booking_date_time t with Some d => Some d | None => value_date t end
  end.

(** [date.map(|d| d.with_day(1).expect("valid date"))]; the outer [None] is
    the panic. *)
Definition start_of_month (t : GcTransaction) : option (option NaiveDate) :=
  match tx_date t with
  | None => Some None
  | Some d => match with_day d 1 with Some m => Some (Some m) | None => None end
  end.

Definition date_eqb (a b : NaiveDate) : bool :=
  (year a =? year b) && (month a =? month b) && (day a =? day b).

Definition key_eqb (a b : option NaiveDate) : bool :=
  match a, b with
  | Some x, Some y => date_eqb x y
  | None, None => true
  | _, _ => false
  end.

(** The value of [by_month]: the booked and the pending transactions. *)
Definition Group : Type := list GcTransaction * list GcTransaction.

Definition ByMonth : Type := list (option NaiveDate * Group).

(** [by_month.entry(k).or_default().transactions.booked.push(t)] *)
Fixpoint push_booked (k : option NaiveDate) (t : GcTransaction) (m : ByMonth) : ByMonth :=
  match m with
  | [] => [(k, ([t], []))]
  | (k', (b, p)) :: m' =>
      if key_eqb k k' then (k', (b ++ [t], p)) :: m' else (k', (b, p)) :: push_booked k t m'
  end.

(** [... .transactions.pending.push(t)] *)
Fixpoint push_pending (k : option NaiveDate) (t : GcTransaction) (m : ByMonth) : ByMonth :=
  match m with
  | [] => [(k, ([], [t]))]
  | (k', (b, p)) :: m' =>
      if key_eqb k k' then (k', (b, p ++ [t])) :: m' else (k', (b, p)) :: push_pending k t m'
  end.

Fixpoint group_booked (m : ByMonth) (l : list GcTransaction) : option ByMonth :=
  match l with
  | [] => Some m
  | t :: l' =>
      match start_of_month t with
      | None => None
      | Some k => group_booked (push_booked k t m) l'
      end
  end.

Fixpoint group_pending (m : ByMonth) (l : list GcTransaction) : option ByMonth :=
  match l with
  | [] => Some m
  | t :: l' =>
      match start_of_month t with
      | None => None
      | Some k => group_pending (push_pending k t m) l'
      end
  end.

(** The two loops of [list_account] filling [by_month]. *)
Definition by_month (booked pending : list GcTransaction) : option ByMonth :=
  match group_booked [] booked with
  | None => None
  | Some m => group_pending m pending
  end.

(** [month.map(|month| month.format("%Y-%m.json").to_string())
        .unwrap_or_else(|| "undated.json".to_owned())] *)
Definition month_file_name (k : option NaiveDate) : string :=
  match k with
  | Some m => String.append (fmt_Y (year m)) (String.append "-" (String.append (fmt_m (month m)) ".json"))
  | None => "undated.json"
  end.

(** [Cmd::write_file]: [create_dir_all] of the parent when there is one
    (call [0]), [File::create], which truncates the file (call [1]),
    [write_all] of the pretty-printed JSON (call [2]) and [flush] (call
    [3]).  A tokio [File] may still be writing in the background when
    [write_all] returns, and [flush] reports the failure of that write: a
    failed [write_all] or [flush] leaves a prefix of the buffer in the
    file.  [true] for [Ok]. *)
Definition write_file (io : Io) (path : Path) (buf : string) : bool * list FsOp :=
  let mk := match parent path with Some d => [OpMkdirAll d] | None => [] end in
  match (match parent path with Some _ => io 0%nat | None => IoOk end) with
  | IoErr _ => (false, [])
  | IoOk =>
      match io 1%nat with
      | IoErr _ => (false, mk)
      | IoOk =>
          match io 2%nat with
          | IoErr k => (false, mk ++ [OpCreate path; OpAppend path (substring 0 k buf)])
          | IoOk =>
              match io 3%nat with
              | IoErr k => (false, mk ++ [OpCreate path; OpAppend path (substring 0 k buf)])
              | IoOk => (true, mk ++ [OpCreate path; OpAppend path buf; OpFlush path])
              end
          end
      end
  end.

(** The loop over [by_month]: the [n]-th file written uses [io n]; it stops
    at the first error. *)
Fixpoint write_files (io : nat -> Io) (n : nat) (files : list (Path * string)) : bool * list FsOp :=
  match files with
  | [] => (true, [])
  | (p, b) :: rest =>
      match write_file (io n) p b with
      | (true, ops) => let '(ok, ops') := write_files io (S n) rest in (ok, ops ++ ops')
      | (false, ops) => (false, ops)
      end
  end.

(** [list_account] after the three requests: [details] and [balances] are
    the serialised answers, [ser] serialises one month's [Transactions],
    [io n] the calls of the [n]-th [write_file].  The details and the
    balances are written before the transactions are grouped. *)
Definition list_account (io : nat -> Io) (ser : Group -> string) (account_base : Path)
    (details balances : string) (booked pending : list GcTransaction) : JobResult * list FsOp :=
  match write_file (io 0%nat) (join account_base "account-details.json") details with
  | (false, ops1) => (JErr, ops1)
  | (true, ops1) =>
      match write_file (io 1%nat) (join account_base "balances.json") balances with
      | (false, ops2) => (JErr, ops1 ++ ops2)
      | (true, ops2) =>
          match by_month booked pending with
          | None => (JPanic, ops1 ++ ops2)
          | Some m =>
              let '(ok, ops3) :=
                write_files io 2
                  (map (fun kg => (join account_base (month_file_name (fst kg)), ser (snd kg))) m) in
              (if ok then JOk else JErr, ops1 ++ ops2 ++ ops3)
          end
      end
  end.

(** The month a transaction belongs to, for a valid date. *)
Definition month_key (t : GcTransaction) : option NaiveDate :=
  match tx_date t with
  | None => None
  | Some d => Some (mkDate (year d) (month d) 1)
  end.

End GcListAccount.

(** * Proofs *)

(** ** Calendar facts *)

Module DateFacts.
Import Date.

Definition wf (d : NaiveDate) : Prop := 1 <= month d <= 12 /\ 1 <= day d <= 31.

Lemma dim_bounds y m : 28 <= days_in_month y m <= 31.
Proof.
  unfold days_in_month.
  destruct (m =? 2); [destruct (is_leap y); lia|].
  destruct ((m =? 4) || (m =? 6) || (m =? 9) || (m =? 11)); lia.
Qed.

Lemma dim_dec y : days_in_month y 12 = 31.
Proof. reflexivity. Qed.

Lemma valid_wf d : valid d -> wf d.
Proof. unfold valid, wf. pose proof (dim_bounds (year d) (month d)). lia. Qed.

Lemma divmod12 q r : 0 <= r < 12 -> (12 * q + r) / 12 = q /\ (12 * q + r) mod 12 = r.
Proof.
  intros H. split.
  - symmetry. apply Z.div_unique with r; lia.
  - symmetry. apply Z.mod_unique with q; lia.
Qed.

Lemma div_mod12 j : j = 12 * (j / 12) + j mod 12 /\ 0 <= j mod 12 < 12.
Proof. split; [apply Z.div_mod; lia | apply Z.mod_pos_bound; lia]. Qed.

Lemma idx_first_of j : idx (first_of j) = j.
Proof. unfold idx, first_of; cbn [year month day]. pose proof (div_mod12 j). lia. Qed.

Lemma idx_last_of j : idx (last_of j) = j.
Proof. unfold idx, last_of; cbn [year month day]. pose proof (div_mod12 j). lia. Qed.

Lemma first_of_idx d : 1 <= month d <= 12 -> first_of (idx d) = mkDate (year d) (month d) 1.
Proof.
  intros H. unfold first_of, idx.
  replace (12 * year d + month d - 1) with (12 * year d + (month d - 1)) by lia.
  destruct (divmod12 (year d) (month d - 1)) as [-> ->]; [lia|].
  f_equal; lia.
Qed.

Lemma wf_first_of j : wf (first_of j).
Proof. unfold wf, first_of; cbn [year month day]. pose proof (div_mod12 j). lia. Qed.

Lemma wf_last_of j : wf (last_of j).
Proof.
  unfold wf, last_of; cbn [year month day]. pose proof (div_mod12 j).
  pose proof (dim_bounds (j / 12) (j mod 12 + 1)). lia.
Qed.

Lemma key_first_of j : key (first_of j) = 32 * j + 1.
Proof. unfold key. rewrite idx_first_of. reflexivity. Qed.

Lemma key_last_of j : 32 * j + 28 <= key (last_of j) <= 32 * j + 31.
Proof.
  unfold key. rewrite idx_last_of. unfold last_of; cbn [year month day].
  pose proof (dim_bounds (j / 12) (j mod 12 + 1)). lia.
Qed.

Lemma key_idx d : wf d -> 32 * idx d + 1 <= key d <= 32 * idx d + 31.
Proof. unfold wf, key. lia. Qed.

Lemma cmp_key a b : wf a -> wf b -> cmp a b = Z.compare (key a) (key b).
Proof.
  unfold wf, cmp, key, idx. intros Ha Hb.
  destruct (Z.compare_spec (year a) (year b));
    [destruct (Z.compare_spec (month a) (month b));
       [destruct (Z.compare_spec (day a) (day b))| |]| |];
    symmetry;
    first [ apply Z.compare_eq_iff | apply Z.compare_lt_iff | apply Z.compare_gt_iff ];
    nia.
Qed.

Lemma le_key a b : wf a -> wf b -> le a b = (key a <=? key b).
Proof.
  intros Ha Hb. unfold le. rewrite (cmp_key a b Ha Hb).
  destruct (Z.compare_spec (key a) (key b)); symmetry;
    first [apply Z.leb_le | apply Z.leb_gt]; lia.
Qed.

Lemma min_key a b : wf a -> wf b -> min a b = if key a <=? key b then a else b.
Proof.
  intros Ha Hb. unfold min. rewrite (cmp_key a b Ha Hb).
  destruct (Z.compare_spec (key a) (key b)), (Z.leb_spec (key a) (key b));
    reflexivity || lia.
Qed.

Lemma wf_min a b : wf a -> wf b -> wf (min a b).
Proof. intros Ha Hb. rewrite min_key by assumption. destruct (_ <=? _); assumption. Qed.

Lemma key_min a b : wf a -> wf b -> key (min a b) = Z.min (key a) (key b).
Proof.
  intros Ha Hb. rewrite min_key by assumption.
  destruct (Z.leb_spec (key a) (key b)); lia.
Qed.

Ltac wf_tac :=
  repeat first [ assumption | apply wf_min | apply wf_first_of | apply wf_last_of
               | apply valid_wf; assumption ].

End DateFacts.

(** ** The month pipeline *)

Module MonthsFacts.
Import Date Months DateFacts.

Lemma succ_mid y m d :
  d < days_in_month y m -> succ_opt (mkDate y m d) = Some (mkDate y m (d + 1)).
Proof.
  intros H. unfold succ_opt; cbn [year month day].
  rewrite (proj2 (Z.ltb_lt _ _) H). reflexivity.
Qed.

Lemma succ_last y m :
  1 <= m <= 12 -> 12 * y + m - 1 < LAST_IDX ->
  succ_opt (mkDate y m (days_in_month y m)) = Some (first_of (12 * y + m)).
Proof.
  intros Hm Hl. unfold succ_opt; cbn [year month day]. rewrite Z.ltb_irrefl.
  destruct (Z.ltb_spec m 12).
  - unfold first_of. destruct (divmod12 y m) as [-> ->]; [lia|]. reflexivity.
  - unfold LAST_IDX in Hl. destruct (Z.ltb_spec y MAX_YEAR); [|lia].
    unfold first_of. replace (12 * y + m) with (12 * (y + 1) + 0) by lia.
    destruct (divmod12 (y + 1) 0) as [-> ->]; [lia|]. reflexivity.
Qed.

Lemma pred_first j :
  FIRST_IDX <= j -> pred_opt (first_of (j + 1)) = Some (last_of j).
Proof.
  intros Hj. destruct (div_mod12 j) as [Hd Hm].
  unfold pred_opt, first_of, last_of; cbn [year month day].
  rewrite Z.ltb_irrefl.
  destruct (Z.eq_dec (j mod 12) 11) as [E|E].
  - replace (j + 1) with (12 * (j / 12 + 1) + 0) by lia.
    destruct (divmod12 (j / 12 + 1) 0) as [-> ->]; [lia|].
    rewrite E, Z.ltb_irrefl.
    unfold FIRST_IDX in Hj.
    destruct (Z.ltb_spec MIN_YEAR (j / 12 + 1)); [|lia].
    change (11 + 1) with 12. rewrite dim_dec.
    f_equal. f_equal. lia.
  - replace (j + 1) with (12 * (j / 12) + (j mod 12 + 1)) by lia.
    destruct (divmod12 (j / 12) (j mod 12 + 1)) as [-> ->]; [lia|].
    destruct (Z.ltb_spec 1 (j mod 12 + 1 + 1)); [|lia].
    replace (j mod 12 + 1 + 1 - 1) with (j mod 12 + 1) by lia. reflexivity.
Qed.

Lemma filter_rest : forall r y m d n,
  1 <= m <= 12 -> 2 <= d -> d + Z.of_nat r = days_in_month y m ->
  12 * y + m - 1 < LAST_IDX ->
  filter is_first (iter_days_take (mkDate y m d) (S r + n)) =
  filter is_first (iter_days_take (first_of (12 * y + m)) n).
Proof.
  induction r as [|r IH]; intros y m d n Hm Hd Hr Hl.
  - cbn [Nat.add iter_days_take].
    replace d with (days_in_month y m) by lia.
    rewrite succ_last by assumption. cbn [filter]; unfold is_first at 1; cbn [day].
    pose proof (dim_bounds y m).
    rewrite (proj2 (Z.eqb_neq _ _)) by lia. reflexivity.
  - change (S (S r) + n)%nat with (S (S r + n))%nat. cbn [iter_days_take].
    rewrite succ_mid by lia. cbn [filter]; unfold is_first at 1; cbn [day].
    rewrite (proj2 (Z.eqb_neq _ _)) by lia.
    apply IH; lia.
Qed.

Lemma ms_head j n :
  exists rest, filter is_first (iter_days_take (first_of j) (S n)) = first_of j :: rest.
Proof.
  unfold first_of at 1. cbn [iter_days_take].
  pose proof (dim_bounds (j / 12) (j mod 12 + 1)).
  rewrite succ_mid by lia. cbn [filter]; unfold is_first at 1; cbn [day Z.eqb Pos.eqb].
  eexists. reflexivity.
Qed.

Lemma ms_step j n :
  j < LAST_IDX ->
  filter is_first
    (iter_days_take (first_of j) (Z.to_nat (days_in_month (j / 12) (j mod 12 + 1)) + n)) =
  first_of j :: filter is_first (iter_days_take (first_of (j + 1)) n).
Proof.
  intros Hl. destruct (div_mod12 j) as [Hd Hm].
  pose proof (dim_bounds (j / 12) (j mod 12 + 1)) as Hb.
  replace (Z.to_nat (days_in_month (j / 12) (j mod 12 + 1)) + n)%nat
    with (S (S (Z.to_nat (days_in_month (j / 12) (j mod 12 + 1) - 2)) + n))%nat by lia.
  unfold first_of at 1. cbn [iter_days_take].
  rewrite succ_mid by lia. cbn [filter]; unfold is_first at 1; cbn [day Z.eqb Pos.eqb].
  f_equal.
  replace (j + 1) with (12 * (j / 12) + (j mod 12 + 1)) by lia.
  apply filter_rest; lia.
Qed.

Lemma ms_firsts : forall k j m n,
  j + Z.of_nat k <= LAST_IDX -> (31 * k + m <= n)%nat ->
  exists n', (m <= n')%nat /\
    filter is_first (iter_days_take (first_of j) n) =
    firsts j k ++ filter is_first (iter_days_take (first_of (j + Z.of_nat k)) n').
Proof.
  induction k as [|k IH]; intros j m n Hl Hn.
  - exists n. split; [lia|]. rewrite Z.add_0_r. reflexivity.
  - set (dm := Z.to_nat (days_in_month (j / 12) (j mod 12 + 1))).
    pose proof (dim_bounds (j / 12) (j mod 12 + 1)) as Hb.
    replace n with (dm + (n - dm))%nat by lia.
    rewrite ms_step by lia.
    destruct (IH (j + 1) m (n - dm)%nat) as [n' [Hm' Heq]]; [lia|lia|].
    exists n'. split; [exact Hm'|].
    rewrite Heq. cbn [firsts app].
    replace (j + 1 + Z.of_nat k) with (j + Z.of_nat (S k)) by lia. reflexivity.
Qed.

Lemma firsts_app j k rest :
  firsts j k ++ first_of (j + Z.of_nat k) :: rest = firsts j (S k) ++ rest.
Proof.
  revert j. induction k as [|k IH]; intros j.
  - cbn. rewrite Z.add_0_r. reflexivity.
  - cbn [firsts app]. f_equal.
    replace (j + Z.of_nat (S k)) with (j + 1 + Z.of_nat k) by lia.
    apply IH.
Qed.

Lemma take_while_firsts e : forall k j rest,
  (forall i, j <= i < j + Z.of_nat k -> le (first_of i) e = true) ->
  le (first_of (j + Z.of_nat k)) e = false ->
  take_while (fun d => le d e) (firsts j k ++ first_of (j + Z.of_nat k) :: rest) =
  firsts j k.
Proof.
  induction k as [|k IH]; intros j rest Hin Hout.
  - cbn. rewrite Z.add_0_r in *. rewrite Hout. reflexivity.
  - cbn [firsts app take_while].
    rewrite Hin by lia. f_equal.
    replace (j + Z.of_nat (S k)) with (j + 1 + Z.of_nat k) by lia.
    apply IH.
    + intros i Hi. apply Hin. lia.
    + replace (j + 1 + Z.of_nat k) with (j + Z.of_nat (S k)) by lia. exact Hout.
Qed.

Lemma zip_ends_firsts e : forall k j rest,
  FIRST_IDX <= j ->
  zip_ends (firsts j k) (firsts (j + 1) k ++ rest) e = Some (buckets j k e).
Proof.
  induction k as [|k IH]; intros j rest Hj.
  - reflexivity.
  - cbn [firsts buckets app zip_ends].
    rewrite pred_first by assumption.
    rewrite IH by lia. reflexivity.
Qed.

Lemma with_day_one s :
  valid s -> with_day s 1 = Some (first_of (idx s)).
Proof.
  intros Hs. destruct Hs as [Hy [Hm Hd]].
  unfold with_day. rewrite first_of_idx by lia.
  pose proof (dim_bounds (year s) (month s)).
  destruct (Z.leb_spec 1 1); [|lia].
  destruct (Z.leb_spec 1 (days_in_month (year s) (month s))); [|lia].
  reflexivity.
Qed.

(** [months] on a range that ends before the last representable month is
    the list of the buckets of the months from [start]'s to [end]'s. *)
Lemma months_spec s e :
  valid s -> valid e -> le s e = true -> idx e < LAST_IDX ->
  months s e = Some (buckets (idx s) (Z.to_nat (idx e - idx s + 1)) e).
Proof.
  intros Hs He Hle Hl.
  pose proof (valid_wf _ Hs) as Ws. pose proof (valid_wf _ He) as We.
  rewrite le_key in Hle by assumption. apply Z.leb_le in Hle.
  pose proof (key_idx _ Ws). pose proof (key_idx _ We).
  assert (Hi : idx s <= idx e) by lia.
  assert (HF : FIRST_IDX <= idx s)
    by (destruct Hs as [Hy [Hm _]]; unfold FIRST_IDX, idx; lia).
  set (K := Z.to_nat (idx e - idx s + 1)).
  assert (HK : idx s + Z.of_nat K = idx e + 1) by lia.
  unfold months, months_take. rewrite with_day_one by assumption.
  unfold month_starts.
  destruct (ms_firsts K (idx s) 1 (fuel s e)) as [n' [Hn' Heq]];
    [lia | unfold fuel; lia |].
  rewrite Heq.
  destruct n' as [|n'']; [lia|].
  destruct (ms_head (idx s + Z.of_nat K) n'') as [rest Hr]. rewrite Hr.
  rewrite take_while_firsts.
  2: { intros i Hi'. rewrite le_key by (apply wf_first_of || assumption).
       rewrite key_first_of. apply Z.leb_le. lia. }
  2: { rewrite le_key by (apply wf_first_of || assumption).
       rewrite key_first_of. apply Z.leb_gt. lia. }
  destruct K as [|K'] eqn:EK; [lia|].
  cbn [firsts app skipn].
  replace (idx s + Z.of_nat (S K')) with (idx s + 1 + Z.of_nat K') by lia.
  rewrite firsts_app.
  exact (zip_ends_firsts e (S K') (idx s) rest HF).
Qed.

End MonthsFacts.

Module MonthsCover.
Import Date Months DateFacts MonthsFacts.

Lemma last_of_idx d : 1 <= month d <= 12 ->
  last_of (idx d) = mkDate (year d) (month d) (days_in_month (year d) (month d)).
Proof.
  intros H. unfold last_of.
  pose proof (first_of_idx d H) as E. unfold first_of in E.
  injection E as E1 E2. rewrite E1, E2. reflexivity.
Qed.

Lemma key_le_last x : valid x -> key x <= key (last_of (idx x)).
Proof.
  intros Hx. pose proof Hx as [Hy [Hm Hd]].
  rewrite last_of_idx by lia. unfold key, idx. cbn [year month day]. lia.
Qed.

Lemma in_bucket_iff x e j :
  valid x -> valid e -> le x e = true ->
  in_bucket x (first_of j, min (last_of j) e) = (idx x =? j).
Proof.
  intros Hx He Hxe. pose proof (valid_wf _ Hx) as Wx. pose proof (valid_wf _ He) as We.
  unfold in_bucket. cbn [fst snd].
  rewrite le_key in Hxe by assumption. apply Z.leb_le in Hxe.
  rewrite !le_key by wf_tac. rewrite key_min by wf_tac.
  rewrite key_first_of.
  pose proof (key_idx _ Wx). pose proof (key_last_of j).
  pose proof (key_le_last x Hx). pose proof (key_last_of (idx x)).
  destruct (Z.eqb_spec (idx x) j) as [<-|Hne].
  - rewrite (proj2 (Z.leb_le _ _)) by lia. apply Z.leb_le. lia.
  - destruct (Z.leb_spec (32 * j + 1) (key x)); [|reflexivity].
    cbn [andb]. apply Z.leb_gt. lia.
Qed.

Lemma in_bucket_idx x e j :
  valid x -> valid e ->
  in_bucket x (first_of j, min (last_of j) e) = true -> idx x = j.
Proof.
  intros Hx He H. pose proof (valid_wf _ Hx) as Wx. pose proof (valid_wf _ He) as We.
  unfold in_bucket in H. cbn [fst snd] in H. apply andb_prop in H as [H1 H2].
  rewrite le_key in H1, H2 by wf_tac. rewrite key_min in H2 by wf_tac.
  rewrite key_first_of in H1. apply Z.leb_le in H1, H2.
  pose proof (key_idx _ Wx). pose proof (key_last_of j). lia.
Qed.

Lemma count_buckets x e : valid x -> valid e -> le x e = true ->
  forall k i, List.length (filter (in_bucket x) (buckets i k e)) =
              if (i <=? idx x) && (idx x <? i + Z.of_nat k) then 1%nat else 0%nat.
Proof.
  intros Hx He Hxe. induction k as [|k IH]; intros i.
  - cbn. destruct (Z.leb_spec i (idx x)), (Z.ltb_spec (idx x) (i + 0)); reflexivity || lia.
  - cbn [buckets filter]. rewrite in_bucket_iff by assumption.
    destruct (Z.eqb_spec (idx x) i) as [E|E].
    + cbn [List.length]. rewrite IH.
      destruct (Z.leb_spec (i + 1) (idx x)); [lia|].
      destruct (Z.leb_spec i (idx x)); [|lia].
      destruct (Z.ltb_spec (idx x) (i + Z.of_nat (S k))); [reflexivity|lia].
    + rewrite IH.
      destruct (Z.leb_spec (i + 1) (idx x)), (Z.leb_spec i (idx x)),
        (Z.ltb_spec (idx x) (i + 1 + Z.of_nat k)),
        (Z.ltb_spec (idx x) (i + Z.of_nat (S k))); reflexivity || lia.
Qed.

Lemma count_buckets_le x e : valid x -> valid e ->
  forall k i, (List.length (filter (in_bucket x) (buckets i k e)) <= 1)%nat /\
              (i > idx x -> List.length (filter (in_bucket x) (buckets i k e)) = 0%nat).
Proof.
  intros Hx He. induction k as [|k IH]; intros i.
  - cbn. lia.
  - cbn [buckets filter].
    destruct (in_bucket x (first_of i, min (last_of i) e)) eqn:Hb.
    + apply in_bucket_idx in Hb; [|assumption..].
      cbn [List.length]. destruct (IH (i + 1)) as [_ H0]. rewrite H0 by lia. lia.
    + destruct (IH (i + 1)) as [H1 H0]. split; [exact H1|]. intros. apply H0. lia.
Qed.

Lemma nth_buckets e : forall k i n, (n < k)%nat ->
  nth_error (buckets i k e) n =
  Some (first_of (i + Z.of_nat n), min (last_of (i + Z.of_nat n)) e).
Proof.
  induction k as [|k IH]; intros i n Hn; [lia|].
  destruct n as [|n].
  - cbn. rewrite Z.add_0_r. reflexivity.
  - cbn [buckets nth_error]. rewrite IH by lia.
    replace (i + 1 + Z.of_nat n) with (i + Z.of_nat (S n)) by lia. reflexivity.
Qed.

Lemma nth_buckets_none e : forall k i n, (k <= n)%nat -> nth_error (buckets i k e) n = None.
Proof.
  induction k as [|k IH]; intros i n Hn; [destruct n; reflexivity|].
  destruct n as [|n]; [lia|]. cbn [buckets nth_error]. apply IH. lia.
Qed.

Lemma buckets_end e : valid e -> forall k i r, In r (buckets i k e) -> le (snd r) e = true.
Proof.
  intros He. pose proof (valid_wf _ He) as We.
  induction k as [|k IH]; intros i r Hr; [destruct Hr|].
  destruct Hr as [<-|Hr]; [|eapply IH; exact Hr].
  cbn [snd]. rewrite le_key by wf_tac. rewrite key_min by wf_tac. apply Z.leb_le. lia.
Qed.

End MonthsCover.

(** ** The history window *)

Module HistoryFacts.
Import Date DateFacts HistoryWindow.

Lemma sub_days_in_month : forall k y m,
  sub_days (mkDate y m (1 + Z.of_nat k)) k = Some (mkDate y m 1).
Proof.
  induction k as [|k IH]; intros y m.
  - cbn. reflexivity.
  - cbn [sub_days]. unfold pred_opt; cbn [year month day].
    destruct (Z.ltb_spec 1 (1 + Z.of_nat (S k))); [|lia].
    replace (1 + Z.of_nat (S k) - 1) with (1 + Z.of_nat k) by lia.
    apply IH.
Qed.

Lemma round_up_first d :
  1 < day d -> forall s1, add_months d 1 = Some s1 ->
  sub_days s1 (Z.to_nat (day s1 - 1)) = Some (first_of (idx d + 1)).
Proof.
  intros Hd s1 Hs1. unfold add_months in Hs1. cbn [Z.eqb] in Hs1.
  destruct (_ && _) in Hs1; [|discriminate].
  injection Hs1 as <-. cbn [day].
  set (ms := year d * 12 + month d - 1 + 1) in *.
  pose proof (dim_bounds (ms / 12) (ms mod 12 + 1)).
  set (dd := if days_in_month (ms / 12) (ms mod 12 + 1) <? day d
             then days_in_month (ms / 12) (ms mod 12 + 1) else day d).
  assert (Hdd : 1 <= dd)
    by (unfold dd; destruct (Z.ltb_spec (days_in_month (ms / 12) (ms mod 12 + 1)) (day d)); lia).
  replace dd with (1 + Z.of_nat (Z.to_nat (dd - 1))) at 1 by lia.
  rewrite sub_days_in_month.
  unfold first_of, idx. replace (12 * year d + month d - 1 + 1) with ms
    by (unfold ms; lia).
  reflexivity.
Qed.

Lemma pred_valid d p : valid d -> pred_opt d = Some p -> valid p.
Proof.
  unfold valid, pred_opt. intros [Hy [Hm Hd]] Hp.
  destruct (Z.ltb_spec 1 (day d)).
  - injection Hp as <-. cbn [year month day]. lia.
  - destruct (Z.ltb_spec 1 (month d)).
    + injection Hp as <-. cbn [year month day].
      pose proof (dim_bounds (year d) (month d - 1)). lia.
    + destruct (Z.ltb_spec MIN_YEAR (year d)); [|discriminate].
      injection Hp as <-. cbn [year month day]. rewrite dim_dec. lia.
Qed.

Lemma sub_days_valid : forall n d p, valid d -> sub_days d n = Some p -> valid p.
Proof.
  induction n as [|n IH]; intros d p Hd Hp.
  - injection Hp as <-. exact Hd.
  - cbn [sub_days] in Hp. destruct (pred_opt d) as [q|] eqn:Hq; [|discriminate].
    apply (IH q); [apply (pred_valid d); assumption | exact Hp].
Qed.

Lemma first_of_next d : 1 <= month d <= 12 ->
  first_of (idx d + 1) =
  if month d <? 12 then mkDate (year d) (month d + 1) 1 else mkDate (year d + 1) 1 1.
Proof.
  intros Hm. unfold first_of, idx.
  destruct (Z.ltb_spec (month d) 12).
  - replace (12 * year d + month d - 1 + 1) with (12 * year d + month d) by lia.
    destruct (divmod12 (year d) (month d)) as [-> ->]; [lia|]. reflexivity.
  - replace (12 * year d + month d - 1 + 1) with (12 * (year d + 1) + 0) by lia.
    destruct (divmod12 (year d + 1) 0) as [-> ->]; [lia|]. reflexivity.
Qed.

End HistoryFacts.

(** ** The job pool *)

Module PoolFacts.
Import Pool.
Local Open Scope nat_scope.

Lemma sum_set_nth {A} (f : A -> nat) : forall l i t v,
  nth_error l i = Some t ->
  list_sum (map f (set_nth i v l)) + f t = list_sum (map f l) + f v.
Proof.
  unfold list_sum. induction l as [|x l IH]; intros i t v H; [destruct i; discriminate|].
  destruct i as [|i]; cbn in H |- *.
  - injection H as ->. lia.
  - specialize (IH i t v H). lia.
Qed.

Lemma sum_remove_nth {A} (f : A -> nat) : forall l i t,
  nth_error l i = Some t -> list_sum (map f (remove_nth i l)) + f t = list_sum (map f l).
Proof.
  unfold list_sum. induction l as [|x l IH]; intros i t H; [destruct i; discriminate|].
  destruct i as [|i]; cbn in H |- *.
  - injection H as ->. lia.
  - specialize (IH i t H). lia.
Qed.

Lemma sum_nth {A} (f : A -> nat) : forall l i t,
  nth_error l i = Some t -> f t <= list_sum (map f l).
Proof.
  intros l i t H. pose proof (sum_remove_nth f l i t H). lia.
Qed.

Lemma length_set_nth {A} : forall (l : list A) i v, List.length (set_nth i v l) = List.length l.
Proof. induction l as [|x l IH]; intros [|i] v; cbn; auto. Qed.

Lemma length_remove_nth {A} : forall (l : list A) i t,
  nth_error l i = Some t -> S (List.length (remove_nth i l)) = List.length l.
Proof.
  induction l as [|x l IH]; intros [|i] t H; cbn in H |- *; try discriminate; auto.
  erewrite <- IH by exact H. reflexivity.
Qed.

Definition count_running (ts : list Task) : nat := list_sum (map running ts).

Ltac pool_simpl :=
  cbn [with_tasks with_permits with_queue with_ext terminate ext queue tasks
       has_terminated concurrency permits rx_open running t_done t_handles] in *.

(** The invariant of a pool while [run] is running. *)
Record inv (w : World) : Prop := {
  inv_bound : List.length (tasks w) <= concurrency w;
  inv_term : has_terminated w = true -> senders w = 0 /\ queue w = [] /\ 0 < concurrency w;
  inv_permits : permits w + count_running (tasks w) = concurrency w;
  inv_open : rx_open w = true
}.

Lemma inv_new c : inv (new c).
Proof. constructor; cbn; try discriminate; try reflexivity; lia. Qed.

Lemma senders_pos_task w i h :
  nth_error (tasks w) i = Some (mkTask h None) -> 0 < h -> 0 < senders w.
Proof.
  intros H Hh. unfold senders. pose proof (sum_nth t_handles _ _ _ H). cbn in *. lia.
Qed.

Lemma inv_env w w' : inv w -> env_step w w' -> inv w'.
Proof.
  intros [Hb Ht Hp Ho] Hs. destruct Hs as
    [w k w' He Hsp | w He | w He | w i h k w' Hi Hh Hsp | w i h Hi Hh | w i h Hi Hh | w i h o Hi].
  - unfold handle_spawn in Hsp. rewrite Ho in Hsp. injection Hsp as <-.
    constructor; pool_simpl; auto.
    intros Hterm. destruct (Ht Hterm) as [Hs _]. unfold senders in Hs. lia.
  - constructor; pool_simpl; auto.
    intros Hterm. destruct (Ht Hterm) as [Hs _]. unfold senders in Hs. lia.
  - constructor; pool_simpl; auto.
    intros Hterm. destruct (Ht Hterm) as [Hs _]. unfold senders in Hs. lia.
  - unfold handle_spawn in Hsp. rewrite Ho in Hsp. injection Hsp as <-.
    pose proof (senders_pos_task w i h Hi Hh).
    constructor; pool_simpl; auto.
    intros Hterm. destruct (Ht Hterm) as [Hs _]. lia.
  - pose proof (senders_pos_task w i h Hi Hh).
    pose proof (sum_set_nth running _ _ _ (mkTask (S h) None) Hi).
    constructor; pool_simpl; [rewrite length_set_nth; exact Hb | | unfold count_running in *; pool_simpl; lia | exact Ho].
    intros Hterm. destruct (Ht Hterm) as [Hs _]. lia.
  - pose proof (senders_pos_task w i h Hi Hh).
    pose proof (sum_set_nth running _ _ _ (mkTask (h - 1) None) Hi).
    constructor; pool_simpl; [rewrite length_set_nth; exact Hb | | unfold count_running in *; pool_simpl; lia | exact Ho].
    intros Hterm. destruct (Ht Hterm) as [Hs _]. lia.
  - pose proof (sum_set_nth running _ _ _ (mkTask 0 (Some o)) Hi).
    pose proof (sum_set_nth t_handles _ _ _ (mkTask 0 (Some o)) Hi).
    constructor; pool_simpl; [rewrite length_set_nth; exact Hb | | unfold count_running in *; pool_simpl; lia | exact Ho].
    intros Hterm. destruct (Ht Hterm) as [Hs [Hq Hc]]. unfold senders in *. pool_simpl.
    split; [lia | split; assumption].
Qed.

Lemma inv_iter w b w' : inv w -> iteration w b = Continue w' -> inv w'.
Proof.
  intros [Hb Ht Hp Ho] Hit. unfold iteration in Hit. cbv zeta in Hit.
  destruct (has_terminated w && (List.length (tasks w) =? 0)); [discriminate|].
  destruct ((List.length (tasks w) <? concurrency w) && negb (has_terminated w)) eqn:E1;
  destruct (negb (List.length (tasks w) =? 0)) eqn:E2; cbn [negb andb] in Hit;
  try discriminate; destruct b as [|i]; try discriminate.
  1,3: (* pulling a job *)
    apply andb_prop in E1 as [Hlt Eht]; apply Nat.ltb_lt in Hlt;
    apply negb_true_iff in Eht;
    unfold next_job in Hit;
    destruct (Nat.eqb_spec (permits w) 0); try discriminate;
    destruct (queue w) as [|j q] eqn:Hq;
    [ destruct (Nat.eqb_spec (senders w) 0) as [Hs|]; try discriminate;
      injection Hit as <-; constructor; pool_simpl; auto; intros _; repeat split; auto; lia
    | injection Hit as <-; constructor; pool_simpl;
      [ rewrite length_app; cbn; lia | congruence
      | unfold count_running in *; rewrite map_app, list_sum_app; cbn; lia | exact Ho ] ].
  all: (* reaping a finished task *)
    destruct (nth_error (tasks w) i) as [[h [o|]]|] eqn:Hi; try discriminate;
    destruct o; try discriminate; injection Hit as <-;
    pose proof (length_remove_nth _ _ _ Hi);
    pose proof (sum_remove_nth running _ _ _ Hi);
    pose proof (sum_remove_nth t_handles _ _ _ Hi);
    constructor; pool_simpl; [lia | | unfold count_running in *; pool_simpl; lia | exact Ho];
    intros Hterm; destruct (Ht Hterm) as [Hs [Hq Hc]]; unfold senders in *; pool_simpl;
    split; [lia | split; assumption].
Qed.

Lemma reachable_inv w : reachable w -> inv w.
Proof.
  induction 1 as [c | w w' _ IH Hs | w b w' _ IH Hit].
  - apply inv_new.
  - exact (inv_env w w' IH Hs).
  - exact (inv_iter w b w' IH Hit).
Qed.

(** What a single iteration can return. *)
Lemma iteration_return_ok w b :
  iteration w b = Return RunOk -> has_terminated w = true /\ tasks w = [].
Proof.
  unfold iteration. cbv zeta.
  destruct (has_terminated w && (List.length (tasks w) =? 0)) eqn:E0.
  - intros _. apply andb_prop in E0 as [E1 E2]. apply Nat.eqb_eq, length_zero_iff_nil in E2.
    auto.
  - destruct (negb ((List.length (tasks w) <? concurrency w) && negb (has_terminated w)) &&
              negb (negb (List.length (tasks w) =? 0))); [discriminate|].
    destruct b as [|i].
    + destruct ((List.length (tasks w) <? concurrency w) && negb (has_terminated w)); [|discriminate].
      destruct (next_job w) as [[[j|] w']|]; discriminate.
    + destruct (negb (List.length (tasks w) =? 0)); [|discriminate].
      destruct (nth_error (tasks w) i) as [[h [[|e|]|]]|]; discriminate.
Qed.

Lemma iteration_return_err w b err :
  iteration w b = Return (RunErr err) ->
  exists i h o, b = Reap i /\ nth_error (tasks w) i = Some (mkTask h (Some o)) /\
    ((exists e, o = JobErr e /\ err = TaskErr e) \/ (o = JobPanicked /\ err = JoinErr)).
Proof.
  unfold iteration. cbv zeta.
  destruct (has_terminated w && (List.length (tasks w) =? 0)); [discriminate|].
  destruct (negb ((List.length (tasks w) <? concurrency w) && negb (has_terminated w)) &&
            negb (negb (List.length (tasks w) =? 0))); [discriminate|].
  destruct b as [|i].
  - destruct ((List.length (tasks w) <? concurrency w) && negb (has_terminated w)); [|discriminate].
    destruct (next_job w) as [[[j|] w']|]; discriminate.
  - destruct (negb (List.length (tasks w) =? 0)); [|discriminate].
    destruct (nth_error (tasks w) i) as [[h [[|e|]|]]|] eqn:Hi; intros H; try discriminate;
      injection H as <-; exists i, h; eexists; refine (conj eq_refl (conj Hi _));
      first [left; eexists; split; reflexivity | right; split; reflexivity].
Qed.

Lemma iteration_reap_continue w i w' :
  iteration w (Reap i) = Continue w' ->
  exists h, nth_error (tasks w) i = Some (mkTask h (Some JobOk)) /\
    w' = with_tasks w (remove_nth i (tasks w)).
Proof.
  unfold iteration. cbv zeta.
  destruct (has_terminated w && (List.length (tasks w) =? 0)); [discriminate|].
  destruct (negb ((List.length (tasks w) <? concurrency w) && negb (has_terminated w)) &&
            negb (negb (List.length (tasks w) =? 0))); [discriminate|].
  destruct (negb (List.length (tasks w) =? 0)); [|discriminate].
  destruct (nth_error (tasks w) i) as [[h [[|e|]|]]|] eqn:Hi; intros H; try discriminate.
  injection H as <-. eauto.
Qed.

Lemma iteration_pull_continue w w' :
  iteration w PullJob = Continue w' ->
  List.length (tasks w) < concurrency w /\ has_terminated w = false /\
  ((exists j, queue w = j :: queue w' /\ tasks w' = tasks w ++ [mkTask j None]) \/
   w' = terminate w).
Proof.
  unfold iteration. cbv zeta.
  destruct (has_terminated w && (List.length (tasks w) =? 0)); [discriminate|].
  destruct (negb ((List.length (tasks w) <? concurrency w) && negb (has_terminated w)) &&
            negb (negb (List.length (tasks w) =? 0))); [discriminate|].
  destruct ((List.length (tasks w) <? concurrency w) && negb (has_terminated w)) eqn:E1;
    [|discriminate].
  apply andb_prop in E1 as [Hlt Eht]. apply Nat.ltb_lt in Hlt. apply negb_true_iff in Eht.
  unfold next_job.
  destruct (permits w =? 0); [discriminate|].
  destruct (queue w) as [|j q] eqn:Hq.
  - destruct (senders w =? 0); [|discriminate]. intros H. injection H as <-. auto.
  - intros H. injection H as <-. split; [exact Hlt|split; [exact Eht|]].
    left. exists j. split; reflexivity.
Qed.

(** A few states of a pool created with one permit. *)
Lemma reach_queued c : reachable (mkWorld 0 [0] [] false c c true).
Proof.
  apply (reach_env (mkWorld 1 [0] [] false c c true)).
  - apply (reach_env (new c)); [apply reach_new|].
    apply (ext_spawn (new c) 0); [cbn; lia | reflexivity].
  - apply (ext_drop (mkWorld 1 [0] [] false c c true)). cbn; lia.
Qed.

End PoolFacts.

(** ** Files and stores *)

Module StoreFacts.
Import Fs Store.

Lemma path_eqb_spec p q : path_eqb p q = true <-> p = q.
Proof. unfold path_eqb. destruct (list_eq_dec string_dec p q); split; congruence. Qed.

Lemma path_eqb_refl p : path_eqb p p = true.
Proof. apply path_eqb_spec. reflexivity. Qed.

Lemma path_eqb_neq p q : p <> q -> path_eqb p q = false.
Proof. intros H. destruct (path_eqb p q) eqn:E; [apply path_eqb_spec in E; contradiction|reflexivity]. Qed.

Lemma append_assoc (a b c : string) :
  String.append (String.append a b) c = String.append a (String.append b c).
Proof. induction a as [|x a IH]; cbn; [reflexivity|]. rewrite IH. reflexivity. Qed.

Lemma append_empty (a : string) : String.append a EmptyString = a.
Proof. induction a as [|x a IH]; cbn; [reflexivity|]. rewrite IH. reflexivity. Qed.

Lemma run_ops_app cwd fs l1 l2 : run_ops cwd fs (l1 ++ l2) = run_ops cwd (run_ops cwd fs l1) l2.
Proof. revert fs. induction l1 as [|op l1 IH]; intros fs; cbn; auto. Qed.

(** The last observation is the final state. *)
Lemma observe_last cwd fs ops p :
  last (observe cwd fs ops p) None = run_ops cwd fs ops (resolve cwd p).
Proof.
  revert fs. induction ops as [|op ops IH]; intros fs; [reflexivity|].
  cbn [observe run_ops]. rewrite <- IH.
  destruct ops; reflexivity.
Qed.

Lemma Forall_observe_app (P : option string -> Prop) cwd fs l1 l2 p :
  Forall P (observe cwd fs l1 p) -> Forall P (observe cwd (run_ops cwd fs l1) l2 p) ->
  Forall P (observe cwd fs (l1 ++ l2) p).
Proof.
  revert fs. induction l1 as [|op l1 IH]; intros fs H1 H2; cbn in *; [exact H2|].
  inversion H1; subst. constructor; [assumption|]. apply IH; assumption.
Qed.

(** The operations of a store that touch no file but [t]. *)
Definition only_at (t : Path) (op : FsOp) : Prop :=
  match op with
  | OpCreate p | OpAppend p _ | OpRemove p => p = t
  | OpFlush _ | OpMkdirAll _ => True
  | OpRename _ _ => False
  end.

Ltac only_at_tac :=
  cbn [app];
  repeat first [ apply Forall_nil
               | apply Forall_cons; [cbn [only_at]; first [reflexivity | exact I] |] ].

Lemma run_only_at cwd t : forall ops fs q,
  Forall (only_at t) ops -> q <> resolve cwd t -> run_ops cwd fs ops q = fs q.
Proof.
  induction ops as [|op ops IH]; intros fs q Hall Hq; [reflexivity|].
  inversion Hall as [|? ? Hop Hrest]; subst. cbn [run_ops]. rewrite IH by assumption.
  destruct op; cbn [only_at] in Hop; cbn [apply_op]; try contradiction; try reflexivity;
    subst; unfold upd; rewrite path_eqb_neq by exact Hq; reflexivity.
Qed.

Lemma observe_only_at cwd t p : forall ops fs,
  Forall (only_at t) ops -> resolve cwd p <> resolve cwd t ->
  Forall (fun v => v = fs (resolve cwd p)) (observe cwd fs ops p).
Proof.
  induction ops as [|op ops IH]; intros fs Hall Hne; cbn [observe]; [repeat constructor|].
  inversion Hall as [|? ? Hop Hrest]; subst.
  assert (E : apply_op cwd fs op (resolve cwd p) = fs (resolve cwd p))
    by exact (run_only_at cwd t [op] fs (resolve cwd p) (Forall_cons _ Hop (Forall_nil _)) Hne).
  constructor; [reflexivity|]. rewrite <- E. apply IH; assumption.
Qed.

(** The writes of [write_jsons_atomically] touch only the temp file [t]. *)
Lemma write_lines_only_at io t : forall items n r ops,
  write_lines io n t items = (r, ops) -> Forall (only_at t) ops.
Proof.
  induction items as [|it items IH]; intros n r ops H; cbn [write_lines] in H.
  - injection H as _ <-. constructor.
  - destruct (has_newline it); [injection H as _ <-; constructor|].
    destruct (io n) as [|k1]; cbn [write_all] in H; [|injection H as _ <-; only_at_tac].
    destruct (io (S n)) as [|k2]; cbn [write_all] in H; [|injection H as _ <-; only_at_tac].
    destruct (write_lines io (S (S n)) t items) as [r' ops'] eqn:E. injection H as _ <-.
    only_at_tac. exact (IH _ _ _ E).
Qed.

(** The loop ends with [JOk] only when no item holds a newline and every
    write succeeded: the temp file receives one line per item. *)
Lemma write_lines_ok io t : forall items n ops,
  write_lines io n t items = (JOk, ops) ->
  Forall (fun s => has_newline s = false) items /\
  ops = flat_map (fun it => [OpAppend t it; OpAppend t (String newline EmptyString)]) items.
Proof.
  induction items as [|it items IH]; intros n ops H; cbn [write_lines] in H.
  - injection H as <-. split; [constructor | reflexivity].
  - destruct (has_newline it) eqn:Hn; [discriminate|].
    destruct (io n) as [|k1]; cbn [write_all] in H; [|discriminate].
    destruct (io (S n)) as [|k2]; cbn [write_all] in H; [|discriminate].
    destruct (write_lines io (S (S n)) t items) as [r' ops'] eqn:E. injection H as -> <-.
    destruct (IH _ _ E) as [Hf ->]. split; [constructor; assumption | reflexivity].
Qed.

Lemma write_lines_panic io t : forall items n ops,
  write_lines io n t items = (JPanic, ops) -> Exists (fun s => has_newline s = true) items.
Proof.
  induction items as [|it items IH]; intros n ops H; cbn [write_lines] in H; [discriminate|].
  destruct (has_newline it) eqn:Hn; [apply Exists_cons_hd; exact Hn|].
  destruct (io n) as [|k1]; cbn [write_all] in H; [|discriminate].
  destruct (io (S n)) as [|k2]; cbn [write_all] in H; [|discriminate].
  destruct (write_lines io (S (S n)) t items) as [r' ops'] eqn:E. injection H as -> _.
  apply Exists_cons_tl. exact (IH _ _ E).
Qed.

Lemma write_lines_no_faults t items :
  Forall (fun s => has_newline s = false) items -> forall n,
  write_lines no_faults n t items =
    (JOk, flat_map (fun it => [OpAppend t it; OpAppend t (String newline EmptyString)]) items).
Proof.
  induction 1 as [|it items Hit _ IH]; intros n; [reflexivity|].
  cbn [write_lines]. rewrite Hit. cbn [no_faults write_all]. rewrite IH. reflexivity.
Qed.

Lemma run_lines cwd t items : forall fs c,
  fs (resolve cwd t) = Some c ->
  forall q, run_ops cwd fs (flat_map (fun it => [OpAppend t it; OpAppend t (String newline EmptyString)]) items) q =
    if path_eqb q (resolve cwd t) then Some (String.append c (jsons items)) else fs q.
Proof.
  induction items as [|it items IH]; intros fs c Hc q.
  - cbn. destruct (path_eqb q (resolve cwd t)) eqn:E; [|reflexivity].
    apply path_eqb_spec in E. subst. rewrite Hc, append_empty. reflexivity.
  - cbn [flat_map app run_ops]. rewrite IH with (c := String.append (String.append c it) (String newline EmptyString)).
    + unfold apply_op, upd. destruct (path_eqb q (resolve cwd t)); [|reflexivity].
      rewrite !append_assoc. reflexivity.
    + unfold apply_op, upd. rewrite !path_eqb_refl, Hc. reflexivity.
Qed.

Lemma observe_lines cwd t items p : forall fs,
  resolve cwd p <> resolve cwd t ->
  Forall (fun v => v = fs (resolve cwd p))
    (observe cwd fs (flat_map (fun it => [OpAppend t it; OpAppend t (String newline EmptyString)]) items) p).
Proof.
  induction items as [|it items IH]; intros fs Hne.
  - cbn. repeat constructor.
  - cbn [flat_map app observe].
    assert (E : forall fs' op, (op = OpAppend t it \/ op = OpAppend t (String newline EmptyString)) ->
               apply_op cwd fs' op (resolve cwd p) = fs' (resolve cwd p)).
    { intros fs' op [-> | ->]; cbn; unfold upd; rewrite path_eqb_neq by exact Hne; reflexivity. }
    constructor; [reflexivity|]. constructor; [apply E; auto|].
    specialize (IH (apply_op cwd (apply_op cwd fs (OpAppend t it)) (OpAppend t (String newline EmptyString))) Hne).
    rewrite E in IH by auto. rewrite E in IH by auto. exact IH.
Qed.


(** How a store that ended with [r] left the file [path], written through
    the temp file [tpath] with the contents [new]: a reader of [path] saw
    its old or its new contents, it holds the new contents after a success
    and its old ones otherwise, and no file but these two changed. *)
Definition replaces (cwd : Path) (fs : FsState) (ops : list FsOp) (path tpath : Path)
    (new : string) (r : JobResult) : Prop :=
  Forall (fun v => v = fs (resolve cwd path) \/ v = Some new) (observe cwd fs ops path) /\
  run_ops cwd fs ops (resolve cwd path) =
    match r with JOk => Some new | _ => fs (resolve cwd path) end /\
  (forall q, q <> resolve cwd path -> q <> resolve cwd tpath -> run_ops cwd fs ops q = fs q).

Lemma replaces_only_at cwd fs ops path t new r :
  resolve cwd path <> resolve cwd t -> Forall (only_at t) ops -> r <> JOk ->
  replaces cwd fs ops path t new r.
Proof.
  intros Hne Hall Hr. split; [|split].
  - eapply Forall_impl; [|exact (observe_only_at cwd t path ops fs Hall Hne)].
    intros v ->. left. reflexivity.
  - destruct r; [contradiction| |]; exact (run_only_at cwd t ops fs _ Hall Hne).
  - intros q _ Hq. exact (run_only_at cwd t ops fs q Hall Hq).
Qed.

(** The successful end of [write_jsons_atomically]: the target is replaced
    in one step by the lines of the items, and the temp file is gone. *)
Lemma replaces_commit cwd fs d t path items :
  resolve cwd t <> resolve cwd path ->
  replaces cwd fs ([OpMkdirAll d; OpCreate t] ++
      flat_map (fun it => [OpAppend t it; OpAppend t (String newline EmptyString)]) items ++
      [OpFlush t; OpRename t path]) path t (jsons items) JOk /\
  run_ops cwd fs ([OpMkdirAll d; OpCreate t] ++
      flat_map (fun it => [OpAppend t it; OpAppend t (String newline EmptyString)]) items ++
      [OpFlush t; OpRename t path]) (resolve cwd t) = None.
Proof.
  intros Hne.
  set (lines := flat_map (fun it => [OpAppend t it; OpAppend t (String newline EmptyString)]) items).
  set (fs1 := run_ops cwd fs [OpMkdirAll d; OpCreate t]).
  assert (H1 : forall q, fs1 q = if path_eqb q (resolve cwd t) then Some EmptyString else fs q).
  { intros q. reflexivity. }
  assert (Ht1 : fs1 (resolve cwd t) = Some EmptyString) by (rewrite H1, path_eqb_refl; reflexivity).
  pose proof (run_lines cwd t items fs1 EmptyString Ht1) as H2.
  set (fs2 := run_ops cwd fs1 lines).
  assert (Hfin : forall q, run_ops cwd fs2 [OpFlush t; OpRename t path] q =
            if path_eqb q (resolve cwd path) then fs2 (resolve cwd t)
            else if path_eqb q (resolve cwd t) then None else fs2 q).
  { intros q. cbn. rewrite path_eqb_neq by exact Hne. unfold upd. reflexivity. }
  assert (Hrun : forall q, run_ops cwd fs ([OpMkdirAll d; OpCreate t] ++ lines ++ [OpFlush t; OpRename t path]) q =
            run_ops cwd fs2 [OpFlush t; OpRename t path] q).
  { intros q. rewrite run_ops_app, run_ops_app. reflexivity. }
  assert (E1 : path_eqb (resolve cwd t) (resolve cwd path) = false) by (apply path_eqb_neq; exact Hne).
  assert (E2 : path_eqb (resolve cwd path) (resolve cwd t) = false)
    by (apply path_eqb_neq; exact (not_eq_sym Hne)).
  split; [split; [|split]|].
  - apply Forall_observe_app.
    + cbn. unfold upd. rewrite E2. repeat constructor; left; reflexivity.
    + apply Forall_observe_app.
      * fold fs1. eapply Forall_impl; [|apply observe_lines; exact (not_eq_sym Hne)].
        intros v ->. left. rewrite H1, E2. reflexivity.
      * fold fs1. fold fs2. cbn. unfold upd.
        rewrite ?E1, ?E2, ?path_eqb_refl.
        unfold fs2. rewrite !H2, ?E1, ?E2, ?path_eqb_refl, H1, E2.
        repeat apply Forall_cons; try apply Forall_nil;
          solve [left; reflexivity | right; reflexivity].
  - rewrite Hrun, Hfin, path_eqb_refl. unfold fs2. rewrite H2, path_eqb_refl. reflexivity.
  - intros q Hq1 Hq2. rewrite Hrun, Hfin, path_eqb_neq by exact Hq1.
    rewrite path_eqb_neq by exact Hq2. unfold fs2. rewrite H2, path_eqb_neq by exact Hq2.
    rewrite H1, path_eqb_neq by exact Hq2. reflexivity.
  - rewrite Hrun, Hfin, E1, path_eqb_refl. reflexivity.
Qed.

(** [write_jsons_atomically], however its calls end: the target is
    replaced in one step by the lines of the items when it returns [Ok]
    and keeps its contents otherwise; a reader sees the old or the new
    contents; no other file but the temp file changes.  It panics only on
    an item holding a newline.  A temp file that did not exist before is
    gone afterwards, except after a failed [persist], which leaves it with
    all the lines. *)
Lemma write_jsons_atomically_spec cwd fs io tmp path items r ops :
  resolve cwd (join (write_jsons_dir path) tmp) <> resolve cwd path ->
  write_jsons_atomically io tmp path items = (r, ops) ->
  replaces cwd fs ops path (join (write_jsons_dir path) tmp) (jsons items) r /\
  (r = JPanic -> Exists (fun s => has_newline s = true) items) /\
  (fs (resolve cwd (join (write_jsons_dir path) tmp)) = None ->
   run_ops cwd fs ops (resolve cwd (join (write_jsons_dir path) tmp)) = None \/
   (r = JErr /\ io_ok (io (2 + 2 * List.length items)%nat) = false /\
    run_ops cwd fs ops (resolve cwd (join (write_jsons_dir path) tmp)) = Some (jsons items))).
Proof.
  intros Hne H.
  set (t := join (write_jsons_dir path) tmp) in *.
  set (d := write_jsons_dir path) in *.
  pose proof (not_eq_sym Hne) as Hne'.
  unfold write_jsons_atomically in H. fold d t in H.
  destruct (io 0%nat) as [|k0] eqn:E0;
    [|injection H as <- <-; split; [apply replaces_only_at; [exact Hne' | constructor | discriminate]|];
      split; [discriminate | intros Ht; left; exact Ht]].
  destruct (io 1%nat) as [|k1] eqn:E1;
    [|injection H as <- <-; split; [apply replaces_only_at; [exact Hne' | only_at_tac | discriminate]|];
      split; [discriminate | intros Ht; left; exact Ht]].
  destruct (write_lines io 2 t items) as [r' lops] eqn:El.
  pose proof (write_lines_only_at io t items 2 r' lops El) as Hl.
  assert (Hrm : Forall (only_at t) ([OpMkdirAll d; OpCreate t] ++ lops ++ [OpRemove t]))
    by (apply Forall_app; split; [only_at_tac | apply Forall_app; split; [exact Hl | only_at_tac]]).
  assert (Hgone : run_ops cwd fs ([OpMkdirAll d; OpCreate t] ++ lops ++ [OpRemove t]) (resolve cwd t) = None).
  { rewrite run_ops_app, run_ops_app. cbn [run_ops apply_op]. unfold upd.
    rewrite path_eqb_refl. reflexivity. }
  destruct r' eqn:Er'.
  - destruct (write_lines_ok io t items 2 lops El) as [_ ->].
    destruct (io (2 + 2 * List.length items)%nat) as [|kp] eqn:Ep.
    + injection H as <- <-. destruct (replaces_commit cwd fs d t path items Hne) as [Hr Hg].
      split; [exact Hr|]. split; [discriminate | intros _; left; exact Hg].
    + injection H as <- <-. split.
      * apply replaces_only_at; [exact Hne' | | discriminate].
        only_at_tac. apply Forall_app. split; [exact Hl | only_at_tac].
      * split; [discriminate|]. intros Ht. right. split; [reflexivity|]. split; [reflexivity|].
        cbn [run_ops]. rewrite run_ops_app. cbn [run_ops apply_op].
        rewrite (run_lines cwd t items _ EmptyString); [rewrite path_eqb_refl; reflexivity|].
        unfold upd. rewrite path_eqb_refl. reflexivity.
  - injection H as <- <-. split; [apply replaces_only_at; [exact Hne' | exact Hrm | discriminate]|].
    split; [discriminate | intros _; left; exact Hgone].
  - injection H as <- <-. split; [apply replaces_only_at; [exact Hne' | exact Hrm | discriminate]|].
    split; [intros _; exact (write_lines_panic io t items 2 lops El) | intros _; left; exact Hgone].
Qed.

(** When every call succeeds and no item holds a newline,
    [write_jsons_atomically] returns [Ok]. *)
Lemma write_jsons_atomically_no_faults tmp path items :
  Forall (fun s => has_newline s = false) items ->
  exists ops, write_jsons_atomically no_faults tmp path items = (JOk, ops).
Proof.
  intros H. unfold write_jsons_atomically. cbn [no_faults].
  rewrite write_lines_no_faults by exact H. eexists. reflexivity.
Qed.

End StoreFacts.

(** ** The TrueLayer authenticator *)

Module TlAuthFacts.
Import GcAuth TlAuth.




Lemma set_pc_cache s t p : cache (set_pc s t p) = cache s.
Proof. destruct t; reflexivity. Qed.


Lemma MIN_INSTANT_value : MIN_INSTANT = -8334601228800.
Proof. reflexivity. Qed.

Lemma MAX_INSTANT_value : MAX_INSTANT = 8210266876799.
Proof. reflexivity. Qed.

Lemma add_instant_spec t d e : add_instant t d = Some e <->
  e = t + d /\ MIN_INSTANT <= t + d <= MAX_INSTANT.
Proof.
  unfold add_instant.
  destruct (Z.leb_spec MIN_INSTANT (t + d)) as [L1|L1]; cbn [andb];
    [destruct (Z.leb_spec (t + d) MAX_INSTANT) as [L2|L2]|];
    split; intros H; try discriminate H; try (injection H as <-; lia);
    try (destruct H as [-> ?]; reflexivity); lia.
Qed.

Lemma try_seconds_spec s d : try_seconds s = Some d <-> d = s /\ - MAX_SECS <= s <= MAX_SECS.
Proof.
  unfold try_seconds.
  destruct (Z.leb_spec (- MAX_SECS) s) as [L1|L1]; cbn [andb];
    [destruct (Z.leb_spec s MAX_SECS) as [L2|L2]|];
    split; intros H; try discriminate H; try (injection H as <-; lia);
    try (destruct H as [-> ?]; reflexivity); lia.
Qed.

Lemma update_from_response_expires d r now rd nd :
  update_from_response d r now rd = Some nd -> expires_at nd = now + expires_in r.
Proof.
  unfold update_from_response.
  destruct (try_seconds (expires_in r)) as [x|] eqn:E1; [|discriminate].
  destruct (add_instant now x) as [e|] eqn:E2; [|discriminate].
  apply try_seconds_spec in E1 as [-> _]. apply add_instant_spec in E2 as [-> _].
  intros H. injection H as <-. reflexivity.
Qed.

Lemma update_from_response_some d r now rd :
  - MAX_SECS <= expires_in r <= MAX_SECS -> MIN_INSTANT <= now + expires_in r <= MAX_INSTANT ->
  exists nd, update_from_response d r now rd = Some nd.
Proof.
  intros H1 H2. unfold update_from_response.
  rewrite (proj2 (try_seconds_spec _ _) (conj eq_refl H1)).
  rewrite (proj2 (add_instant_spec _ _ _) (conj eq_refl H2)). eexists. reflexivity.
Qed.










End TlAuthFacts.

(** * The claims *)

Module Claims.
Import Date Months DateFacts MonthsFacts MonthsCover HistoryWindow HistoryFacts.

(** C3 (counterexample): on the range [+262142-12-31 ..= +262142-12-31],
    the last representable month, [months] yields no bucket at all: the
    iterator [iter_days] stops before chrono's last date, so [month_ends] has
    no element for December and [zip] drops the final bucket.  The date of
    the range lies in no bucket. *)
Lemma months_last_month_dropped :
  let d := mkDate MAX_YEAR 12 31 in
  valid d /\ le d d = true /\ months d d = Some [] /\
  List.length (filter (in_bucket d) []) = 0%nat.
Proof.
  cbv zeta. split; [unfold valid; vm_compute; repeat split; discriminate|].
  split; [reflexivity|]. split; [vm_compute; reflexivity | reflexivity].
Qed.

(** C3 (amended): for every range [start <= end] of valid dates whose end
    does not lie in December of chrono's last year, [months(start..=end)]
    does not panic, consecutive buckets are adjacent (each bucket ends the day
    before the next begins), every date of [start ..= end] lies in exactly one
    bucket, no date lies in two buckets, and every bucket ends at or before
    [end]. *)
Theorem months_partition s e :
  valid s -> valid e -> le s e = true -> ~ (year e = MAX_YEAR /\ month e = 12) ->
  exists bs, months s e = Some bs /\
    (forall n a1 b1 a2 b2, nth_error bs n = Some (a1, b1) ->
       nth_error bs (S n) = Some (a2, b2) -> pred_opt a2 = Some b1) /\
    (forall x, valid x -> le s x = true -> le x e = true ->
       List.length (filter (in_bucket x) bs) = 1%nat) /\
    (forall x, valid x -> (List.length (filter (in_bucket x) bs) <= 1)%nat) /\
    (forall r, In r bs -> le (snd r) e = true).
Proof.
  intros Hs He Hse Hlast.
  pose proof (valid_wf _ Hs) as Ws. pose proof (valid_wf _ He) as We.
  assert (Hl : idx e < LAST_IDX).
  { destruct He as [Hy [Hm _]]. unfold idx, LAST_IDX.
    destruct (Z.eq_dec (year e) MAX_YEAR), (Z.eq_dec (month e) 12); lia. }
  exists (buckets (idx s) (Z.to_nat (idx e - idx s + 1)) e).
  split; [apply months_spec; assumption|].
  pose proof Hse as Hse'. rewrite le_key in Hse' by wf_tac. apply Z.leb_le in Hse'.
  pose proof (key_idx _ Ws). pose proof (key_idx _ We).
  split; [|split; [|split]].
  - intros n a1 b1 a2 b2 H1 H2.
    destruct (Nat.lt_ge_cases (S n) (Z.to_nat (idx e - idx s + 1))) as [Hn|Hn];
      [|rewrite nth_buckets_none in H2 by lia; discriminate].
    rewrite nth_buckets in H1, H2 by lia.
    injection H1 as <- <-. injection H2 as <- _.
    replace (idx s + Z.pos (Pos.of_succ_nat n)) with (idx s + Z.of_nat n + 1) by lia.
    rewrite pred_first by (destruct Hs as [Hy [Hm _]]; unfold FIRST_IDX, idx; lia).
    f_equal. rewrite min_key by wf_tac.
    pose proof (key_last_of (idx s + Z.of_nat n)).
    destruct (Z.leb_spec (key (last_of (idx s + Z.of_nat n))) (key e)); [reflexivity|lia].
  - intros x Hx Hsx Hxe.
    rewrite count_buckets by assumption.
    pose proof (valid_wf _ Hx) as Wx. pose proof (key_idx _ Wx).
    rewrite le_key in Hsx, Hxe by wf_tac. apply Z.leb_le in Hsx, Hxe.
    destruct (Z.leb_spec (idx s) (idx x)); [|lia].
    destruct (Z.ltb_spec (idx x) (idx s + Z.of_nat (Z.to_nat (idx e - idx s + 1))));
      [reflexivity|lia].
  - intros x Hx. apply count_buckets_le; assumption.
  - apply buckets_end. assumption.
Qed.

(** Witness for [months_partition]: the range [2024-01-25 ..= 2024-03-10]. *)
Lemma months_partition_witness :
  exists bs, months (mkDate 2024 1 25) (mkDate 2024 3 10) = Some bs /\
    (forall n a1 b1 a2 b2, nth_error bs n = Some (a1, b1) ->
       nth_error bs (S n) = Some (a2, b2) -> pred_opt a2 = Some b1) /\
    (forall x, valid x -> le (mkDate 2024 1 25) x = true -> le x (mkDate 2024 3 10) = true ->
       List.length (filter (in_bucket x) bs) = 1%nat) /\
    (forall x, valid x -> (List.length (filter (in_bucket x) bs) <= 1)%nat) /\
    (forall r, In r bs -> le (snd r) (mkDate 2024 3 10) = true).
Proof.
  apply months_partition.
  - unfold valid; vm_compute; repeat split; discriminate.
  - unfold valid; vm_compute; repeat split; discriminate.
  - reflexivity.
  - vm_compute. intros [_ H]. discriminate.
Defined.

(** C6: when the scan range is driven by [history_days], the computed range
    ends at today's date and starts [history_days] days earlier; when that
    start falls on a day of the month greater than 1 it is moved to the first
    day of the following month.  With [history_days = 45] on 2024-03-10 the
    range is [2024-02-01 ..= 2024-03-10]. *)
Theorem scan_range_history today hd s e :
  valid today -> scan_range today hd = Some (s, e) ->
  e = today /\
  (exists s0, sub_days today (N.to_nat hd) = Some s0 /\
     (day s0 <= 1 -> s = s0) /\
     (1 < day s0 ->
        s = if month s0 <? 12 then mkDate (year s0) (month s0 + 1) 1
            else mkDate (year s0 + 1) 1 1)) /\
  scan_range (mkDate 2024 3 10) (history_days (Some 45%N)) =
    Some (mkDate 2024 2 1, mkDate 2024 3 10).
Proof.
  intros Hv H. split; [|split; [|vm_compute; reflexivity]].
  - unfold scan_range in H.
    destruct (sub_days today (N.to_nat hd)) as [s0|]; [|discriminate].
    destruct (1 <? day s0); [|injection H as _ <-; reflexivity].
    destruct (add_months s0 1) as [s1|]; [|discriminate].
    destruct (sub_days s1 _); [|discriminate].
    injection H as _ <-. reflexivity.
  - unfold scan_range in H.
    destruct (sub_days today (N.to_nat hd)) as [s0|] eqn:Hs0; [|discriminate].
    exists s0. split; [reflexivity|].
    pose proof (sub_days_valid _ _ _ Hv Hs0) as [_ [Hm _]].
    split; intros Hd.
    + destruct (Z.ltb_spec 1 (day s0)); [lia|]. injection H as <- _. reflexivity.
    + destruct (Z.ltb_spec 1 (day s0)); [|lia].
      destruct (add_months s0 1) as [s1|] eqn:Hs1; [|discriminate].
      rewrite (round_up_first s0 Hd s1 Hs1) in H.
      injection H as <- _. apply first_of_next. exact Hm.
Qed.

(** Witness for [scan_range_history]: 2024-03-10 with 45 days of history. *)
Lemma scan_range_history_witness :
  valid (mkDate 2024 3 10) /\
  scan_range (mkDate 2024 3 10) 45 = Some (mkDate 2024 2 1, mkDate 2024 3 10) /\
  (mkDate 2024 3 10 = mkDate 2024 3 10 /\
  (exists s0, sub_days (mkDate 2024 3 10) (N.to_nat 45) = Some s0 /\
     (day s0 <= 1 -> mkDate 2024 2 1 = s0) /\
     (1 < day s0 ->
        mkDate 2024 2 1 = if month s0 <? 12 then mkDate (year s0) (month s0 + 1) 1
                          else mkDate (year s0 + 1) 1 1)) /\
  scan_range (mkDate 2024 3 10) (history_days (Some 45%N)) =
    Some (mkDate 2024 2 1, mkDate 2024 3 10)).
Proof.
  split; [unfold valid; vm_compute; repeat split; discriminate|].
  split; [vm_compute; reflexivity|].
  apply scan_range_history.
  - unfold valid; vm_compute; repeat split; discriminate.
  - vm_compute. reflexivity.
Defined.

End Claims.

(** ** Claims about the job pool *)

Module PoolClaims.
Import Pool PoolFacts.
Local Open Scope nat_scope.

(** C1 (counterexample).  Once the only handle has been dropped, a job that
    is still in the channel keeps [run] going: in the state below no handle
    exists and the in-flight set is empty, yet no branch of the loop returns
    [Ok].  Moreover a task that panicked makes [run] return an error
    ([JoinError]) although no job returned an error. *)
Lemma pool_queued_job_delays_return :
  let w0 := mkWorld 0 [0] [] false 1 1 true in
  reachable w0 /\ senders w0 = 0 /\ tasks w0 = [] /\
  (forall b, iteration w0 b <> Return RunOk) /\
  iteration w0 PullJob = Continue (mkWorld 0 [] [mkTask 0 None] false 1 0 true) /\
  (let w1 := mkWorld 0 [] [mkTask 0 (Some JobPanicked)] false 1 1 true in
   reachable w1 /\ iteration w1 (Reap 0) = Return (RunErr JoinErr)).
Proof.
  cbv zeta. split; [apply reach_queued|].
  split; [reflexivity|]. split; [reflexivity|].
  split; [intros [|[|i]]; discriminate|].
  split; [reflexivity|].
  split; [|reflexivity].
  apply (reach_env (mkWorld 0 [] [mkTask 0 None] false 1 0 true)).
  - apply (reach_iter (mkWorld 0 [0] [] false 1 1 true) PullJob); [apply reach_queued|reflexivity].
  - exact (task_finish (mkWorld 0 [] [mkTask 0 None] false 1 0 true) 0 0 JobPanicked eq_refl).
Qed.

(** C1 (amended).  For a pool with [concurrency >= 1], in every state of a
    run: [run] returns [Ok] only when no handle exists, the channel is empty
    and the in-flight set is empty; from such a state the rest of the program
    can do nothing and [run] returns [Ok] within two iterations; [run]
    returns an error only when it reaps a finished task whose job returned
    that error ([TaskErr]) or panicked ([JoinErr]), and reaping such a task
    always returns; reaping a successful task goes on; after [run] has
    returned the receiver is gone and every spawn fails. *)
Theorem pool_run_returns (w : World) (Hw : reachable w) (Hc : 1 <= concurrency w) :
  (forall b, iteration w b = Return RunOk ->
     senders w = 0 /\ queue w = [] /\ tasks w = []) /\
  (senders w = 0 -> queue w = [] -> tasks w = [] ->
     (forall w', ~ env_step w w') /\
     (forall b r, iteration w b = Return r -> r = RunOk) /\
     (iteration w PullJob = Return RunOk \/ iteration w PullJob = Continue (terminate w)) /\
     (forall b w', iteration w b = Continue w' -> forall b', iteration w' b' = Return RunOk)) /\
  (forall b err, iteration w b = Return (RunErr err) ->
     exists i h o, b = Reap i /\ nth_error (tasks w) i = Some (mkTask h (Some o)) /\
       ((exists e, o = JobErr e /\ err = TaskErr e) \/ (o = JobPanicked /\ err = JoinErr))) /\
  (forall i h e, nth_error (tasks w) i = Some (mkTask h (Some (JobErr e))) ->
     iteration w (Reap i) = Return (RunErr (TaskErr e))) /\
  (forall i w', iteration w (Reap i) = Continue w' ->
     exists h, nth_error (tasks w) i = Some (mkTask h (Some JobOk))) /\
  (forall r k, iteration w PullJob = Return r \/ (exists i, iteration w (Reap i) = Return r) ->
     handle_spawn (drop_pool w) k = None).
Proof.
  destruct (reachable_inv w Hw) as [Hb Ht Hp Ho].
  split; [|split; [|split; [|split; [|split]]]].
  - intros b H. destruct (iteration_return_ok w b H) as [Eht Ets].
    destruct (Ht Eht) as [Hs [Hq _]]. auto.
  - intros Hs Hq Hts.
    assert (Hperm : permits w = concurrency w).
    { unfold count_running in Hp. rewrite Hts in Hp. cbn in Hp. lia. }
    assert (Hterm_ok : forall w', has_terminated w' = true -> tasks w' = [] ->
              forall b', iteration w' b' = Return RunOk).
    { intros w' E1 E2 b'. unfold iteration. rewrite E1, E2. reflexivity. }
    assert (Hpull : iteration w PullJob = Return RunOk \/
                    iteration w PullJob = Continue (terminate w)).
    { destruct (has_terminated w) eqn:Eht; [left; apply Hterm_ok; assumption|].
      right. unfold iteration, next_job. rewrite Eht, Hts, Hq, Hs.
      cbn [List.length andb negb].
      destruct (Nat.ltb_spec 0 (concurrency w)); [|lia].
      destruct (Nat.eqb_spec (permits w) 0); [lia|]. reflexivity. }
    assert (Hreap : forall i, iteration w (Reap i) = Return RunOk \/
                              iteration w (Reap i) = Pending).
    { intros i. destruct (has_terminated w) eqn:Eht; [left; apply Hterm_ok; assumption|].
      right. unfold iteration. rewrite Eht, Hts. cbn [List.length andb negb Nat.eqb].
      destruct (Nat.ltb_spec 0 (concurrency w)); [reflexivity|lia]. }
    split; [|split; [|split]].
    + intros w' Hstep. unfold senders in Hs.
      destruct Hstep as [w k w' He _ | w He | w He | w i h k w' Hi _ _
                         | w i h Hi _ | w i h Hi _ | w i h o Hi];
        try lia; rewrite Hts in Hi; destruct i; discriminate.
    + intros [|i] r H.
      * destruct Hpull as [E|E]; rewrite E in H; [injection H as <-; reflexivity | discriminate].
      * destruct (Hreap i) as [E|E]; rewrite E in H; [injection H as <-; reflexivity | discriminate].
    + exact Hpull.
    + intros [|i] w' H b'.
      * destruct Hpull as [E|E]; rewrite E in H; [discriminate|].
        injection H as <-. apply Hterm_ok; [reflexivity | exact Hts].
      * destruct (Hreap i) as [E|E]; rewrite E in H; discriminate.
  - apply iteration_return_err.
  - intros i h e Hi. unfold iteration. cbv zeta.
    assert (Hlen : List.length (tasks w) <> 0).
    { intros Hz. apply length_zero_iff_nil in Hz. rewrite Hz in Hi. destruct i; discriminate. }
    destruct (Nat.eqb_spec (List.length (tasks w)) 0) as [|_]; [contradiction|].
    rewrite andb_false_r. cbn [negb]. rewrite andb_false_r, Hi. reflexivity.
  - intros i w' H. destruct (iteration_reap_continue w i w' H) as [h [Hi _]]. eauto.
  - intros r k _. reflexivity.
Qed.

(** Witness for [pool_run_returns]: a pool with one permit whose only handle
    was dropped while one job was queued. *)
Lemma pool_run_returns_witness :
  iteration (mkWorld 0 [] [mkTask 0 (Some (JobErr 7))] false 1 1 true) (Reap 0) =
    Return (RunErr (TaskErr 7)).
Proof.
  assert (Hw : reachable (mkWorld 0 [] [mkTask 0 (Some (JobErr 7))] false 1 1 true)).
  { apply (reach_env (mkWorld 0 [] [mkTask 0 None] false 1 0 true)).
    - apply (reach_iter (mkWorld 0 [0] [] false 1 1 true) PullJob); [apply reach_queued|reflexivity].
    - exact (task_finish (mkWorld 0 [] [mkTask 0 None] false 1 0 true) 0 0 (JobErr 7) eq_refl). }
  destruct (pool_run_returns _ Hw (le_n 1)) as [_ [_ [_ [H _]]]].
  apply (H 0 0 7). reflexivity.
Defined.

(** C2.  In every state of a run, the in-flight set holds at most
    [concurrency] tasks; an iteration takes a job from the channel only
    through the pulling branch, only when fewer than [concurrency] tasks are
    in flight, and the job joins the in-flight set. *)
Theorem pool_concurrency_bound (w : World) (Hw : reachable w) :
  List.length (tasks w) <= concurrency w /\
  forall b w', iteration w b = Continue w' -> queue w' <> queue w ->
    b = PullJob /\ List.length (tasks w) < concurrency w /\
    exists j, queue w = j :: queue w' /\ tasks w' = tasks w ++ [mkTask j None].
Proof.
  destruct (reachable_inv w Hw) as [Hb _ _ _].
  split; [exact Hb|].
  intros [|i] w' H Hq.
  - destruct (iteration_pull_continue w w' H) as [Hlt [_ [Hj | ->]]].
    + auto.
    + exfalso. apply Hq. reflexivity.
  - destruct (iteration_reap_continue w i w' H) as [h [_ ->]].
    exfalso. apply Hq. reflexivity.
Qed.

(** Witness for [pool_concurrency_bound]: two permits and one job queued;
    the loop pulls the job while no task runs, and afterwards one task is
    in flight. *)
Lemma pool_concurrency_bound_witness :
  List.length (tasks (mkWorld 0 [] [mkTask 0 None] false 2 1 true)) <= 2 /\
  (PullJob = PullJob /\ List.length (tasks (mkWorld 0 [0] [] false 2 2 true)) < 2 /\
   exists j, [0] = j :: [] /\ [mkTask 0 None] = [] ++ [mkTask j None]).
Proof.
  split.
  - exact (proj1 (pool_concurrency_bound _
             (reach_iter (mkWorld 0 [0] [] false 2 2 true) PullJob _ (reach_queued 2) eq_refl))).
  - exact (proj2 (pool_concurrency_bound _ (reach_queued 2)) PullJob
             (mkWorld 0 [] [mkTask 0 None] false 2 1 true) eq_refl ltac:(discriminate)).
Defined.

(** C10.  In every state of a run of a pool created with [JobPool::new(0)],
    both branches of the [select!] are disabled, so [run] panics; in every
    state of a run of a pool with [concurrency >= 1], no iteration panics. *)
Theorem pool_zero_concurrency_panics :
  (forall w b, reachable w -> concurrency w = 0 -> iteration w b = Panic) /\
  (forall w b, reachable w -> 1 <= concurrency w -> iteration w b <> Panic).
Proof.
  split.
  - intros w b Hw Hc. destruct (reachable_inv w Hw) as [Hb Ht _ _].
    assert (Hts : tasks w = []) by (apply length_zero_iff_nil; lia).
    destruct (has_terminated w) eqn:Eht; [destruct (Ht eq_refl) as [_ [_ ?]]; lia|].
    unfold iteration. rewrite Eht, Hts, Hc. reflexivity.
  - intros w b Hw Hc. unfold iteration. cbv zeta.
    destruct (has_terminated w) eqn:Eht; cbn [andb negb].
    + destruct (List.length (tasks w) =? 0); [discriminate|].
      rewrite !andb_false_r. cbn [andb negb].
      destruct b as [|i]; [discriminate|].
      destruct (nth_error (tasks w) i) as [[h [[|e|]|]]|]; discriminate.
    + rewrite andb_true_r.
      destruct (Nat.ltb_spec (List.length (tasks w)) (concurrency w));
      destruct (Nat.eqb_spec (List.length (tasks w)) 0); cbn [negb andb]; try lia;
      destruct b as [|i]; try discriminate;
      try (destruct (next_job w) as [[[j|] w']|]; discriminate);
      destruct (nth_error (tasks w) i) as [[h [[|e|]|]]|]; discriminate.
Qed.

(** Witness for [pool_zero_concurrency_panics]: [JobPool::new(0)] panics at
    once, [JobPool::new(1)] does not. *)
Lemma pool_zero_concurrency_panics_witness :
  iteration (new 0) PullJob = Panic /\ iteration (new 1) PullJob <> Panic.
Proof.
  destruct pool_zero_concurrency_panics as [H0 H1]. split.
  - apply H0; [apply reach_new | reflexivity].
  - apply H1; [apply reach_new | cbn; lia].
Defined.

End PoolClaims.

(** ** Claims about the stores and the per-account jobs *)

Module FileClaims.
Import Date Fs Store StoreFacts SyncJobs.
Local Open Scope string_scope.

(** C5 (code bug).  GoCardless [store_token] writes the token file in
    place: during every store a reader of the file sees it empty.  The
    TrueLayer [write_auth_data] creates its temp file in the working
    directory: with the token at [/etc/tl/token.json] and the process in
    [/home/u], the temp file goes to [/home/u], while [write_state] and
    [write_jsons_atomically] would put it next to the target. *)
Theorem token_stores_not_atomic :
  (forall cwd fs path buf, In (Some EmptyString) (observe cwd fs (store_token path buf) path)) /\
  (let cwd := ["/"; "home"; "u"]%string in
   let target := ["/"; "etc"; "tl"; "token.json"]%string in
   resolve cwd (write_auth_data_dir target) = ["/"; "home"; "u"]%string /\
   parent target = Some ["/"; "etc"; "tl"]%string /\
   write_state_dir target = ["/"; "etc"; "tl"]%string /\
   write_jsons_dir target = ["/"; "etc"; "tl"]%string).
Proof.
  split.
  - intros cwd fs path buf. cbn [store_token observe apply_op]. unfold upd.
    rewrite path_eqb_refl. right. left. reflexivity.
  - repeat split; reflexivity.
Qed.

(** C7.  The job of a month writes nothing for an empty answer or an error
    of the request.  For a non-empty answer it writes the file
    [accounts/<account>/<%Y-%m of the month's start>.jsons] under the
    target directory through [write_jsons_atomically]: when the job returns
    [Ok] the file holds the transactions in reverse order, one JSON document
    per line, and was replaced in one step; when a call of the store fails,
    the file keeps its contents.  When every call succeeds, the job returns
    [Ok]. *)
Theorem account_tx_month_file cwd fs io tmp target a m txs :
  account_tx io tmp target a m (Some []) = (JOk, []) /\
  account_tx io tmp target a m None = (JErr, []) /\
  tx_path target a m = (target ++ ["accounts"; account_dir_name a; ym_name (fst m)])%list /\
  (txs <> [] ->
   resolve cwd (join (write_jsons_dir (tx_path target a m)) tmp) <> resolve cwd (tx_path target a m) ->
   (forall r ops, account_tx io tmp target a m (Some txs) = (r, ops) ->
      replaces cwd fs ops (tx_path target a m) (join (write_jsons_dir (tx_path target a m)) tmp)
        (jsons (rev txs)) r) /\
   (Forall (fun s => has_newline s = false) txs ->
      exists ops, account_tx no_faults tmp target a m (Some txs) = (JOk, ops))).
Proof.
  split; [reflexivity|]. split; [reflexivity|]. split.
  { unfold tx_path, account_file, join. rewrite <- !app_assoc. reflexivity. }
  intros Hne Htmp. destruct txs as [|x txs]; [contradiction|]. split.
  - intros r ops H.
    exact (proj1 (write_jsons_atomically_spec cwd fs io tmp (tx_path target a m) (rev (x :: txs))
                    r ops Htmp H)).
  - intros Hnl. apply write_jsons_atomically_no_faults. apply Forall_rev. exact Hnl.
Qed.

(** Witness for [account_tx_month_file]: February 2024 of account [acc1],
    two transactions; once with every call succeeding, once with the
    [persist] (call [6]) failing over an old file. *)
Lemma account_tx_month_file_witness :
  tx_path ["/"; "out"]%string (mkAccount "acc1" None None) (mkDate 2024 2 1, mkDate 2024 2 29)
    = ["/"; "out"; "accounts"; "acc1"; "2024-02.jsons"]%string /\
  (exists ops,
     account_tx no_faults ".tmp1" ["/"; "out"]%string (mkAccount "acc1" None None)
       (mkDate 2024 2 1, mkDate 2024 2 29) (Some ["t2"; "t1"]%string) = (JOk, ops) /\
     run_ops ["/"]%string (fun _ => None) ops ["/"; "out"; "accounts"; "acc1"; "2024-02.jsons"]%string
       = Some (jsons ["t1"; "t2"]%string)) /\
  (exists ops,
     account_tx (fail_at 6) ".tmp1" ["/"; "out"]%string (mkAccount "acc1" None None)
       (mkDate 2024 2 1, mkDate 2024 2 29) (Some ["t2"; "t1"]%string) = (JErr, ops) /\
     run_ops ["/"]%string
       (fun q => if path_eqb q ["/"; "out"; "accounts"; "acc1"; "2024-02.jsons"]%string
                 then Some "old"%string else None)
       ops ["/"; "out"; "accounts"; "acc1"; "2024-02.jsons"]%string = Some "old"%string).
Proof.
  split; [reflexivity|]. split.
  - destruct (account_tx_month_file ["/"]%string (fun _ => None) no_faults ".tmp1" ["/"; "out"]%string
                (mkAccount "acc1" None None) (mkDate 2024 2 1, mkDate 2024 2 29) ["t2"; "t1"]%string)
      as [_ [_ [_ H]]].
    destruct (H ltac:(discriminate) ltac:(vm_compute; discriminate)) as [Hr Hok].
    destruct (Hok ltac:(repeat constructor)) as [ops E].
    exists ops. split; [exact E|]. exact (proj1 (proj2 (Hr JOk ops E))).
  - destruct (account_tx_month_file ["/"]%string
                (fun q => if path_eqb q ["/"; "out"; "accounts"; "acc1"; "2024-02.jsons"]%string
                          then Some "old"%string else None)
                (fail_at 6) ".tmp1" ["/"; "out"]%string
                (mkAccount "acc1" None None) (mkDate 2024 2 1, mkDate 2024 2 29) ["t2"; "t1"]%string)
      as [_ [_ [_ H]]].
    destruct (H ltac:(discriminate) ltac:(vm_compute; discriminate)) as [Hr _].
    eexists. split; [reflexivity|]. exact (proj1 (proj2 (Hr JErr _ eq_refl))).
Defined.

(** C8 (code bug).  The standing-orders job and the direct-debits job of an
    account write the same file, [accounts/<account>/standing-orders.jsons]:
    when every call succeeds both return [Ok], and after both ran the file
    holds the direct debits; whenever both return [Ok] the file holds the
    direct debits; and the direct-debits job writes no other file. *)
Theorem direct_debits_same_file cwd fs io1 io2 tmp target a so dd :
  let p := account_file target a "standing-orders.jsons" in
  resolve cwd (join (write_jsons_dir p) tmp) <> resolve cwd p ->
  (Forall (fun s => has_newline s = false) so ->
   Forall (fun s => has_newline s = false) dd ->
   exists ops1 ops2,
     account_standing_orders no_faults tmp target a (Some so) = (JOk, ops1) /\
     account_direct_debits no_faults tmp target a (Some dd) = (JOk, ops2) /\
     run_ops cwd fs (ops1 ++ ops2)%list (resolve cwd p) = Some (jsons dd) /\
     (forall q, q <> resolve cwd p -> q <> resolve cwd (join (write_jsons_dir p) tmp) ->
        run_ops cwd fs ops2 q = fs q)) /\
  (forall ops1 ops2,
     account_standing_orders io1 tmp target a (Some so) = (JOk, ops1) ->
     account_direct_debits io2 tmp target a (Some dd) = (JOk, ops2) ->
     run_ops cwd fs (ops1 ++ ops2)%list (resolve cwd p) = Some (jsons dd) /\
     (forall q, q <> resolve cwd p -> q <> resolve cwd (join (write_jsons_dir p) tmp) ->
        run_ops cwd fs ops2 q = fs q)).
Proof.
  intros p Htmp.
  assert (G : forall i2 ops1 ops2, write_jsons_atomically i2 tmp p dd = (JOk, ops2) ->
            run_ops cwd fs (ops1 ++ ops2)%list (resolve cwd p) = Some (jsons dd) /\
            (forall q, q <> resolve cwd p -> q <> resolve cwd (join (write_jsons_dir p) tmp) ->
               run_ops cwd fs ops2 q = fs q)).
  { intros i2 ops1 ops2 H2.
    destruct (write_jsons_atomically_spec cwd (run_ops cwd fs ops1) i2 tmp p dd JOk ops2 Htmp H2)
      as [[_ [R2 _]] _].
    destruct (write_jsons_atomically_spec cwd fs i2 tmp p dd JOk ops2 Htmp H2) as [[_ [_ O2]] _].
    split; [rewrite run_ops_app; exact R2 | exact O2]. }
  split.
  - intros Hso Hdd.
    destruct (write_jsons_atomically_no_faults tmp p so Hso) as [ops1 H1].
    destruct (write_jsons_atomically_no_faults tmp p dd Hdd) as [ops2 H2].
    exists ops1, ops2. split; [exact H1|]. split; [exact H2|]. exact (G no_faults ops1 ops2 H2).
  - intros ops1 ops2 _ H2. exact (G io2 ops1 ops2 H2).
Qed.

(** Witness for [direct_debits_same_file]: account [acc1]. *)
Lemma direct_debits_same_file_witness :
  exists ops1 ops2,
    account_standing_orders no_faults ".tmp1" ["/"; "out"]%string (mkAccount "acc1" None None)
      (Some ["so"]%string) = (JOk, ops1) /\
    account_direct_debits no_faults ".tmp1" ["/"; "out"]%string (mkAccount "acc1" None None)
      (Some ["dd"]%string) = (JOk, ops2) /\
    run_ops ["/"]%string (fun _ => None) (ops1 ++ ops2)%list
      (resolve ["/"]%string ["/"; "out"; "accounts"; "acc1"; "standing-orders.jsons"]%string)
      = Some (jsons ["dd"]%string) /\
    (forall q, q <> ["/"; "out"; "accounts"; "acc1"; "standing-orders.jsons"]%string ->
       q <> ["/"; "out"; "accounts"; "acc1"; ".tmp1"]%string ->
       run_ops ["/"]%string (fun _ => None) ops2 q = None).
Proof.
  apply (direct_debits_same_file ["/"]%string (fun _ => None) no_faults no_faults ".tmp1"
           ["/"; "out"]%string (mkAccount "acc1" None None) ["so"]%string ["dd"]%string).
  - vm_compute. discriminate.
  - repeat constructor.
  - repeat constructor.
Defined.

End FileClaims.

(** ** Claims about the tokens *)

Module AuthClaims.
Import GcAuth TlAuth TlAuthFacts.
Local Open Scope string_scope.

(** The token of the examples: expired at [100], refresh token [r1]. *)
Definition tl_d0 : AuthData := mkAuthData "a1" 100 "Bearer" "r1" None "https://cb" None.

(** An answer to the refresh request, rotating the refresh token. *)
Definition tl_r (secs : Z) : FetchAccessTokenResponse := mkResponse "a2" secs "Bearer" "r2" None.

(** C4 (counterexample).  A successful refresh of the TrueLayer client
    stores the refresh token of the answer, not the one held before. *)
Lemma refresh_replaces_refresh_token :
  exists s,
    run_trace (init None (Some tl_d0))
      [Acquire TA 150; ReadFile TA; Refresh TA (Some (tl_r 3600)); WriteFile TA true] = Some s /\
    option_map refresh_token (read_auth_data (file s)) = Some "r2"%string /\
    refresh_token tl_d0 = "r1"%string.
Proof. eexists. split; [reflexivity|]. split; reflexivity. Qed.

(** C4 (amended).  GoCardless: [load_token] refreshes an expired access
    token, when [authed_at + access_expires] is an instant [DateTime<Utc>]
    can hold, into a token with the access string of the answer, the access
    expiry [authed_at + access_expires], and the refresh string and refresh
    expiry held before; it stores it, and loading before the new access
    expiry returns exactly that token.  TrueLayer: [update_from_response]
    takes the access token, token type, scope and refresh token of the
    answer, sets [expires_at] to [fetched_at + expires_in], keeps
    [authed_at]; a successful write stores it in the cache and in the file,
    from which it reads back. *)
Theorem token_refresh_persisted :
  (forall tok now authed_at r,
     access_expires tok <= now -> - MAX_SECS <= resp_access_expires r <= MAX_SECS ->
     MIN_INSTANT <= authed_at + resp_access_expires r <= MAX_INSTANT ->
     let tok' := mkToken (resp_access r) (authed_at + resp_access_expires r)
                   (refresh tok) (refresh_expires tok) in
     load_token (Holds tok) now authed_at (Some r) WOk = (Some (Some tok'), Holds tok') /\
     (forall now2 authed2 up2 wr2, now2 < access_expires tok' ->
        load_token (Holds tok') now2 authed2 up2 wr2 = (Some (Some tok'), Holds tok'))) /\
  (forall d r now nd, update_from_response d r now (redirect_uri d) = Some nd ->
     access_token nd = r_access_token r /\ expires_at nd = now + expires_in r /\
     refresh_token nd = r_refresh_token r /\ token_type nd = r_token_type r /\
     scope nd = r_scope r /\ redirect_uri nd = redirect_uri d /\ authed_at nd = authed_at d) /\
  (forall s t nd s', get_pc s t = PWrite nd -> step s (WriteFile t true) = Some s' ->
     read_auth_data (file s') = Some nd /\ cache s' = Some nd).
Proof.
  split; [|split].
  - intros tok now authed_at r Hexp Hs Hi tok'. split.
    + unfold load_token, refreshed.
      rewrite (proj2 (Z.leb_le _ _) Hexp), (proj2 (try_seconds_spec _ _) (conj eq_refl Hs)),
        (proj2 (add_instant_spec _ _ _) (conj eq_refl Hi)).
      reflexivity.
    + intros now2 authed2 up2 wr2 Hlt. unfold load_token.
      rewrite (proj2 (Z.leb_gt _ _) Hlt). reflexivity.
  - intros d r now nd H. pose proof (update_from_response_expires _ _ _ _ _ H) as Hx.
    unfold update_from_response in H.
    destruct (try_seconds (expires_in r)); [|discriminate].
    destruct (add_instant now z); [|discriminate].
    injection H as <-. cbn in Hx |- *. repeat split; auto.
  - intros s t nd s' Hp Hs. unfold step in Hs.
    destruct (holds_lock s t); [|discriminate]. rewrite Hp in Hs. injection Hs as <-.
    unfold finish. rewrite set_pc_cache. destruct t; split; reflexivity.
Qed.

(** Witness for [token_refresh_persisted]: a GoCardless token that expired
    at [100], refreshed at [210] with an access token valid for an hour. *)
Lemma token_refresh_persisted_witness :
  load_token (Holds (mkToken "a1" 100 "r1" 99999)) 200 210 (Some (mkRefreshResp "a2" 3600)) WOk
    = (Some (Some (mkToken "a2" (210 + 3600) "r1" 99999)), Holds (mkToken "a2" (210 + 3600) "r1" 99999)).
Proof.
  destruct token_refresh_persisted as [H _].
  refine (proj1 (H (mkToken "a1" 100 "r1" 99999) 200 210 (mkRefreshResp "a2" 3600) _ _ _)).
  - cbn. lia.
  - cbn. unfold MAX_SECS. lia.
  - split; vm_compute; discriminate.
Defined.




End AuthClaims.

(** * Further properties of the code *)

Module DigitsFacts.
Import Date SyncJobs Digits StoreFacts.

Lemma digit_char k : (k < 10)%nat ->
  nat_of_ascii (ascii_of_nat (48 + k)) = (48 + k)%nat.
Proof. intros H. apply Ascii.nat_ascii_embedding. lia. Qed.

Lemma dval_app : forall s t a, dval a (String.append s t) = dval (dval a s) t.
Proof. induction s as [|c s IH]; intros t a; cbn; [reflexivity|]. apply IH. Qed.

Lemma all_digits_app : forall s t,
  all_digits (String.append s t) = all_digits s && all_digits t.
Proof. induction s as [|c s IH]; intros t; cbn; [reflexivity|]. rewrite IH, andb_assoc. reflexivity. Qed.

Lemma dec_aux_S f n acc :
  dec_aux (S f) n acc =
  if n <? 10 then String (ascii_of_nat (48 + Z.to_nat (n mod 10))) acc
  else dec_aux f (n / 10) (String (ascii_of_nat (48 + Z.to_nat (n mod 10))) acc).
Proof. reflexivity. Qed.

Lemma dec_aux_spec : forall f n acc, 0 <= n < 10 ^ Z.of_nat (S f) ->
  exists s, dec_aux (S f) n acc = String.append s acc /\ s <> EmptyString /\
            all_digits s = true /\ dval 0 s = n.
Proof.
  induction f as [|f IH]; intros n acc Hn.
  - cbn [Z.of_nat Pos.of_succ_nat] in Hn. change (10 ^ Z.pos 1) with 10 in Hn.
    cbn [dec_aux]. destruct (Z.ltb_spec n 10); [|lia].
    exists (String (ascii_of_nat (48 + Z.to_nat (n mod 10))) EmptyString).
    split; [reflexivity|]. split; [discriminate|].
    rewrite Z.mod_small by lia.
    cbn [all_digits dval]. unfold is_digit. rewrite digit_char by lia.
    split.
    + rewrite andb_true_r. apply andb_true_intro; split; apply Nat.leb_le; lia.
    + lia.
  - rewrite dec_aux_S.
    set (acc' := String (ascii_of_nat (48 + Z.to_nat (n mod 10))) acc).
    pose proof (Z.mod_pos_bound n 10 ltac:(lia)) as Hm.
    assert (Hd : nat_of_ascii (ascii_of_nat (48 + Z.to_nat (n mod 10))) = (48 + Z.to_nat (n mod 10))%nat)
      by (apply digit_char; lia).
    assert (Hdig : is_digit (ascii_of_nat (48 + Z.to_nat (n mod 10))) = true).
    { unfold is_digit. rewrite Hd.
      apply andb_true_intro; split; apply Nat.leb_le; lia. }
    destruct (Z.ltb_spec n 10).
    + exists (String (ascii_of_nat (48 + Z.to_nat (n mod 10))) EmptyString).
      split; [reflexivity|]. split; [discriminate|].
      cbn [all_digits dval]. rewrite Hdig, Hd. split; [reflexivity|].
      rewrite Z.mod_small by lia. lia.
    + destruct (IH (n / 10) acc') as [s [E [Hne [Ha Hv]]]].
      { split; [apply Z.div_pos; lia|].
        apply Z.div_lt_upper_bound; [lia|].
        replace (Z.of_nat (S (S f))) with (Z.succ (Z.of_nat (S f))) in Hn by lia.
        rewrite Z.pow_succ_r in Hn by lia. lia. }
      exists (String.append s (String (ascii_of_nat (48 + Z.to_nat (n mod 10))) EmptyString)).
      rewrite E. unfold acc'. split; [rewrite append_assoc; reflexivity|].
      split; [destruct s; [contradiction|discriminate]|].
      rewrite all_digits_app, Ha, dval_app, Hv. cbn [all_digits dval].
      rewrite Hdig, Hd. split; [reflexivity|].
      pose proof (Z.div_mod n 10 ltac:(lia)). lia.
Qed.

Lemma dec_spec n : 0 <= n < 10 ^ 20 ->
  dec n <> EmptyString /\ all_digits (dec n) = true /\ dval 0 (dec n) = n.
Proof.
  intros Hn. unfold dec.
  destruct (dec_aux_spec 19 n EmptyString) as [s [E [Hne [Ha Hv]]]]; [exact Hn|].
  rewrite E, append_empty. auto.
Qed.

Lemma zeros_spec : forall k a, all_digits (zeros k) = true /\ dval a (zeros k) = a * 10 ^ Z.of_nat k.
Proof.
  induction k as [|k IH]; intros a; cbn [zeros all_digits dval].
  - split; [reflexivity|]. cbn. lia.
  - destruct (IH (a * 10 + (Z.of_nat (nat_of_ascii "0"%char) - 48))) as [H1 H2].
    split; [exact H1|]. rewrite H2. change (Z.of_nat (nat_of_ascii "0"%char) - 48) with 0.
    rewrite Nat2Z.inj_succ, Z.pow_succ_r by lia. lia.
Qed.

Lemma pad_zero_spec w s :
  all_digits (pad_zero w s) = all_digits s /\ dval 0 (pad_zero w s) = dval 0 s /\
  (s <> EmptyString -> pad_zero w s <> EmptyString).
Proof.
  unfold pad_zero. destruct (zeros_spec (w - String.length s) 0) as [H1 H2].
  rewrite all_digits_app, dval_app, H1, H2. split; [reflexivity|]. split; [reflexivity|].
  intros Hs He. destruct (zeros (w - String.length s)); [|discriminate].
  cbn in He. contradiction.
Qed.

(** A non-empty digit string starts with a digit. *)
Lemma digits_head s : all_digits s = true -> s <> EmptyString ->
  exists c r, s = String c r /\ is_digit c = true.
Proof.
  destruct s as [|c r]; [contradiction|]. cbn. intros H _.
  apply andb_prop in H as [H _]. eauto.
Qed.

Lemma pad_dec n w : 0 <= n < 10 ^ 20 ->
  exists c r, pad_zero w (dec n) = String c r /\ is_digit c = true /\
              all_digits (pad_zero w (dec n)) = true /\ dval 0 (pad_zero w (dec n)) = n.
Proof.
  intros Hn. destruct (dec_spec n Hn) as [Hne [Ha Hv]].
  destruct (pad_zero_spec w (dec n)) as [Pa [Pv Pne]].
  destruct (digits_head (pad_zero w (dec n))) as [c [r [E Hc]]];
    [rewrite Pa; exact Ha | exact (Pne Hne) |].
  exists c, r. rewrite <- E. rewrite Pa, Pv. auto.
Qed.

Definition YBOUND : Z := 10 ^ 20.

Lemma fmt_Y_head y : Z.abs y < YBOUND ->
  exists c r, fmt_Y y = String c r /\ (is_digit c = true \/ c = "+"%char \/ c = "-"%char).
Proof.
  intros Hy. unfold YBOUND in Hy. unfold fmt_Y.
  destruct ((0 <=? y) && (y <? 10000)) eqn:E.
  - apply andb_prop in E as [E1 E2]. apply Z.leb_le in E1.
    destruct (pad_dec y 4) as [c [r [Ep [Hc _]]]]; [lia|]. rewrite Ep. eauto.
  - destruct (y <? 0); do 2 eexists; (split; [reflexivity|]); auto.
Qed.

Lemma plus_not_digit : is_digit "+"%char = false.
Proof. reflexivity. Qed.
Lemma minus_not_digit : is_digit "-"%char = false.
Proof. reflexivity. Qed.

Lemma fmt_Y_inj y1 y2 : Z.abs y1 < YBOUND -> Z.abs y2 < YBOUND -> fmt_Y y1 = fmt_Y y2 -> y1 = y2.
Proof.
  unfold YBOUND. intros H1 H2. unfold fmt_Y.
  destruct ((0 <=? y1) && (y1 <? 10000)) eqn:E1, ((0 <=? y2) && (y2 <? 10000)) eqn:E2.
  - apply andb_prop in E1 as [E1 _], E2 as [E2 _]. apply Z.leb_le in E1, E2.
    destruct (pad_dec y1 4) as [c1 [r1 [Ep1 [_ [_ V1]]]]]; [lia|].
    destruct (pad_dec y2 4) as [c2 [r2 [Ep2 [_ [_ V2]]]]]; [lia|].
    intros E. rewrite <- V1, <- V2, E. reflexivity.
  - apply andb_prop in E1 as [E1 _]. apply Z.leb_le in E1.
    destruct (pad_dec y1 4) as [c1 [r1 [Ep1 [Hc _]]]]; [lia|]. rewrite Ep1.
    intros E. destruct (y2 <? 0); injection E as Ec _; rewrite Ec in Hc; discriminate Hc.
  - apply andb_prop in E2 as [E2 _]. apply Z.leb_le in E2.
    destruct (pad_dec y2 4) as [c2 [r2 [Ep2 [Hc _]]]]; [lia|]. rewrite Ep2.
    intros E. destruct (y1 <? 0); injection E as Ec _; rewrite <- Ec in Hc; discriminate Hc.
  - destruct (pad_dec (Z.abs y1) 4) as [c1 [r1 [Ep1 [_ [_ V1]]]]]; [lia|].
    destruct (pad_dec (Z.abs y2) 4) as [c2 [r2 [Ep2 [_ [_ V2]]]]]; [lia|].
    destruct (Z.ltb_spec y1 0), (Z.ltb_spec y2 0); intros E; try discriminate E; injection E as E;
      assert (Ea : Z.abs y1 = Z.abs y2) by (rewrite <- V1, <- V2, E; reflexivity); lia.
Qed.

Lemma fmt_m_len m : 1 <= m <= 12 -> String.length (fmt_m m) = 2%nat.
Proof.
  intros Hm.
  assert (m = 1 \/ m = 2 \/ m = 3 \/ m = 4 \/ m = 5 \/ m = 6 \/ m = 7 \/ m = 8 \/
          m = 9 \/ m = 10 \/ m = 11 \/ m = 12) as Hc by lia.
  repeat destruct Hc as [-> | Hc]; try reflexivity. subst. reflexivity.
Qed.

Lemma fmt_m_inj m1 m2 : 1 <= m1 <= 12 -> 1 <= m2 <= 12 -> fmt_m m1 = fmt_m m2 -> m1 = m2.
Proof.
  intros H1 H2 E. unfold fmt_m in E.
  destruct (pad_dec m1 2) as [_ [_ [_ [_ [_ V1]]]]]; [lia|].
  destruct (pad_dec m2 2) as [_ [_ [_ [_ [_ V2]]]]]; [lia|].
  rewrite <- V1, <- V2, E. reflexivity.
Qed.

Lemma str_append_length (a b : string) : String.length (String.append a b) = (String.length a + String.length b)%nat.
Proof. induction a as [|c a IH]; cbn; [reflexivity|]. rewrite IH. reflexivity. Qed.

Lemma append_inj : forall (a b c d : string),
  String.append a b = String.append c d -> String.length a = String.length c -> a = c /\ b = d.
Proof.
  induction a as [|x a IH]; intros b c d E L; destruct c as [|y c]; cbn in *; try discriminate.
  - auto.
  - injection E as -> E. injection L as L. destruct (IH b c d E L) as [-> ->]. auto.
Qed.

(** [%Y-%m] followed by a fixed suffix determines the year and the month. *)
Lemma ym_inj y1 m1 y2 m2 sfx :
  Z.abs y1 < YBOUND -> Z.abs y2 < YBOUND -> 1 <= m1 <= 12 -> 1 <= m2 <= 12 ->
  String.append (fmt_Y y1) (String.append "-"%string (String.append (fmt_m m1) sfx)) =
  String.append (fmt_Y y2) (String.append "-"%string (String.append (fmt_m m2) sfx)) ->
  y1 = y2 /\ m1 = m2.
Proof.
  intros Hy1 Hy2 Hm1 Hm2 E.
  assert (L := f_equal String.length E). rewrite !str_append_length in L. cbn [String.length String.append] in L.
  rewrite !fmt_m_len in L by assumption.
  apply append_inj in E as [E1 E2]; [|lia].
  cbn [String.append] in E2. injection E2 as E2.
  apply append_inj in E2 as [E2 _]; [|rewrite !fmt_m_len by assumption; reflexivity].
  split; [apply fmt_Y_inj|apply fmt_m_inj]; assumption.
Qed.

End DigitsFacts.

Module SyncFacts.
Import Date Months DateFacts MonthsFacts MonthsCover Fs Store StoreFacts SyncJobs SyncMore Digits DigitsFacts.



Lemma valid_ybound d : valid d -> Z.abs (year d) < YBOUND.
Proof.
  intros [[H1 H2] _]. unfold YBOUND, MAX_YEAR, MIN_YEAR in *. cbn in H1, H2. lia.
Qed.

Lemma join_inj (p : Path) c1 c2 : join p c1 = join p c2 -> c1 = c2.
Proof. unfold join. intros H. apply app_inj_tail in H. destruct H as [_ H]. exact H. Qed.

(** The name of a month file starts with a digit or a sign. *)
Lemma ym_name_head d : valid d ->
  exists c r, ym_name d = String c r /\ (is_digit c = true \/ c = "+"%char \/ c = "-"%char).
Proof.
  intros Hd. destruct (fmt_Y_head (year d) (valid_ybound d Hd)) as [c [r [E Hc]]].
  exists c. eexists. split; [unfold ym_name; rewrite E; reflexivity | exact Hc].
Qed.

Lemma ym_name_inj d1 d2 : valid d1 -> valid d2 ->
  ym_name d1 = ym_name d2 <-> year d1 = year d2 /\ month d1 = month d2.
Proof.
  intros H1 H2. split.
  - intros E. unfold ym_name in E.
    apply (ym_inj _ _ _ _ ".jsons"%string) in E; [exact E|apply valid_ybound; assumption..|
      destruct H1 as [_ [? _]]; assumption | destruct H2 as [_ [? _]]; assumption].
  - intros [E1 E2]. unfold ym_name. rewrite E1, E2. reflexivity.
Qed.

(** A name that starts with a lowercase letter is no month file. *)
Lemma fixed_not_ym d c r : valid d ->
  (48 <= nat_of_ascii c -> 57 < nat_of_ascii c)%nat -> c <> "+"%char -> c <> "-"%char ->
  String c r <> ym_name d.
Proof.
  intros Hd Hn Hp Hm E. destruct (ym_name_head d Hd) as [c' [r' [E' Hc]]].
  rewrite E' in E. injection E as <- _.
  destruct Hc as [Hc | [Hc | Hc]]; [|contradiction..].
  unfold is_digit in Hc. apply andb_prop in Hc as [H1 H2].
  apply Nat.leb_le in H1, H2. specialize (Hn H1). lia.
Qed.

End SyncFacts.

Module SyncExtras.
Import Date Months DateFacts MonthsFacts MonthsCover Fs Store StoreFacts SyncJobs SyncMore Digits DigitsFacts SyncFacts.

End SyncExtras.

Module PathFacts.
Import Fs Store StoreFacts.

Lemma write_jsons_dir_join q d n : write_jsons_dir (join (join q d) n) = join q d.
Proof.
  unfold write_jsons_dir, parent, join.
  destruct q as [|x q]; [reflexivity|].
  cbn [app]. destruct (q ++ [d]) as [|y l] eqn:E; [destruct q; discriminate|].
  cbn [app]. change (x :: y :: l ++ [n]) with ((x :: y :: l) ++ [n]).
  rewrite removelast_last. reflexivity.
Qed.

(** Two different plain names in the same directory are different files. *)
Lemma resolve_join_neq cwd p c1 c2 :
  c1 <> c2 -> c1 <> "."%string -> c2 <> "."%string -> c1 <> "/"%string -> c2 <> "/"%string ->
  resolve cwd (join p c1) <> resolve cwd (join p c2).
Proof.
  intros H12 H1d H2d H1s H2s.
  assert (Ed : forall c, c <> "."%string -> String.eqb c "." = false)
    by (intros c Hc; apply String.eqb_neq; exact Hc).
  assert (Es : forall c, c <> "/"%string -> String.eqb c "/" = false)
    by (intros c Hc; apply String.eqb_neq; exact Hc).
  unfold resolve, join. rewrite !filter_app. cbn [filter].
  rewrite (Ed c1 H1d), (Ed c2 H2d). cbn [negb].
  destruct (filter (fun c => negb (String.eqb c ".")) p) as [|h t]; cbn [app].
  - rewrite (Es c1 H1s), (Es c2 H2s). intros H. apply app_inv_head in H.
    injection H. exact H12.
  - destruct (String.eqb h "/"); intros H.
    + change (h :: t ++ [c1] = h :: t ++ [c2]) in H. injection H as H.
      apply app_inj_tail in H. apply H12, H.
    + rewrite !app_comm_cons, !app_assoc in H. apply app_inj_tail in H. apply H12, H.
Qed.

(** The temp file of [write_jsons_atomically] for a file [q/d/n] is [q/d/tmp]. *)
Lemma temp_neq cwd q d n tmp :
  tmp <> n -> tmp <> "."%string -> tmp <> "/"%string -> n <> "."%string -> n <> "/"%string ->
  resolve cwd (join (write_jsons_dir (join (join q d) n)) tmp) <> resolve cwd (join (join q d) n).
Proof.
  intros. rewrite write_jsons_dir_join. apply resolve_join_neq; assumption.
Qed.

End PathFacts.

Module SyncExtras2.
Import Date Months DateFacts MonthsFacts MonthsCover Fs Store StoreFacts SyncJobs SyncMore Digits DigitsFacts SyncFacts PathFacts.


Local Ltac not_ym Hd :=
  apply (fixed_not_ym _ _ _ Hd); [intros _; vm_compute; lia | discriminate | discriminate].

(** The files of one account (or card) are distinct: two transaction jobs
    write the same file exactly when their months have the same year and
    month; no month file is the account, balance, pending or standing-orders
    file; no account file is a card file. *)
Theorem sync_files_distinct target a id m1 m2 :
  valid (fst m1) -> valid (fst m2) ->
  (tx_path target a m1 = tx_path target a m2 <->
     year (fst m1) = year (fst m2) /\ month (fst m1) = month (fst m2)) /\
  (card_file target id (ym_name (fst m1)) = card_file target id (ym_name (fst m2)) <->
     year (fst m1) = year (fst m2) /\ month (fst m1) = month (fst m2)) /\
  (forall n, In n ["account.jsons"; "balance.jsons"; "pending.jsons"; "standing-orders.jsons"]%string ->
     account_file target a n <> tx_path target a m1 /\
     card_file target id n <> card_file target id (ym_name (fst m1))) /\
  (forall a' id' x y, account_file target a' x <> card_file target id' y).
Proof.
  intros H1 H2. split; [|split; [|split]].
  - rewrite <- ym_name_inj by assumption. unfold tx_path, account_file. split.
    + apply join_inj.
    + intros ->. reflexivity.
  - rewrite <- ym_name_inj by assumption. unfold card_file. split.
    + apply join_inj.
    + intros ->. reflexivity.
  - intros n Hn. unfold tx_path, account_file, card_file.
    split; intros E; apply join_inj in E; revert E;
      destruct Hn as [<- | [<- | [<- | [<- | []]]]]; not_ym H1.
  - intros a' id' x y. unfold account_file, card_file, join.
    rewrite <- !app_assoc. intros H. apply app_inv_head in H. discriminate H.
Qed.

Theorem sync_files_distinct_witness :
  tx_path ["out"]%string (mkAccount "acc1" None None) (mkDate 2024 2 1, mkDate 2024 2 29)
    <> tx_path ["out"]%string (mkAccount "acc1" None None) (mkDate 2024 3 1, mkDate 2024 3 31) /\
  account_file ["out"]%string (mkAccount "acc1" None None) "balance.jsons"
    <> tx_path ["out"]%string (mkAccount "acc1" None None) (mkDate 2024 2 1, mkDate 2024 2 29).
Proof.
  assert (V1 : valid (fst (mkDate 2024 2 1, mkDate 2024 2 29)))
    by (unfold valid; vm_compute; repeat split; discriminate).
  assert (V2 : valid (fst (mkDate 2024 3 1, mkDate 2024 3 31)))
    by (unfold valid; vm_compute; repeat split; discriminate).
  destruct (sync_files_distinct ["out"]%string (mkAccount "acc1" None None) "c1"%string
              (mkDate 2024 2 1, mkDate 2024 2 29) (mkDate 2024 3 1, mkDate 2024 3 31) V1 V2)
    as [[Htx _] [_ [Hfix _]]].
  split.
  - intros E. apply Htx in E. destruct E as [_ E]. discriminate E.
  - apply (Hfix "balance.jsons"%string). cbn. auto.
Defined.

Lemma spawn_each_flat_map {A} (f : A -> option (list SyncJob)) g l :
  (forall x, f x = Some (g x)) -> spawn_each f l = Some (flat_map g l).
Proof.
  intros Hf. induction l as [|x l IH]; [reflexivity|].
  cbn. rewrite Hf, IH. reflexivity.
Qed.

(** With the months of the period known, [sync_accounts] spawns, for each
    account in order, its balance job, its pending job and one transaction
    job per month, and [sync_cards] the same for each card: [2 + months]
    jobs each.  Standing orders and direct debits are never spawned. *)
Theorem sync_spawned_jobs s e bs accs ids :
  months s e = Some bs ->
  sync_accounts accs s e =
    Some (flat_map (fun a => [JAccountBalance a; JAccountPending a] ++ map (JAccountTx a) bs) accs) /\
  sync_cards ids s e =
    Some (flat_map (fun id => [JCardBalance id; JCardPending id] ++ map (JCardTx id) bs) ids) /\
  List.length (flat_map (fun a => [JAccountBalance a; JAccountPending a] ++ map (JAccountTx a) bs) accs)
    = (List.length accs * (2 + List.length bs))%nat /\
  (forall a, ~ In (JAccountStandingOrders a)
                 (flat_map (fun a => [JAccountBalance a; JAccountPending a] ++ map (JAccountTx a) bs) accs) /\
             ~ In (JAccountDirectDebits a)
                 (flat_map (fun a => [JAccountBalance a; JAccountPending a] ++ map (JAccountTx a) bs) accs)).
Proof.
  intros Hm. split; [|split; [|split]].
  - apply spawn_each_flat_map. intros a. unfold account. rewrite Hm. cbn.
    rewrite app_nil_r. reflexivity.
  - apply spawn_each_flat_map. intros id. unfold card. rewrite Hm. reflexivity.
  - induction accs as [|a accs IH]; [reflexivity|].
    cbn [flat_map]. rewrite length_app, IH. cbn. rewrite length_map. lia.
  - intros a. split; intros H; apply in_flat_map in H as [a' [_ H]];
      cbn in H; destruct H as [H | [H | H]]; try discriminate H;
      apply in_map_iff in H as [m [H _]]; discriminate H.
Qed.

Theorem sync_spawned_jobs_witness :
  sync_accounts [mkAccount "acc1" None None] (mkDate 2024 1 15) (mkDate 2024 2 10) =
    Some [JAccountBalance (mkAccount "acc1" None None); JAccountPending (mkAccount "acc1" None None);
          JAccountTx (mkAccount "acc1" None None) (mkDate 2024 1 1, mkDate 2024 1 31);
          JAccountTx (mkAccount "acc1" None None) (mkDate 2024 2 1, mkDate 2024 2 10)].
Proof.
  destruct (sync_spawned_jobs (mkDate 2024 1 15) (mkDate 2024 2 10)
              [(mkDate 2024 1 1, mkDate 2024 1 31); (mkDate 2024 2 1, mkDate 2024 2 10)]
              [mkAccount "acc1" None None] []) as [H _].
  - vm_compute. reflexivity.
  - exact H.
Defined.

(** The balance and pending jobs of an account: on an upstream error they
    write nothing; otherwise each replaces its file
    [accounts/<account>/balance.jsons] or [pending.jsons] by the results,
    one per line (an empty file when there is none).  Whatever the calls of
    the store return, a reader sees the old or the new contents, the file
    holds the new contents exactly when the job returns [Ok] and keeps its
    old ones otherwise, and no other file but the temp file changes.  When
    every call succeeds, both jobs return [Ok]. *)
Theorem account_balance_pending_files cwd fs io tmp target a rs :
  tmp <> "balance.jsons"%string -> tmp <> "pending.jsons"%string ->
  tmp <> "."%string -> tmp <> "/"%string ->
  account_balance io tmp target a None = (JErr, []) /\
  account_pending io tmp target a None = (JErr, []) /\
  (forall r ops, account_balance io tmp target a (Some rs) = (r, ops) ->
     replaces cwd fs ops (account_file target a "balance.jsons")
       (join (write_jsons_dir (account_file target a "balance.jsons")) tmp) (jsons rs) r) /\
  (forall r ops, account_pending io tmp target a (Some rs) = (r, ops) ->
     replaces cwd fs ops (account_file target a "pending.jsons")
       (join (write_jsons_dir (account_file target a "pending.jsons")) tmp) (jsons rs) r) /\
  (Forall (fun s => has_newline s = false) rs ->
     (exists ops, account_balance no_faults tmp target a (Some rs) = (JOk, ops)) /\
     (exists ops, account_pending no_faults tmp target a (Some rs) = (JOk, ops))).
Proof.
  intros Hb Hp Hd Hs. split; [reflexivity|]. split; [reflexivity|].
  split; [|split; [|intros Hnl; split; apply write_jsons_atomically_no_faults; exact Hnl]].
  - intros r ops H.
    refine (proj1 (write_jsons_atomically_spec cwd fs io tmp
                     (account_file target a "balance.jsons") rs r ops _ H)).
    apply temp_neq; (assumption || discriminate).
  - intros r ops H.
    refine (proj1 (write_jsons_atomically_spec cwd fs io tmp
                     (account_file target a "pending.jsons") rs r ops _ H)).
    apply temp_neq; (assumption || discriminate).
Qed.

(** Witness for [account_balance_pending_files]: an empty answer gives an
    empty [balance.jsons] when every call succeeds, and a failing
    [persist] (call [2]) keeps the old file. *)
Theorem account_balance_pending_files_witness :
  (exists ops, account_balance no_faults ".tmp1" ["out"]%string (mkAccount "acc1" None None) (Some []) = (JOk, ops) /\
    run_ops ["/"]%string (fun _ => None) ops
      (resolve ["/"]%string (account_file ["out"]%string (mkAccount "acc1" None None) "balance.jsons"))
      = Some EmptyString) /\
  (exists ops, account_balance (fail_at 2) ".tmp1" ["out"]%string (mkAccount "acc1" None None) (Some []) = (JErr, ops) /\
    run_ops ["/"]%string (fun _ => Some "old"%string) ops
      (resolve ["/"]%string (account_file ["out"]%string (mkAccount "acc1" None None) "balance.jsons"))
      = Some "old"%string).
Proof.
  split.
  - destruct (account_balance_pending_files ["/"]%string (fun _ => None) no_faults ".tmp1" ["out"]%string
                (mkAccount "acc1" None None) [] ltac:(discriminate) ltac:(discriminate)
                ltac:(discriminate) ltac:(discriminate)) as [_ [_ [Hr [_ Hok]]]].
    destruct (proj1 (Hok (Forall_nil _))) as [ops E].
    exists ops. split; [exact E|]. exact (proj1 (proj2 (Hr JOk ops E))).
  - destruct (account_balance_pending_files ["/"]%string (fun _ => Some "old"%string) (fail_at 2) ".tmp1"
                ["out"]%string (mkAccount "acc1" None None) [] ltac:(discriminate) ltac:(discriminate)
                ltac:(discriminate) ltac:(discriminate)) as [_ [_ [Hr _]]].
    eexists. split; [reflexivity|]. exact (proj1 (proj2 (Hr JErr _ eq_refl))).
Defined.

(** [card_balance] and [card_pending] fail without writing when the
    upstream request fails; otherwise each replaces its file under the
    card's directory with one line per result: whatever the calls of the
    store return, a reader sees the old or the new contents, the file holds
    the new contents exactly when the job returns [Ok], and no other file
    but the temp file changes.  When every call succeeds, both return
    [Ok]. *)
Theorem card_balance_pending_files cwd fs io tmp target id rs :
  tmp <> "balance.jsons"%string -> tmp <> "pending.jsons"%string ->
  tmp <> "."%string -> tmp <> "/"%string ->
  card_balance io tmp target id None = (JErr, []) /\
  card_pending io tmp target id None = (JErr, []) /\
  (forall r ops, card_balance io tmp target id (Some rs) = (r, ops) ->
     replaces cwd fs ops (card_file target id "balance.jsons")
       (join (write_jsons_dir (card_file target id "balance.jsons")) tmp) (jsons rs) r) /\
  (forall r ops, card_pending io tmp target id (Some rs) = (r, ops) ->
     replaces cwd fs ops (card_file target id "pending.jsons")
       (join (write_jsons_dir (card_file target id "pending.jsons")) tmp) (jsons rs) r) /\
  (Forall (fun s => has_newline s = false) rs ->
     (exists ops, card_balance no_faults tmp target id (Some rs) = (JOk, ops)) /\
     (exists ops, card_pending no_faults tmp target id (Some rs) = (JOk, ops))).
Proof.
  intros Hb Hp Hd Hs. split; [reflexivity|]. split; [reflexivity|].
  split; [|split; [|intros Hnl; split; apply write_jsons_atomically_no_faults; exact Hnl]].
  - intros r ops H.
    refine (proj1 (write_jsons_atomically_spec cwd fs io tmp
                     (card_file target id "balance.jsons") rs r ops _ H)).
    apply temp_neq; (assumption || discriminate).
  - intros r ops H.
    refine (proj1 (write_jsons_atomically_spec cwd fs io tmp
                     (card_file target id "pending.jsons") rs r ops _ H)).
    apply temp_neq; (assumption || discriminate).
Qed.

(** Witness for [card_balance_pending_files]: an empty answer gives an
    empty [balance.jsons] when every call succeeds, and a failing
    [persist] (call [2]) keeps the old file. *)
Theorem card_balance_pending_files_witness :
  (exists ops, card_balance no_faults ".tmp1" ["out"]%string "card1" (Some []) = (JOk, ops) /\
    run_ops ["/"]%string (fun _ => None) ops
      (resolve ["/"]%string (card_file ["out"]%string "card1" "balance.jsons"))
      = Some EmptyString) /\
  (exists ops, card_balance (fail_at 2) ".tmp1" ["out"]%string "card1" (Some []) = (JErr, ops) /\
    run_ops ["/"]%string (fun _ => Some "old"%string) ops
      (resolve ["/"]%string (card_file ["out"]%string "card1" "balance.jsons"))
      = Some "old"%string).
Proof.
  split.
  - destruct (card_balance_pending_files ["/"]%string (fun _ => None) no_faults ".tmp1" ["out"]%string
                "card1" [] ltac:(discriminate) ltac:(discriminate)
                ltac:(discriminate) ltac:(discriminate)) as [_ [_ [Hr [_ Hok]]]].
    destruct (proj1 (Hok (Forall_nil _))) as [ops E].
    exists ops. split; [exact E|]. exact (proj1 (proj2 (Hr JOk ops E))).
  - destruct (card_balance_pending_files ["/"]%string (fun _ => Some "old"%string) (fail_at 2) ".tmp1"
                ["out"]%string "card1" [] ltac:(discriminate) ltac:(discriminate)
                ltac:(discriminate) ltac:(discriminate)) as [_ [_ [Hr _]]].
    eexists. split; [reflexivity|]. exact (proj1 (proj2 (Hr JErr _ eq_refl))).
Defined.

(** The transaction job of a card month mirrors the account's: nothing is
    written for an error or an empty answer; otherwise
    [cards/<account_id>/<%Y-%m>.jsons] is replaced by the transactions in
    reverse order: whatever the calls of the store return, a reader sees
    the old or the new contents, the file holds the new contents exactly
    when the job returns [Ok], and no other file but the temp file
    changes.  When every call succeeds, the job returns [Ok]. *)
Theorem card_tx_month_file cwd fs io tmp target id m txs :
  card_tx io tmp target id m None = (JErr, []) /\
  card_tx io tmp target id m (Some []) = (JOk, []) /\
  card_file target id (ym_name (fst m)) = (target ++ ["cards"%string; id; ym_name (fst m)])%list /\
  (txs <> [] -> tmp <> ym_name (fst m) -> tmp <> "."%string -> tmp <> "/"%string -> valid (fst m) ->
   (forall r ops, card_tx io tmp target id m (Some txs) = (r, ops) ->
      replaces cwd fs ops (card_file target id (ym_name (fst m)))
        (join (write_jsons_dir (card_file target id (ym_name (fst m)))) tmp) (jsons (rev txs)) r) /\
   (Forall (fun s => has_newline s = false) txs ->
      exists ops, card_tx no_faults tmp target id m (Some txs) = (JOk, ops))).
Proof.
  split; [reflexivity|]. split; [reflexivity|]. split.
  { unfold card_file, join. rewrite <- !app_assoc. reflexivity. }
  intros Hne Hn Hd Hs Hv.
  destruct (ym_name_head (fst m) Hv) as [c [r0 [E Hc]]].
  assert (Htmp : resolve cwd (join (write_jsons_dir (card_file target id (ym_name (fst m)))) tmp)
                 <> resolve cwd (card_file target id (ym_name (fst m)))).
  { apply temp_neq; try assumption; rewrite E; intros H; injection H as Hc' _; subst c;
      destruct Hc as [Hc | [Hc | Hc]]; vm_compute in Hc; discriminate Hc. }
  destruct txs as [|x txs]; [contradiction|]. split.
  - intros r ops H.
    exact (proj1 (write_jsons_atomically_spec cwd fs io tmp _ (rev (x :: txs)) r ops Htmp H)).
  - intros Hnl. apply write_jsons_atomically_no_faults. apply Forall_rev. exact Hnl.
Qed.

(** Witness for [card_tx_month_file]: February 2024 of card [c1], two
    transactions, every call succeeding. *)
Theorem card_tx_month_file_witness :
  exists ops, card_tx no_faults ".tmp1" ["out"]%string "c1"%string (mkDate 2024 2 1, mkDate 2024 2 29)
      (Some ["t2"; "t1"]%string) = (JOk, ops) /\
    run_ops ["/"]%string (fun _ => None) ops ["/"; "out"; "cards"; "c1"; "2024-02.jsons"]%string
      = Some (jsons ["t1"; "t2"]%string).
Proof.
  destruct (card_tx_month_file ["/"]%string (fun _ => None) no_faults ".tmp1" ["out"]%string "c1"%string
              (mkDate 2024 2 1, mkDate 2024 2 29) ["t2"; "t1"]%string) as [_ [_ [_ H]]].
  destruct (H ltac:(discriminate) ltac:(vm_compute; discriminate) ltac:(discriminate)
              ltac:(discriminate) ltac:(unfold valid; vm_compute; repeat split; discriminate))
    as [Hr Hok].
  destruct (Hok ltac:(repeat constructor)) as [ops E].
  exists ops. split; [exact E|]. exact (proj1 (proj2 (Hr JOk ops E))).
Defined.

(** A temp file of [write_jsons_atomically] that did not exist before is
    gone when the function returns, with one exception: when every write
    succeeded but [persist] failed, the function returns [Err], the temp
    file holds all the lines, and the target keeps its old contents. *)
Theorem write_jsons_temp_removed cwd fs io tmp path items :
  resolve cwd (join (write_jsons_dir path) tmp) <> resolve cwd path ->
  fs (resolve cwd (join (write_jsons_dir path) tmp)) = None ->
  forall r ops, write_jsons_atomically io tmp path items = (r, ops) ->
    run_ops cwd fs ops (resolve cwd (join (write_jsons_dir path) tmp)) = None \/
    (r = JErr /\ io_ok (io (2 + 2 * List.length items)%nat) = false /\
     run_ops cwd fs ops (resolve cwd (join (write_jsons_dir path) tmp)) = Some (jsons items) /\
     run_ops cwd fs ops (resolve cwd path) = fs (resolve cwd path)).
Proof.
  intros Hne Hnone r ops H.
  destruct (write_jsons_atomically_spec cwd fs io tmp path items r ops Hne H)
    as [[_ [Hp _]] [_ Ht]].
  destruct (Ht Hnone) as [Hn | [Hr [Hio Hs]]]; [left; exact Hn|].
  right. subst r. repeat split; assumption.
Qed.

(** Witness for [write_jsons_temp_removed]: one item; when [persist] (call
    [4]) fails the temp file [out/.tmp1] keeps the line, when every call
    succeeds it is gone. *)
Theorem write_jsons_temp_removed_witness :
  (exists ops, write_jsons_atomically (fail_at 4) ".tmp1" ["out"; "a.jsons"]%string ["x"]%string = (JErr, ops) /\
    run_ops ["/"]%string (fun _ => None) ops ["/"; "out"; ".tmp1"]%string = Some (jsons ["x"]%string)) /\
  (exists ops, write_jsons_atomically no_faults ".tmp1" ["out"; "a.jsons"]%string ["x"]%string = (JOk, ops) /\
    run_ops ["/"]%string (fun _ => None) ops ["/"; "out"; ".tmp1"]%string = None).
Proof.
  split.
  - eexists. split; [reflexivity|].
    destruct (write_jsons_temp_removed ["/"]%string (fun _ => None) (fail_at 4) ".tmp1"
                ["out"; "a.jsons"]%string ["x"]%string ltac:(vm_compute; discriminate) eq_refl
                JErr _ eq_refl) as [H | [_ [_ [H _]]]].
    + vm_compute in H. discriminate H.
    + exact H.
  - eexists. split; [reflexivity|].
    destruct (write_jsons_temp_removed ["/"]%string (fun _ => None) no_faults ".tmp1"
                ["out"; "a.jsons"]%string ["x"]%string ltac:(vm_compute; discriminate) eq_refl
                JOk _ eq_refl) as [H | [H _]].
    + exact H.
    + discriminate H.
Defined.

End SyncExtras2.

Module GcListFacts.
Import Date DateFacts MonthsFacts Fs Store StoreFacts SyncJobs Digits DigitsFacts SyncFacts PathFacts GcListAccount.

Lemma date_eqb_spec a b : date_eqb a b = true <-> a = b.
Proof.
  destruct a as [y1 m1 d1], b as [y2 m2 d2]. unfold date_eqb. cbn [year month day].
  rewrite !andb_true_iff, !Z.eqb_eq. split.
  - intros [[-> ->] ->]. reflexivity.
  - intros H. injection H as -> -> ->. auto.
Qed.

Lemma key_eqb_spec a b : key_eqb a b = true <-> a = b.
Proof.
  destruct a as [x|], b as [y|]; cbn; try (split; congruence).
  rewrite date_eqb_spec. split; congruence.
Qed.

Lemma key_eqb_refl a : key_eqb a a = true.
Proof. apply key_eqb_spec. reflexivity. Qed.

Lemma key_eqb_sym a b : key_eqb a b = key_eqb b a.
Proof.
  destruct (key_eqb b a) eqn:E.
  - apply key_eqb_spec in E. subst. apply key_eqb_refl.
  - destruct (key_eqb a b) eqn:E'; [|reflexivity].
    apply key_eqb_spec in E'. subst. rewrite key_eqb_refl in E. discriminate.
Qed.

(** For a transaction with a valid date, [start_of_month] does not panic. *)
Lemma start_of_month_valid t :
  (forall d, tx_date t = Some d -> valid d) -> start_of_month t = Some (month_key t).
Proof.
  intros Hv. unfold start_of_month, month_key.
  destruct (tx_date t) as [d|] eqn:E; [|reflexivity].
  specialize (Hv d eq_refl).
  rewrite with_day_one by exact Hv. rewrite first_of_idx by (destruct Hv as [_ [? _]]; lia).
  reflexivity.
Qed.

(** Both [push_booked] and [push_pending] update the group of a key in
    place, or add a group at the end. *)
Section Push.
Variable (f : Group -> Group) (g0 : Group) (k : option NaiveDate) (push : ByMonth -> ByMonth).
Hypothesis push_nil : push [] = [(k, g0)].
Hypothesis push_cons : forall k' g m',
  push ((k', g) :: m') = if key_eqb k k' then (k', f g) :: m' else (k', g) :: push m'.

Lemma push_find m k' :
  option_map snd (find (fun kg => key_eqb k' (fst kg)) (push m)) =
  if key_eqb k' k
  then Some (match option_map snd (find (fun kg => key_eqb k (fst kg)) m) with
             | Some g => f g | None => g0 end)
  else option_map snd (find (fun kg => key_eqb k' (fst kg)) m).
Proof.
  induction m as [|[k1 g1] m IH].
  - rewrite push_nil. cbn. destruct (key_eqb k' k); reflexivity.
  - rewrite push_cons. destruct (key_eqb k k1) eqn:E1.
    + apply key_eqb_spec in E1. subst k1. cbn [find fst snd]. rewrite key_eqb_refl.
      destruct (key_eqb k' k); reflexivity.
    + cbn [find fst]. rewrite E1.
      destruct (key_eqb k' k1) eqn:E2; [|exact IH].
      apply key_eqb_spec in E2. subst k'. rewrite key_eqb_sym, E1. reflexivity.
Qed.

Lemma push_keys m x : In x (map fst (push m)) -> x = k \/ In x (map fst m).
Proof.
  induction m as [|[k1 g1] m IH]; intros H.
  - rewrite push_nil in H. cbn in H. destruct H as [H|[]]. auto.
  - rewrite push_cons in H. destruct (key_eqb k k1); cbn in H |- *.
    + auto.
    + destruct H as [H|H]; [auto|]. destruct (IH H); auto.
Qed.

Lemma push_nodup m : NoDup (map fst m) -> NoDup (map fst (push m)).
Proof.
  induction m as [|[k1 g1] m IH]; intros H.
  - rewrite push_nil. repeat constructor. intros [].
  - rewrite push_cons. inversion H as [|? ? Hn Hd]; subst.
    destruct (key_eqb k k1) eqn:E; cbn; constructor; auto.
    intros Hin. destruct (push_keys m k1 Hin) as [->|Hin']; [|contradiction].
    rewrite key_eqb_refl in E. discriminate.
Qed.

End Push.

Lemma push_booked_cons k t k' g m :
  push_booked k t ((k', g) :: m) =
  if key_eqb k k' then (k', (fst g ++ [t], snd g)) :: m else (k', g) :: push_booked k t m.
Proof. destruct g. reflexivity. Qed.

Lemma push_pending_cons k t k' g m :
  push_pending k t ((k', g) :: m) =
  if key_eqb k k' then (k', (fst g, snd g ++ [t])) :: m else (k', g) :: push_pending k t m.
Proof. destruct g. reflexivity. Qed.

(** The state of [by_month] after the transactions [B] and [P] were
    pushed: one group per month, holding that month's transactions. *)
Definition groups_of (B P : list GcTransaction) (m : ByMonth) : Prop :=
  NoDup (map fst m) /\
  forall k, option_map snd (find (fun kg => key_eqb k (fst kg)) m) =
    if existsb (fun t => key_eqb (month_key t) k) (B ++ P)
    then Some (filter (fun t => key_eqb (month_key t) k) B, filter (fun t => key_eqb (month_key t) k) P)
    else None.

Lemma existsb_false_filter (p : GcTransaction -> bool) l :
  existsb p l = false -> filter p l = [].
Proof.
  induction l as [|x l IH]; cbn; [reflexivity|].
  intros H. apply orb_false_iff in H as [H1 H2]. rewrite H1. auto.
Qed.

Lemma groups_push_booked B P m t :
  groups_of B P m ->
  groups_of (B ++ [t]) P (push_booked (month_key t) t m).
Proof.
  intros [Hd Hf]. split.
  - apply (push_nodup (fun g => (fst g ++ [t], snd g)) ([t], []) (month_key t));
      [reflexivity | apply push_booked_cons | exact Hd].
  - intros k'.
    rewrite (push_find (fun g => (fst g ++ [t], snd g)) ([t], []) (month_key t));
      [|reflexivity|apply push_booked_cons].
    destruct (key_eqb k' (month_key t)) eqn:E.
    + apply key_eqb_spec in E. subst k'. rewrite Hf.
      assert (Ht : existsb (fun t0 => key_eqb (month_key t0) (month_key t)) ((B ++ [t]) ++ P) = true).
      { apply existsb_exists. exists t. split; [|apply key_eqb_refl].
        apply in_or_app. left. apply in_or_app. right. left. reflexivity. }
      rewrite Ht, filter_app. cbn [filter]. rewrite key_eqb_refl.
      destruct (existsb (fun t0 => key_eqb (month_key t0) (month_key t)) (B ++ P)) eqn:Ex;
        [reflexivity|].
      rewrite existsb_app in Ex. apply orb_false_iff in Ex as [E1 E2].
      rewrite (existsb_false_filter _ B E1), (existsb_false_filter _ P E2). reflexivity.
    + rewrite Hf.
      assert (Hq : key_eqb (month_key t) k' = false) by (rewrite key_eqb_sym; exact E).
      replace (existsb (fun t0 => key_eqb (month_key t0) k') ((B ++ [t]) ++ P))
        with (existsb (fun t0 => key_eqb (month_key t0) k') (B ++ P))
        by (rewrite !existsb_app; cbn [existsb]; rewrite Hq; cbn [orb]; rewrite orb_false_r; reflexivity).
      rewrite filter_app. cbn [filter]. rewrite Hq, app_nil_r. reflexivity.
Qed.

Lemma groups_push_pending B P m t :
  groups_of B P m ->
  groups_of B (P ++ [t]) (push_pending (month_key t) t m).
Proof.
  intros [Hd Hf]. split.
  - apply (push_nodup (fun g => (fst g, snd g ++ [t])) ([], [t]) (month_key t));
      [reflexivity | apply push_pending_cons | exact Hd].
  - intros k'.
    rewrite (push_find (fun g => (fst g, snd g ++ [t])) ([], [t]) (month_key t));
      [|reflexivity|apply push_pending_cons].
    destruct (key_eqb k' (month_key t)) eqn:E.
    + apply key_eqb_spec in E. subst k'. rewrite Hf.
      assert (Ht : existsb (fun t0 => key_eqb (month_key t0) (month_key t)) (B ++ P ++ [t]) = true).
      { apply existsb_exists. exists t. split; [|apply key_eqb_refl].
        apply in_or_app. right. apply in_or_app. right. left. reflexivity. }
      rewrite Ht, filter_app. cbn [filter]. rewrite key_eqb_refl.
      destruct (existsb (fun t0 => key_eqb (month_key t0) (month_key t)) (B ++ P)) eqn:Ex;
        [reflexivity|].
      rewrite existsb_app in Ex. apply orb_false_iff in Ex as [E1 E2].
      rewrite (existsb_false_filter _ B E1), (existsb_false_filter _ P E2). reflexivity.
    + rewrite Hf.
      assert (Hq : key_eqb (month_key t) k' = false) by (rewrite key_eqb_sym; exact E).
      replace (existsb (fun t0 => key_eqb (month_key t0) k') (B ++ P ++ [t]))
        with (existsb (fun t0 => key_eqb (month_key t0) k') (B ++ P))
        by (rewrite !existsb_app; cbn [existsb]; rewrite Hq; cbn [orb]; rewrite !orb_false_r; reflexivity).
      rewrite (filter_app _ P [t]). cbn [filter]. rewrite Hq, app_nil_r. reflexivity.
Qed.

Lemma group_booked_spec l : forall B P m,
  groups_of B P m -> (forall t d, In t l -> tx_date t = Some d -> valid d) ->
  exists m', group_booked m l = Some m' /\ groups_of (B ++ l) P m'.
Proof.
  induction l as [|t l IH]; intros B P m Hg Hv.
  - exists m. rewrite app_nil_r. auto.
  - cbn [group_booked]. rewrite start_of_month_valid by (intros d; apply Hv; left; reflexivity).
    destruct (IH (B ++ [t]) P (push_booked (month_key t) t m)) as [m' [E G]].
    + apply groups_push_booked. exact Hg.
    + intros t' d Ht'. apply Hv. right. exact Ht'.
    + exists m'. rewrite <- app_assoc in G. auto.
Qed.

Lemma group_pending_spec l : forall B P m,
  groups_of B P m -> (forall t d, In t l -> tx_date t = Some d -> valid d) ->
  exists m', group_pending m l = Some m' /\ groups_of B (P ++ l) m'.
Proof.
  induction l as [|t l IH]; intros B P m Hg Hv.
  - exists m. rewrite app_nil_r. auto.
  - cbn [group_pending]. rewrite start_of_month_valid by (intros d; apply Hv; left; reflexivity).
    destruct (IH B (P ++ [t]) (push_pending (month_key t) t m)) as [m' [E G]].
    + apply groups_push_pending. exact Hg.
    + intros t' d Ht'. apply Hv. right. exact Ht'.
    + exists m'. rewrite <- app_assoc in G. auto.
Qed.

Lemma by_month_groups booked pending :
  (forall t d, In t (booked ++ pending) -> tx_date t = Some d -> valid d) ->
  exists m, by_month booked pending = Some m /\ groups_of booked pending m.
Proof.
  intros Hv. unfold by_month.
  destruct (group_booked_spec booked [] [] []) as [m1 [E1 G1]].
  - split; [constructor | intros k; reflexivity].
  - intros t d Ht. apply Hv. apply in_or_app. left. exact Ht.
  - rewrite E1. cbn in G1.
    destruct (group_pending_spec pending booked [] m1 G1) as [m2 [E2 G2]].
    + intros t d Ht. apply Hv. apply in_or_app. right. exact Ht.
    + exists m2. split; [exact E2|]. exact G2.
Qed.

Lemma find_in_nodup (m : ByMonth) k g :
  NoDup (map fst m) ->
  (In (k, g) m <-> option_map snd (find (fun kg => key_eqb k (fst kg)) m) = Some g).
Proof.
  induction m as [|[k1 g1] m IH]; intros Hd; cbn [find fst In].
  - split; [intros []|discriminate].
  - inversion Hd as [|? ? Hn Hd']; subst.
    destruct (key_eqb k k1) eqn:E.
    + apply key_eqb_spec in E. subst k1. cbn. split.
      * intros [H|H]; [injection H as ->; reflexivity|].
        exfalso. apply Hn. apply (in_map fst) in H. exact H.
      * intros H. injection H as ->. auto.
    + rewrite <- IH by exact Hd'. split.
      * intros [H|H]; [|exact H]. injection H as -> _. rewrite key_eqb_refl in E. discriminate.
      * auto.
Qed.

(** Names of the month files. *)
Lemma month_name_head t :
  (forall d, tx_date t = Some d -> valid d) ->
  month_key t = None \/
  exists c r d, month_key t = Some (mkDate (year d) (month d) 1) /\ valid d /\
    month_file_name (month_key t) = String c r /\
    (is_digit c = true \/ c = "+"%char \/ c = "-"%char).
Proof.
  intros Hv. unfold month_key. destruct (tx_date t) as [d|] eqn:E; [|left; reflexivity].
  right. specialize (Hv d eq_refl).
  destruct (fmt_Y_head (year d) (valid_ybound d Hv)) as [c [r [Ey Hc]]].
  exists c. eexists. exists d. split; [reflexivity|]. split; [exact Hv|]. split; [|exact Hc].
  cbn [month_file_name year month]. rewrite Ey. reflexivity.
Qed.

Lemma month_name_not t n :
  (forall d, tx_date t = Some d -> valid d) ->
  In n ["."; "/"; "account-details.json"; "balances.json"]%string ->
  month_file_name (month_key t) <> n.
Proof.
  intros Hv Hn. destruct (month_name_head t Hv) as [-> | [c [r [d [_ [_ [-> Hc]]]]]]].
  - destruct Hn as [<-|[<-|[<-|[<-|[]]]]]; discriminate.
  - intros E. destruct Hn as [<-|[<-|[<-|[<-|[]]]]]; injection E as Ec _; subst c;
      destruct Hc as [Hc|[Hc|Hc]]; vm_compute in Hc; discriminate Hc.
Qed.

Lemma month_name_inj t1 t2 :
  (forall d, tx_date t1 = Some d -> valid d) -> (forall d, tx_date t2 = Some d -> valid d) ->
  month_file_name (month_key t1) = month_file_name (month_key t2) -> month_key t1 = month_key t2.
Proof.
  intros H1 H2 E.
  destruct (month_name_head t1 H1) as [K1 | [c1 [r1 [d1 [K1 [V1 [N1 C1]]]]]]],
           (month_name_head t2 H2) as [K2 | [c2 [r2 [d2 [K2 [V2 [N2 C2]]]]]]].
  - congruence.
  - rewrite K1, N2 in E. cbn in E. injection E as Ec _. subst c2.
    destruct C2 as [C|[C|C]]; vm_compute in C; discriminate C.
  - rewrite K2, N1 in E. cbn in E. injection E as Ec _. subst c1.
    destruct C1 as [C|[C|C]]; vm_compute in C; discriminate C.
  - rewrite K1, K2 in E |- *. cbn [month_file_name year month] in E.
    apply (ym_inj _ _ _ _ ".json"%string) in E as [-> ->];
      [reflexivity | apply valid_ybound; assumption .. | destruct V1 as [_ [? _]]; assumption
       | destruct V2 as [_ [? _]]; assumption].
Qed.

(** [Cmd::write_file] with every call succeeding leaves [buf] in the file
    and touches no other file. *)
Lemma write_file_run cwd p buf fs q :
  run_ops cwd fs (snd (write_file no_faults p buf)) q =
  if path_eqb q (resolve cwd p) then Some buf else fs q.
Proof.
  unfold write_file. destruct (parent p); cbn [no_faults snd app run_ops apply_op]; unfold upd;
    rewrite !path_eqb_refl; destruct (path_eqb q (resolve cwd p)); reflexivity.
Qed.

Lemma write_file_no_faults p b :
  write_file no_faults p b = (true, snd (write_file no_faults p b)).
Proof. unfold write_file. destruct (parent p); reflexivity. Qed.

(** A [write_file] that returns [Ok] issued the calls of the run without
    faults. *)
Lemma write_file_ok io p b ops :
  write_file io p b = (true, ops) -> ops = snd (write_file no_faults p b).
Proof.
  unfold write_file. destruct (parent p); [destruct (io 0%nat)|]; destruct (io 1%nat);
    destruct (io 2%nat); destruct (io 3%nat); intros H; inversion H; reflexivity.
Qed.

(** Whatever its calls return, [write_file] touches no file but its own. *)
Lemma write_file_only io p b ok ops :
  write_file io p b = (ok, ops) -> Forall (only_at p) ops.
Proof.
  unfold write_file. destruct (parent p); [destruct (io 0%nat)|]; destruct (io 1%nat);
    destruct (io 2%nat); destruct (io 3%nat); intros H; injection H as _ <-; only_at_tac.
Qed.

Lemma write_files_map_ok {A} (f : A -> Path * string) io l : forall n ops,
  write_files io n (map f l) = (true, ops) ->
  ops = flat_map (fun x => snd (write_file no_faults (fst (f x)) (snd (f x)))) l.
Proof.
  induction l as [|x l IH]; intros n ops H; cbn [map write_files] in H.
  - injection H as <-. reflexivity.
  - destruct (f x) as [p b] eqn:Ef.
    destruct (write_file (io n) p b) as [[|] ops1] eqn:W; [|discriminate H].
    destruct (write_files io (S n) (map f l)) as [ok ops2] eqn:W2.
    injection H as -> <-. cbn [flat_map]. rewrite Ef. cbn [fst snd].
    rewrite (write_file_ok _ _ _ _ W), (IH _ _ W2). reflexivity.
Qed.

Lemma write_files_no_faults {A} (f : A -> Path * string) l : forall n,
  write_files (fun _ => no_faults) n (map f l) =
  (true, flat_map (fun x => snd (write_file no_faults (fst (f x)) (snd (f x)))) l).
Proof.
  induction l as [|x l IH]; intros n; [reflexivity|].
  cbn [map write_files flat_map]. destruct (f x) as [p b].
  rewrite write_file_no_faults, IH. reflexivity.
Qed.

Lemma write_files_other cwd io l : forall n ok ops fs q,
  write_files io n l = (ok, ops) -> (forall x, In x l -> q <> resolve cwd (fst x)) ->
  run_ops cwd fs ops q = fs q.
Proof.
  induction l as [|[p b] l IH]; intros n ok ops fs q H Hq; cbn [write_files] in H.
  - injection H as _ <-. reflexivity.
  - destruct (write_file (io n) p b) as [[|] ops1] eqn:W.
    + destruct (write_files io (S n) l) as [ok2 ops2] eqn:W2.
      injection H as _ <-. rewrite run_ops_app.
      rewrite (IH _ _ _ _ _ W2) by (intros x Hx; apply Hq; right; exact Hx).
      apply (run_only_at cwd p); [exact (write_file_only _ _ _ _ _ W)|].
      exact (Hq (p, b) (or_introl eq_refl)).
    + injection H as _ <-.
      apply (run_only_at cwd p); [exact (write_file_only _ _ _ _ _ W)|].
      exact (Hq (p, b) (or_introl eq_refl)).
Qed.

Section Files.
Variables (A : Type) (P : A -> Path) (Bf : A -> string) (cwd : Path).

Lemma run_files_other l : forall fs q,
  (forall x, In x l -> q <> resolve cwd (P x)) ->
  run_ops cwd fs (flat_map (fun x => snd (write_file no_faults (P x) (Bf x))) l) q = fs q.
Proof.
  induction l as [|x l IH]; intros fs q Hq; [reflexivity|].
  cbn [flat_map]. rewrite run_ops_app, IH by (intros y Hy; apply Hq; right; exact Hy).
  rewrite write_file_run, path_eqb_neq by (apply Hq; left; reflexivity). reflexivity.
Qed.

Lemma run_files_at l : forall fs x0,
  NoDup (map (fun x => resolve cwd (P x)) l) -> In x0 l ->
  run_ops cwd fs (flat_map (fun x => snd (write_file no_faults (P x) (Bf x))) l) (resolve cwd (P x0))
    = Some (Bf x0).
Proof.
  induction l as [|x l IH]; intros fs x0 Hd Hin; [destruct Hin|].
  inversion Hd as [|? ? Hn Hd']; subst.
  cbn [flat_map]. rewrite run_ops_app.
  destruct Hin as [<- | Hin]; [|apply IH; assumption].
  rewrite run_files_other.
  - rewrite write_file_run, path_eqb_refl. reflexivity.
  - intros y Hy E. apply Hn. rewrite E. apply (in_map (fun x => resolve cwd (P x))). exact Hy.
Qed.

End Files.

Lemma groups_in B P m : groups_of B P m ->
  forall k g, In (k, g) m <->
    (exists t, In t (B ++ P) /\ month_key t = k) /\
    g = (filter (fun t => key_eqb (month_key t) k) B, filter (fun t => key_eqb (month_key t) k) P).
Proof.
  intros [Hd Hf] k g. rewrite find_in_nodup by exact Hd. rewrite Hf.
  destruct (existsb (fun t => key_eqb (month_key t) k) (B ++ P)) eqn:Ex.
  - apply existsb_exists in Ex as [t [Ht Hk]]. apply key_eqb_spec in Hk.
    split.
    + intros H. injection H as <-. eauto.
    + intros [_ ->]. reflexivity.
  - split; [discriminate|]. intros [[t [Ht Hk]] _].
    assert (Ht' : existsb (fun t => key_eqb (month_key t) k) (B ++ P) = true)
      by (apply existsb_exists; exists t; split; [exact Ht | apply key_eqb_spec; exact Hk]).
    congruence.
Qed.

Lemma resolve_join_inj cwd p c1 c2 :
  c1 <> "."%string -> c2 <> "."%string -> c1 <> "/"%string -> c2 <> "/"%string ->
  resolve cwd (join p c1) = resolve cwd (join p c2) -> c1 = c2.
Proof.
  intros H1 H2 H3 H4 E. destruct (string_dec c1 c2) as [|Hne]; [assumption|].
  exfalso. exact (resolve_join_neq cwd p c1 c2 Hne H1 H2 H3 H4 E).
Qed.

End GcListFacts.

Module GcListExtras.
Import Date Fs Store StoreFacts SyncJobs GcListAccount PathFacts GcListFacts.

(** [list_account] groups the transactions by the month of their date (the
    booking date, else the booking time, else the value date; [None] for
    none): for transactions with valid dates it does not panic, and the
    groups of [by_month] are exactly the months that occur, each with that
    month's booked and pending transactions in the order received. *)
Theorem gc_by_month_groups booked pending :
  (forall t d, In t (booked ++ pending) -> tx_date t = Some d -> valid d) ->
  exists m, by_month booked pending = Some m /\ NoDup (map fst m) /\
    forall k g, In (k, g) m <->
      (exists t, In t (booked ++ pending) /\ month_key t = k) /\
      g = (filter (fun t => key_eqb (month_key t) k) booked,
           filter (fun t => key_eqb (month_key t) k) pending).
Proof.
  intros Hv. destruct (by_month_groups booked pending Hv) as [m [E G]].
  exists m. split; [exact E|]. split; [exact (proj1 G)|].
  apply groups_in. exact G.
Qed.

Theorem gc_by_month_groups_witness :
  exists m, by_month
      [mkGcTx (Some (mkDate 2024 3 5)) None None "b1"; mkGcTx None None (Some (mkDate 2024 4 2)) "b2";
       mkGcTx (Some (mkDate 2024 3 20)) None None "b3"]%string
      [mkGcTx None None None "p1"]%string = Some m /\
    NoDup (map fst m) /\
    In (Some (mkDate 2024 3 1),
        ([mkGcTx (Some (mkDate 2024 3 5)) None None "b1"; mkGcTx (Some (mkDate 2024 3 20)) None None "b3"]%string, []))
       m.
Proof.
  destruct (gc_by_month_groups
      [mkGcTx (Some (mkDate 2024 3 5)) None None "b1"; mkGcTx None None (Some (mkDate 2024 4 2)) "b2";
       mkGcTx (Some (mkDate 2024 3 20)) None None "b3"]%string
      [mkGcTx None None None "p1"]%string) as [m [E [Hd Hin]]].
  - intros t d Ht Hd. cbn in Ht.
    destruct Ht as [<-|[<-|[<-|[<-|[]]]]]; cbn in Hd; injection Hd as <- || discriminate Hd;
      unfold valid; vm_compute; repeat split; discriminate.
  - exists m. split; [exact E|]. split; [exact Hd|].
    apply Hin. split; [|reflexivity].
    eexists. split; [left; reflexivity | reflexivity].
Defined.

(** [list_account], for transactions with valid dates, never panics, and
    whatever the calls of [write_file] return it touches no file but
    [account-details.json], [balances.json] and the month files of the
    transactions.  When it returns [Ok], [account-details.json] and
    [balances.json] hold the two answers and the file of each month that
    occurs ([%Y-%m.json], or [undated.json] for transactions without a
    date) holds that month's booked and pending transactions: no month file
    overwrites another.  When every call succeeds it returns [Ok]. *)
Theorem gc_list_account_files cwd fs io ser base details balances booked pending :
  (forall t d, In t (booked ++ pending) -> tx_date t = Some d -> valid d) ->
  (exists ops, list_account (fun _ => no_faults) ser base details balances booked pending = (JOk, ops)) /\
  forall r ops, list_account io ser base details balances booked pending = (r, ops) ->
    r <> JPanic /\
    (forall q, q <> resolve cwd (join base "account-details.json") ->
       q <> resolve cwd (join base "balances.json") ->
       (forall t, In t (booked ++ pending) -> q <> resolve cwd (join base (month_file_name (month_key t)))) ->
       run_ops cwd fs ops q = fs q) /\
    (r = JOk ->
     run_ops cwd fs ops (resolve cwd (join base "account-details.json")) = Some details /\
     run_ops cwd fs ops (resolve cwd (join base "balances.json")) = Some balances /\
     forall t, In t (booked ++ pending) ->
       run_ops cwd fs ops (resolve cwd (join base (month_file_name (month_key t)))) =
         Some (ser (filter (fun t' => key_eqb (month_key t') (month_key t)) booked,
                    filter (fun t' => key_eqb (month_key t') (month_key t)) pending))).
Proof.
  intros Hv. destruct (by_month_groups booked pending Hv) as [m [E G]].
  pose proof (groups_in _ _ _ G) as Gin.
  assert (Hkey : forall kg, In kg m -> exists t, In t (booked ++ pending) /\ month_key t = fst kg).
  { intros [k g] H. apply Gin in H. apply H. }
  assert (Hvt : forall t, In t (booked ++ pending) -> forall d, tx_date t = Some d -> valid d).
  { intros t Ht d. apply Hv. exact Ht. }
  assert (Hname : forall kg n, In kg m ->
            In n ["."; "/"; "account-details.json"; "balances.json"]%string ->
            month_file_name (fst kg) <> n).
  { intros kg n H Hn. destruct (Hkey kg H) as [t [Ht Hk]]. rewrite <- Hk.
    apply month_name_not; [apply Hvt; exact Ht | exact Hn]. }
  set (Wm := flat_map (fun kg => snd (write_file no_faults (join base (month_file_name (fst kg))) (ser (snd kg)))) m).
  set (OK := snd (write_file no_faults (join base "account-details.json") details) ++
             snd (write_file no_faults (join base "balances.json") balances) ++ Wm).
  assert (Hother : forall n, In n ["account-details.json"; "balances.json"]%string ->
            forall fs', run_ops cwd fs' Wm (resolve cwd (join base n)) = fs' (resolve cwd (join base n))).
  { intros n Hn fs'. apply run_files_other. intros kg Hkg.
    apply resolve_join_neq.
    - intros Hc. apply (Hname kg n Hkg); [|exact (eq_sym Hc)].
      destruct Hn as [<-|[<-|[]]]; cbn; auto.
    - destruct Hn as [<-|[<-|[]]]; discriminate.
    - apply (Hname kg); [exact Hkg | cbn; auto].
    - destruct Hn as [<-|[<-|[]]]; discriminate.
    - apply (Hname kg); [exact Hkg | cbn; auto]. }
  assert (Hfacts :
     run_ops cwd fs OK (resolve cwd (join base "account-details.json")) = Some details /\
     run_ops cwd fs OK (resolve cwd (join base "balances.json")) = Some balances /\
     forall t, In t (booked ++ pending) ->
       run_ops cwd fs OK (resolve cwd (join base (month_file_name (month_key t)))) =
         Some (ser (filter (fun t' => key_eqb (month_key t') (month_key t)) booked,
                    filter (fun t' => key_eqb (month_key t') (month_key t)) pending))).
  { unfold OK. split; [|split].
    - rewrite !run_ops_app, Hother by (cbn; auto).
      rewrite write_file_run, path_eqb_neq by (apply resolve_join_neq; discriminate).
      rewrite write_file_run, path_eqb_refl. reflexivity.
    - rewrite !run_ops_app, Hother by (cbn; auto).
      rewrite write_file_run, path_eqb_refl. reflexivity.
    - intros t Ht. rewrite !run_ops_app.
      set (x0 := (month_key t, (filter (fun t' => key_eqb (month_key t') (month_key t)) booked,
                                 filter (fun t' => key_eqb (month_key t') (month_key t)) pending))).
      change (join base (month_file_name (month_key t))) with (join base (month_file_name (fst x0))).
      change (Some (ser (filter (fun t' => key_eqb (month_key t') (month_key t)) booked,
                         filter (fun t' => key_eqb (month_key t') (month_key t)) pending)))
        with (Some (ser (snd x0))).
      apply (run_files_at _ (fun kg => join base (month_file_name (fst kg))) (fun kg => ser (snd kg))).
      + apply NoDup_map_NoDup_ForallPairs.
        * intros [k1 g1] [k2 g2] H1 H2 Heq. cbn [fst] in Heq.
          destruct (Hkey _ H1) as [t1 [Ht1 K1]], (Hkey _ H2) as [t2 [Ht2 K2]].
          cbn [fst] in K1, K2. subst k1 k2.
          apply resolve_join_inj in Heq;
            [| exact (Hname (month_key t1, g1) "."%string H1 ltac:(cbn; auto))
             | exact (Hname (month_key t2, g2) "."%string H2 ltac:(cbn; auto))
             | exact (Hname (month_key t1, g1) "/"%string H1 ltac:(cbn; auto))
             | exact (Hname (month_key t2, g2) "/"%string H2 ltac:(cbn; auto))].
          apply month_name_inj in Heq; [|apply Hvt; exact Ht1 | apply Hvt; exact Ht2].
          apply Gin in H1 as [_ ->]. apply Gin in H2 as [_ ->]. rewrite Heq. reflexivity.
        * apply (NoDup_map_inv fst). exact (proj1 G).
      + apply Gin. split; [eauto | reflexivity]. }
  split.
  - exists OK. unfold list_account.
    rewrite (write_file_no_faults (join base "account-details.json") details),
      (write_file_no_faults (join base "balances.json") balances), E.
    rewrite write_files_no_faults. reflexivity.
  - intros r ops H. unfold list_account in H.
    destruct (write_file (io 0%nat) (join base "account-details.json") details) as [[|] ops1] eqn:W1.
    2: { injection H as <- <-. split; [discriminate|]. split; [|discriminate].
         intros q H1 _ _. apply (run_only_at cwd (join base "account-details.json"));
           [exact (write_file_only _ _ _ _ _ W1) | exact H1]. }
    destruct (write_file (io 1%nat) (join base "balances.json") balances) as [[|] ops2] eqn:W2.
    2: { injection H as <- <-. split; [discriminate|]. split; [|discriminate].
         intros q H1 H2 _. rewrite run_ops_app.
         rewrite (run_only_at cwd (join base "balances.json")) by
           (exact (write_file_only _ _ _ _ _ W2) || exact H2).
         apply (run_only_at cwd (join base "account-details.json"));
           [exact (write_file_only _ _ _ _ _ W1) | exact H1]. }
    rewrite E in H.
    match type of H with context [write_files io 2 ?L] =>
      destruct (write_files io 2 L) as [ok ops3] eqn:W3 end.
    injection H as <- <-. split; [destruct ok; discriminate|]. split.
    + intros q H1 H2 H3. rewrite !run_ops_app.
      rewrite (write_files_other cwd io _ 2 ok ops3 _ q W3).
      * rewrite (run_only_at cwd (join base "balances.json")) by
          (exact (write_file_only _ _ _ _ _ W2) || exact H2).
        apply (run_only_at cwd (join base "account-details.json"));
          [exact (write_file_only _ _ _ _ _ W1) | exact H1].
      * intros x Hx. apply in_map_iff in Hx as [kg [<- Hkg]].
        destruct (Hkey kg Hkg) as [t [Ht Hk]]. cbn [fst]. rewrite <- Hk. exact (H3 t Ht).
    + intros Hok. destruct ok; [|discriminate Hok].
      rewrite (write_file_ok _ _ _ _ W1), (write_file_ok _ _ _ _ W2), (write_files_map_ok _ io m 2 ops3 W3).
      exact Hfacts.
Qed.

(** Witness for [gc_list_account_files]: two booked transactions of March
    and April 2024 and an undated pending one; when every call succeeds
    [2024-03.json] holds the March transaction, and when creating
    [balances.json] fails the job returns [Err] and leaves the file
    [notes] alone. *)
Theorem gc_list_account_files_witness :
  (exists ops,
    list_account (fun _ => no_faults)
      (fun g => String.append (concat "," (map tx_body (fst g))) (concat "," (map tx_body (snd g))))
      ["out"; "acc"]%string "D"%string "B"%string
      [mkGcTx (Some (mkDate 2024 3 5)) None None "b1"; mkGcTx None None (Some (mkDate 2024 4 2)) "b2"]%string
      [mkGcTx None None None "p1"]%string = (JOk, ops) /\
    run_ops ["/"]%string (fun _ => None) ops ["/"; "out"; "acc"; "2024-03.json"]%string = Some "b1"%string) /\
  (exists ops,
    list_account (fun n => if Nat.eqb n 1 then fail_at 1 else no_faults)
      (fun g => String.append (concat "," (map tx_body (fst g))) (concat "," (map tx_body (snd g))))
      ["out"; "acc"]%string "D"%string "B"%string
      [mkGcTx (Some (mkDate 2024 3 5)) None None "b1"; mkGcTx None None (Some (mkDate 2024 4 2)) "b2"]%string
      [mkGcTx None None None "p1"]%string = (JErr, ops) /\
    run_ops ["/"]%string (fun _ => Some "x"%string) ops ["/"; "out"; "acc"; "notes"]%string = Some "x"%string).
Proof.
  split.
  - destruct (gc_list_account_files ["/"]%string (fun _ => None) (fun _ => no_faults)
        (fun g => String.append (concat "," (map tx_body (fst g))) (concat "," (map tx_body (snd g))))
        ["out"; "acc"]%string "D"%string "B"%string
        [mkGcTx (Some (mkDate 2024 3 5)) None None "b1"; mkGcTx None None (Some (mkDate 2024 4 2)) "b2"]%string
        [mkGcTx None None None "p1"]%string) as [[ops E] H].
    + intros t d Ht Hd. cbn in Ht.
      destruct Ht as [<-|[<-|[<-|[]]]]; cbn in Hd; injection Hd as <- || discriminate Hd;
        unfold valid; vm_compute; repeat split; discriminate.
    + exists ops. split; [exact E|].
      destruct (H JOk ops E) as [_ [_ Hok]].
      exact (proj2 (proj2 (Hok eq_refl)) (mkGcTx (Some (mkDate 2024 3 5)) None None "b1"%string)
               (or_introl eq_refl)).
  - eexists. split; [reflexivity|].
    destruct (gc_list_account_files ["/"]%string (fun _ => Some "x"%string)
        (fun n => if Nat.eqb n 1 then fail_at 1 else no_faults)
        (fun g => String.append (concat "," (map tx_body (fst g))) (concat "," (map tx_body (snd g))))
        ["out"; "acc"]%string "D"%string "B"%string
        [mkGcTx (Some (mkDate 2024 3 5)) None None "b1"; mkGcTx None None (Some (mkDate 2024 4 2)) "b2"]%string
        [mkGcTx None None None "p1"]%string) as [_ H].
    + intros t d Ht Hd. cbn in Ht.
      destruct Ht as [<-|[<-|[<-|[]]]]; cbn in Hd; injection Hd as <- || discriminate Hd;
        unfold valid; vm_compute; repeat split; discriminate.
    + apply (proj1 (proj2 (H JErr _ eq_refl))).
      * vm_compute. discriminate.
      * vm_compute. discriminate.
      * intros t Ht. cbn in Ht. destruct Ht as [<-|[<-|[<-|[]]]]; vm_compute; discriminate.
Defined.

End GcListExtras.

Module TlRunFacts.
Import GcAuth TlAuth TlAuthFacts.



End TlRunFacts.

Module TlAuthExtras.
Import GcAuth TlAuth TlAuthFacts TlAuthMore TlRunFacts.




End TlAuthExtras.

Module TlAuthExtras2.
Import GcAuth TlAuth TlAuthFacts TlAuthMore TlAuthExtras.
Local Open Scope string_scope.


(** [update_from_response] fails (an error or a panic) exactly when
    [expires_in] is not a valid duration or [fetched_at + expires_in] is
    not a representable instant. *)
Lemma update_from_response_none d r now rd :
  update_from_response d r now rd = None <->
  ~ (- MAX_SECS <= expires_in r <= MAX_SECS /\ MIN_INSTANT <= now + expires_in r <= MAX_INSTANT).
Proof.
  split.
  - intros H [H1 H2]. destruct (update_from_response_some d r now rd H1 H2) as [nd E]. congruence.
  - intros H. destruct (update_from_response d r now rd) as [nd|] eqn:E; [|reflexivity].
    exfalso. apply H. unfold update_from_response in E.
    destruct (try_seconds (expires_in r)) as [x|] eqn:E1; [|discriminate].
    destruct (add_instant now x) as [e|] eqn:E2; [|discriminate].
    apply try_seconds_spec in E1 as [-> H1]. apply add_instant_spec in E2 as [_ H2]. auto.
Qed.

(** [authenticate] stores a token only when the token request succeeds,
    its [expires_in] is a valid duration, [fetched_at + expires_in] is a
    representable instant (otherwise the addition panics) and
    [write_auth_data] succeeds; the token stored has the strings of the
    answer, [expires_at = fetched_at + expires_in], the redirect URI it was
    given and [authed_at = fetched_at].  On every error or panic the token
    file is left as it was. *)
Theorem tl_authenticate file fetched_at resp redirect write_ok :
  match authenticate file fetched_at resp redirect write_ok with
  | (Some _, f') =>
      exists r, resp = Some r /\ write_ok = true /\
        - MAX_SECS <= expires_in r <= MAX_SECS /\
        MIN_INSTANT <= fetched_at + expires_in r <= MAX_INSTANT /\
        f' = Some (mkAuthData (r_access_token r) (fetched_at + expires_in r) (r_token_type r)
                     (r_refresh_token r) (r_scope r) redirect (Some fetched_at))
  | (None, f') => f' = file
  end /\
  (forall r, resp = Some r -> - MAX_SECS <= expires_in r <= MAX_SECS ->
     MIN_INSTANT <= fetched_at + expires_in r <= MAX_INSTANT -> write_ok = true ->
     fst (authenticate file fetched_at resp redirect write_ok) = Some tt).
Proof.
  split.
  - unfold authenticate, from_response.
    destruct resp as [r|]; [|reflexivity].
    destruct (try_seconds (expires_in r)) as [x|] eqn:E1; [|reflexivity].
    destruct (add_instant fetched_at x) as [e|] eqn:E2; [|reflexivity].
    apply try_seconds_spec in E1 as [-> H1]. apply add_instant_spec in E2 as [-> H2].
    destruct write_ok; [|reflexivity]. cbn.
    exists r. split; [reflexivity|]. split; [reflexivity|].
    split; [exact H1|]. split; [exact H2|]. reflexivity.
  - intros r -> H1 H2 ->. unfold authenticate, from_response.
    rewrite (proj2 (try_seconds_spec _ _) (conj eq_refl H1)).
    rewrite (proj2 (add_instant_spec _ _ _) (conj eq_refl H2)). reflexivity.
Qed.

Lemma tl_authenticate_witness :
  fst (authenticate None 1000 (Some (mkResponse "a1" 3600 "Bearer" "r1" None)) "https://cb" true)
    = Some tt.
Proof.
  apply (proj2 (tl_authenticate None 1000 (Some (mkResponse "a1" 3600 "Bearer" "r1" None))
                  "https://cb" true) (mkResponse "a1" 3600 "Bearer" "r1" None) eq_refl).
  - cbn. unfold MAX_SECS. lia.
  - cbn. pose proof MIN_INSTANT_value. pose proof MAX_INSTANT_value. lia.
  - reflexivity.
Defined.

(** A chain of [refresh_access_token] calls fails exactly when one answer
    carries an invalid [expires_in] or one [at + expires_in] is not a
    representable instant (a panic of the addition); a chain that succeeds keeps the
    [redirect_uri] and [authed_at] of the first token, and ends with the
    access token, refresh token, token type and scope of the last answer,
    expiring [expires_in] seconds after the last request. *)
Theorem tl_refresh_chain :
  (forall d l, refresh_chain d l = None <->
     Exists (fun p => ~ (- MAX_SECS <= expires_in (fst p) <= MAX_SECS /\
                         MIN_INSTANT <= snd p + expires_in (fst p) <= MAX_INSTANT)) l) /\
  (forall d l d', refresh_chain d l = Some d' ->
     redirect_uri d' = redirect_uri d /\ authed_at d' = authed_at d) /\
  (forall d l r at_ d', refresh_chain d (l ++ [(r, at_)]) = Some d' ->
     access_token d' = r_access_token r /\ refresh_token d' = r_refresh_token r /\
     token_type d' = r_token_type r /\ scope d' = r_scope r /\
     expires_at d' = at_ + expires_in r).
Proof.
  split; [|split].
  - intros d l. revert d. induction l as [|[r at_] l IH]; intros d; cbn [refresh_chain].
    + split; [discriminate | intros H; inversion H].
    + rewrite Exists_cons.
      destruct (update_from_response d r at_ (redirect_uri d)) as [nd|] eqn:E.
      * rewrite IH. split; [intros H; right; exact H|].
        intros [Hx|Hx]; [|exact Hx].
        rewrite (proj2 (update_from_response_none _ _ _ _) Hx) in E. discriminate E.
      * split; [intros _; left; exact (proj1 (update_from_response_none _ _ _ _) E) | reflexivity].
  - intros d l. revert d. induction l as [|[r at_] l IH]; intros d d' H; cbn [refresh_chain] in H.
    + injection H as <-. split; reflexivity.
    + destruct (update_from_response d r at_ (redirect_uri d)) as [nd|] eqn:E; [|discriminate].
      destruct (IH nd d' H) as [Hr Ha]. unfold update_from_response in E.
      destruct (try_seconds (expires_in r)) as [x|]; [|discriminate].
      destruct (add_instant at_ x); [|discriminate]. injection E as <-.
      cbn in Hr, Ha. split; assumption.
  - intros d l. revert d. induction l as [|[r0 at0] l IH]; intros d r at_ d' H.
    + cbn [app refresh_chain] in H.
      destruct (update_from_response d r at_ (redirect_uri d)) as [nd|] eqn:E; [|discriminate].
      injection H as <-. pose proof (update_from_response_expires _ _ _ _ _ E) as Hx.
      unfold update_from_response in E.
      destruct (try_seconds (expires_in r)) as [x|]; [|discriminate].
      destruct (add_instant at_ x); [|discriminate]. injection E as <-.
      cbn in Hx |- *. repeat split; auto.
    + cbn [app refresh_chain] in H.
      destruct (update_from_response d r0 at0 (redirect_uri d)) as [nd|]; [|discriminate].
      exact (IH nd r at_ d' H).
Qed.

Lemma tl_refresh_chain_witness :
  option_map expires_at
    (refresh_chain (mkAuthData "a1" 100 "Bearer" "r1" None "https://cb" (Some 5))
       [(mkResponse "a2" 3600 "Bearer" "r2" None, 150); (mkResponse "a3" 60 "Bearer" "r3" None, 4000)])
    = Some 4060.
Proof.
  destruct tl_refresh_chain as [_ [_ H]].
  destruct (refresh_chain (mkAuthData "a1" 100 "Bearer" "r1" None "https://cb" (Some 5))
              [(mkResponse "a2" 3600 "Bearer" "r2" None, 150); (mkResponse "a3" 60 "Bearer" "r3" None, 4000)])
    as [d'|] eqn:E.
  - destruct (H _ [(mkResponse "a2" 3600 "Bearer" "r2" None, 150)] _ _ _ E) as [_ [_ [_ [_ Hx]]]].
    cbn [option_map]. rewrite Hx. reflexivity.
  - vm_compute in E. discriminate E.
Defined.

End TlAuthExtras2.

Module GcArgsExtras.
Import GcAuth GcAuthArgs.


(** [AuthArgs::load_token] fails, leaving the token file as it finds it,
    on a token file that does not parse and on an expired access token
    whose refresh request fails, whatever the secrets and the token
    endpoint would answer; a refresh whose store fails after truncating
    the file fails too and leaves a file that does not parse. *)
Theorem gc_args_load_errors :
  (forall at_ now ra up wr sok pair wrn,
     args_load_token Garbled at_ now ra up wr sok pair wrn = (None, Garbled)) /\
  (forall tok at_ now ra wr sok pair wrn, access_expires tok <= now ->
     args_load_token (Holds tok) at_ now ra None wr sok pair wrn = (None, Holds tok)) /\
  (forall tok tok' r at_ now ra sok pair wrn, access_expires tok <= now ->
     refreshed tok ra r = Some tok' ->
     args_load_token (Holds tok) at_ now ra (Some r) WFailTruncated sok pair wrn = (None, Garbled)).
Proof.
  split; [|split].
  - reflexivity.
  - intros tok at_ now ra wr sok pair wrn H. unfold args_load_token, load_token.
    rewrite (proj2 (Z.leb_le _ _) H). reflexivity.
  - intros tok tok' r at_ now ra sok pair wrn H Hr. unfold args_load_token, load_token.
    rewrite (proj2 (Z.leb_le _ _) H), Hr. reflexivity.
Qed.

Lemma gc_args_load_errors_witness :
  args_load_token (Holds (mkToken "a"%string 100 "r"%string 500)) 200 200 200 None WOk true
    None WOk = (None, Holds (mkToken "a"%string 100 "r"%string 500)) /\
  args_load_token (Holds (mkToken "a"%string 100 "r"%string 500)) 200 200 200
    (Some (mkRefreshResp "b"%string 60)) WFailTruncated true None WOk = (None, Garbled).
Proof.
  destruct gc_args_load_errors as [_ [H2 H3]]. split.
  - apply H2. cbn. lia.
  - apply (H3 _ (mkToken "b"%string 260 "r"%string 500)).
    + cbn. lia.
    + reflexivity.
Defined.



(** What [load_token] can return: no token only when there is no token
    file; the stored token unchanged while its access token is valid at
    [now]; otherwise only the token refreshed from a successful answer
    and stored successfully, which keeps the refresh token and its
    expiry.  The refreshed token is not checked against [now]. *)
Theorem gc_load_token_result file now at_ up wr res f' :
  load_token file now at_ up wr = (Some res, f') ->
  match res with
  | None => file = Missing /\ f' = Missing
  | Some tok' =>
      (file = Holds tok' /\ now < access_expires tok' /\ f' = file) \/
      (exists tok r, file = Holds tok /\ access_expires tok <= now /\ up = Some r /\ wr = WOk /\
         - MAX_SECS <= resp_access_expires r <= MAX_SECS /\
         MIN_INSTANT <= at_ + resp_access_expires r <= MAX_INSTANT /\
         tok' = mkToken (resp_access r) (at_ + resp_access_expires r) (refresh tok) (refresh_expires tok) /\
         f' = Holds tok')
  end.
Proof.
  unfold load_token. destruct file as [| |tok].
  - intros H. injection H as <- <-. split; reflexivity.
  - discriminate.
  - destruct (Z.leb_spec (access_expires tok) now) as [Hx|Hx].
    + destruct up as [r|]; [|discriminate].
      unfold refreshed.
      destruct (try_seconds (resp_access_expires r)) as [d|] eqn:E1; [|discriminate].
      destruct (add_instant at_ d) as [e|] eqn:E2; [|discriminate].
      apply TlAuthFacts.try_seconds_spec in E1 as [-> H1].
      apply TlAuthFacts.add_instant_spec in E2 as [-> H2].
      destruct wr; cbn; try discriminate.
      intros Hl. injection Hl as <- <-. right. exists tok, r.
      pose proof TlAuthFacts.MIN_INSTANT_value. pose proof TlAuthFacts.MAX_INSTANT_value.
      unfold MAX_SECS in *. repeat split; auto; lia.
    + intros H. injection H as <- <-. left. auto.
Qed.

Lemma gc_load_token_result_witness :
  load_token (Holds (mkToken "a"%string 100 "r"%string 500)) 200 210
    (Some (mkRefreshResp "b"%string (-50))) WOk
    = (Some (Some (mkToken "b"%string 160 "r"%string 500)), Holds (mkToken "b"%string 160 "r"%string 500)) /\
  access_expires (mkToken "b"%string 160 "r"%string 500) <= 200.
Proof.
  split; [reflexivity|].
  destruct (gc_load_token_result (Holds (mkToken "a"%string 100 "r"%string 500)) 200 210
              (Some (mkRefreshResp "b"%string (-50))) WOk (Some (mkToken "b"%string 160 "r"%string 500))
              (Holds (mkToken "b"%string 160 "r"%string 500)) eq_refl)
    as [[H _]|[tok [r [_ [Hx [Hu [_ [_ [_ [E _]]]]]]]]]].
  - discriminate H.
  - injection Hu as <-. rewrite E. cbn. lia.
Defined.

End GcArgsExtras.

Module PoolExtras.
Import Pool PoolFacts.
Local Open Scope nat_scope.

(** While [run] has not returned: the permits left and the running tasks
    add up to [concurrency]; the receiver is open, so [JobHandle::spawn]
    always succeeds and queues the job last; once the channel is found
    closed and empty, no handle and no queued job is left, and the loop
    never pulls a job again: it returns [Ok] when no task is left and
    otherwise only reaps. *)
Theorem pool_run_state (w : World) (Hw : reachable w) :
  permits w + count_running (tasks w) = concurrency w /\
  (forall k, handle_spawn w k = Some (with_queue w (queue w ++ [k]))) /\
  (has_terminated w = true ->
     senders w = 0 /\ queue w = [] /\
     iteration w PullJob = if List.length (tasks w) =? 0 then Return RunOk else Pending).
Proof.
  destruct (reachable_inv w Hw) as [Hb Ht Hp Ho].
  split; [exact Hp|]. split.
  - intros k. unfold handle_spawn. rewrite Ho. reflexivity.
  - intros Hterm. destruct (Ht Hterm) as [Hs [Hq _]].
    split; [exact Hs|]. split; [exact Hq|].
    unfold iteration. rewrite Hterm. cbn [andb negb].
    destruct (List.length (tasks w) =? 0) eqn:E; [reflexivity|].
    rewrite !andb_false_r. reflexivity.
Qed.

(** Witness for [pool_run_state]: two permits, after the loop pulled the
    one queued job; one task runs and one permit is left, and a new job is
    queued last. *)
Lemma pool_run_state_witness :
  permits (mkWorld 0 [] [mkTask 0 None] false 2 1 true) +
    count_running (tasks (mkWorld 0 [] [mkTask 0 None] false 2 1 true)) = 2 /\
  count_running (tasks (mkWorld 0 [] [mkTask 0 None] false 2 1 true)) = 1 /\
  handle_spawn (mkWorld 0 [] [mkTask 0 None] false 2 1 true) 7 =
    Some (mkWorld 0 [7] [mkTask 0 None] false 2 1 true).
Proof.
  destruct (pool_run_state _ (reach_iter (mkWorld 0 [0] [] false 2 2 true) PullJob _
                                (reach_queued 2) eq_refl)) as [H1 [H2 _]].
  split; [exact H1|]. split; [reflexivity | exact (H2 7)].
Defined.

End PoolExtras.

Module StateExtras.
Import Fs Store StoreFacts.

(** [write_state] replaces the state file in one step, whatever its calls
    return: with a temporary file distinct from the state file, a reader
    of the state file sees the old contents or the new ones, the state file
    ends with the buffer when [write_state] returns [Ok] and keeps its old
    contents when it returns an error, and no other file changes.  On
    success the rename is the only change a reader sees and the temporary
    file is gone; a temporary file that did not exist before is gone
    after an error too, except when [persist] failed: then it holds the
    buffer.  When every call succeeds, [write_state] returns [Ok]. *)
Theorem write_state_atomic cwd fs io tmp path buf ok ops :
  resolve cwd (join (write_state_dir path) tmp) <> resolve cwd path ->
  write_state io tmp path buf = (ok, ops) ->
  Forall (fun v => v = fs (resolve cwd path) \/ v = Some buf) (observe cwd fs ops path) /\
  run_ops cwd fs ops (resolve cwd path) = (if ok then Some buf else fs (resolve cwd path)) /\
  (forall q, q <> resolve cwd path -> q <> resolve cwd (join (write_state_dir path) tmp) ->
     run_ops cwd fs ops q = fs q) /\
  (ok = true ->
     run_ops cwd fs ops (resolve cwd (join (write_state_dir path) tmp)) = None /\
     observe cwd fs ops path = [fs (resolve cwd path); fs (resolve cwd path); fs (resolve cwd path);
                                fs (resolve cwd path); Some buf]) /\
  (fs (resolve cwd (join (write_state_dir path) tmp)) = None ->
     run_ops cwd fs ops (resolve cwd (join (write_state_dir path) tmp)) = None \/
     (ok = false /\ io_ok (io 2%nat) = false /\
      run_ops cwd fs ops (resolve cwd (join (write_state_dir path) tmp)) = Some buf)) /\
  (io 0%nat = IoOk -> io 1%nat = IoOk -> io 2%nat = IoOk -> ok = true).
Proof.
  intros Hne H. unfold write_state in H.
  set (t := join (write_state_dir path) tmp) in *.
  destruct (io 0%nat) as [|k0] eqn:E0;
    [destruct (io 1%nat) as [|k1] eqn:E1; [destruct (io 2%nat) as [|k2] eqn:E2|]|];
    injection H as <- <-; cbn [run_ops apply_op observe];
    set (T := resolve cwd t) in *; set (P := resolve cwd path) in *;
    pose proof (not_eq_sym Hne) as Hne'; unfold upd;
    repeat first [rewrite path_eqb_refl | rewrite (path_eqb_neq T P Hne)
                 | rewrite (path_eqb_neq P T Hne')].
  all: split; [repeat (apply Forall_cons; [first [left; reflexivity | right; reflexivity] |]);
               apply Forall_nil|].
  all: split; [reflexivity|].
  all: split; [intros q H1 H2; rewrite ?(path_eqb_neq q P H1), ?(path_eqb_neq q T H2); reflexivity|].
  all: split; [intros Hok; try discriminate Hok; split; reflexivity|].
  all: split; [intros Hn; first [left; assumption | left; reflexivity | right; repeat split]|].
  all: intros; first [reflexivity | discriminate].
Qed.

(** Witness for [write_state_atomic]: [state.json] in the root directory;
    when every call succeeds it holds the buffer, and when [persist] (call
    [2]) fails the temporary file [/tmp1] is left holding it. *)
Lemma write_state_atomic_witness :
  (exists ops, write_state no_faults "tmp1"%string ["state.json"%string] "s1"%string = (true, ops) /\
     run_ops ["/"%string] (fun _ => None) ops ["/"; "state.json"]%string = Some "s1"%string) /\
  (exists ops, write_state (fail_at 2) "tmp1"%string ["state.json"%string] "s1"%string = (false, ops) /\
     run_ops ["/"%string] (fun _ => None) ops ["/"; "tmp1"]%string = Some "s1"%string).
Proof.
  split; eexists; split; [reflexivity| |reflexivity|].
  - exact (proj1 (proj2 (write_state_atomic ["/"%string] (fun _ => None) no_faults "tmp1"%string
                           ["state.json"%string] "s1"%string true _ ltac:(vm_compute; discriminate) eq_refl))).
  - destruct (proj1 (proj2 (proj2 (proj2 (proj2 (write_state_atomic ["/"%string] (fun _ => None) (fail_at 2)
                "tmp1"%string ["state.json"%string] "s1"%string false _
                ltac:(vm_compute; discriminate) eq_refl))))) eq_refl) as [Hn | [_ [_ Hs]]].
    + vm_compute in Hn. discriminate Hn.
    + exact Hs.
Defined.

End StateExtras.

Module HistoryExtras.
Import Date DateFacts MonthsFacts HistoryWindow HistoryFacts Months SyncFacts.

Lemma sub_days_within : forall k y m dd, Z.of_nat k < dd ->
  sub_days (mkDate y m dd) k = Some (mkDate y m (dd - Z.of_nat k)).
Proof.
  induction k as [|k IH]; intros y m dd H.
  - cbn. f_equal. f_equal. lia.
  - cbn [sub_days]. unfold pred_opt; cbn [year month day].
    destruct (Z.ltb_spec 1 dd); [|lia].
    rewrite IH by lia. f_equal. f_equal. lia.
Qed.

(** A window of [history_days] days that starts in today's month on a
    day after the first is moved by [Cmd::run] to the first of the next
    month: the range it then scans, and hands to [list_account] as
    [start_date] and [end_date], starts after it ends. *)
Theorem history_window_after_end today hd :
  valid today -> Z.of_N hd + 2 <= day today -> idx today < LAST_IDX ->
  scan_range today hd = Some (first_of (idx today + 1), today) /\
  le (first_of (idx today + 1)) today = false.
Proof.
  intros Hv Hd Hl. split.
  - unfold scan_range. destruct today as [y m d]. cbn [day] in Hd. pose proof (N_nat_Z hd).
    rewrite sub_days_within by lia. cbn [day].
    destruct (Z.ltb_spec 1 (d - Z.of_nat (N.to_nat hd))); [|lia].
    destruct (add_months (mkDate y m (d - Z.of_nat (N.to_nat hd))) 1) as [s1|] eqn:Hs1.
    + rewrite (round_up_first (mkDate y m (d - Z.of_nat (N.to_nat hd))) ltac:(cbn [day]; lia) s1 Hs1). reflexivity.
    + exfalso. assert (MIN_YEAR = -262143) by reflexivity. assert (MAX_YEAR = 262142) by reflexivity.
      unfold add_months in Hs1. cbn [Z.eqb year month day] in Hs1.
      destruct Hv as [Hy [Hm _]]. cbn [year month] in Hy, Hm. unfold idx, LAST_IDX in Hl. cbn [year month] in Hl.
      destruct (Z.leb_spec MIN_YEAR ((y * 12 + m - 1 + 1) / 12)); cbn [andb] in Hs1;
        [destruct (Z.leb_spec ((y * 12 + m - 1 + 1) / 12) MAX_YEAR); [discriminate|] |];
        Z.div_mod_to_equations; lia.
  - rewrite le_key by (apply wf_first_of || apply valid_wf; exact Hv).
    rewrite key_first_of. pose proof (key_idx today (valid_wf _ Hv)).
    apply Z.leb_gt. lia.
Qed.

(** Witness for [history_window_after_end]: five days of history on
    2024-03-10 give the range from 2024-04-01 to 2024-03-10. *)
Lemma history_window_after_end_witness :
  scan_range (mkDate 2024 3 10) 5 = Some (mkDate 2024 4 1, mkDate 2024 3 10) /\
  le (mkDate 2024 4 1) (mkDate 2024 3 10) = false.
Proof.
  destruct (history_window_after_end (mkDate 2024 3 10) 5) as [H1 H2].
  - unfold valid; vm_compute; repeat split; discriminate.
  - cbn. lia.
  - unfold LAST_IDX, MAX_YEAR. cbn. lia.
  - split; [exact H1 | exact H2].
Defined.

End HistoryExtras.
